(** * OpenFisca core: formula evaluation and legislation patching

    A shallow embedding of [openfisca_core/reforms.py] (the interval patch
    [updated_legislation_items]) and of [openfisca_core/formulas.py] (the
    role scatter/gather helpers and the [compute] methods of the four
    formula classes), with the properties of the design document stated
    over it. *)

From stdpp Require Import gmap strings list fin_maps.
From Stdlib Require Import ZArith Lia.

Open Scope Z_scope.

(** * Instants

    Modelled from the spec: [periods.instant], [Instant.offset] and
    [str(instant)] live in [openfisca_core/periods.py], which is not part of
    the sources at hand.  The design document describes an instant as "a
    calendar day, totally ordered, supports offset-by-days and comparison".
    An instant is therefore the number of days since 1970-01-01 (proleptic
    Gregorian calendar); [instant_of_ymd] and [ymd_of_instant] convert from
    and to the year-month-day triple that [str] prints as YYYY-MM-DD. *)
Module Periods.

Definition instant := Z.

Definition instant_of_ymd (y m d : Z) : instant :=
  let y' := if m <=? 2 then y - 1 else y in
  let era := y' / 400 in
  let yoe := y' - era * 400 in
  let mp := if m >? 2 then m - 3 else m + 9 in
  let doy := (153 * mp + 2) / 5 + d - 1 in
  let doe := yoe * 365 + yoe / 4 - yoe / 100 + doy in
  era * 146097 + doe - 719468.

Definition ymd_of_instant (i : instant) : Z * Z * Z :=
  let z := i + 719468 in
  let era := z / 146097 in
  let doe := z - era * 146097 in
  let yoe := (doe - doe / 1460 + doe / 36524 - doe / 146096) / 365 in
  let doy := doe - (365 * yoe + yoe / 4 - yoe / 100) in
  let mp := (5 * doy + 2) / 153 in
  let d := doy - (153 * mp + 2) / 5 + 1 in
  let m := if mp <? 10 then mp + 3 else mp - 9 in
  ((if m <=? 2 then yoe + era * 400 + 1 else yoe + era * 400), m, d).

(** [instant.offset(n, 'day')] *)
Definition offset_day (i : instant) (n : Z) : instant := i + n.

End Periods.

(** * reforms.py: the interval patch *)
Module Reforms.
Import Periods.

Section Items.

(** The type of the ['value'] entry of an item. *)
Context {V : Type}.

(** An item is the dict [{'start': .., 'stop': .., 'value': ..}].  Its dates
    are kept as instants: the source stores them as ISO strings, reads them
    with [periods.instant] and writes them back with [str], and on such
    strings the order used by the final [sorted] is the order of the
    instants. *)
Record item : Type := Item { start : instant; stop : instant; value : V }.

(** The loop state: the list [new_items] and the flag [inserted]. *)
Definition loop_state : Type := list item * bool.

(** [if not inserted: new_items.append(new_item); inserted = True] *)
Definition insert_once (new : item) (st : loop_state) : loop_state :=
  if st.2 then st else (st.1 ++ [new], true).

(** One iteration of the [for item in items] loop.  The first two tests end
    in [continue]; the four that follow are tried in sequence, each on the
    state left by the one before; the last one only holds a [continue]. *)
Definition process_item (new_item_start new_item_stop : instant) (v : V)
    (st : loop_state) (it : item) : loop_state :=
  let new := Item new_item_start new_item_stop v in
  let item_start := start it in
  let item_stop := stop it in
  if (item_stop <? new_item_start) || (item_start >? new_item_stop) then
    (st.1 ++ [Item (start it) (stop it) (value it)], st.2)
  else if (item_stop =? new_item_stop) && (item_start =? new_item_start) then
    insert_once new st
  else
    let st1 :=
      if (item_start <? new_item_start) && (item_stop <=? new_item_stop) then
        insert_once new
          (st.1 ++ [Item (start it) (offset_day new_item_start (-1)) (value it)], st.2)
      else st in
    let st2 :=
      if (item_start <? new_item_start) && (item_stop >? new_item_stop) then
        let s := insert_once new
          (st1.1 ++ [Item (start it) (offset_day new_item_start (-1)) (value it)], st1.2) in
        (s.1 ++ [Item (offset_day new_item_stop 1) (stop it) (value it)], s.2)
      else st1 in
    let st3 :=
      if (item_start >=? new_item_start) && (item_stop <? new_item_stop) then
        let s := insert_once new st2 in
        (s.1 ++ [Item (offset_day new_item_stop 1) (stop it) (value it)], s.2)
      else st2 in
    st3.

(** [sorted(new_items, key = lambda item: item['start'])]: Python's sort is
    stable, so its result is that of a stable insertion sort. *)
Fixpoint insert_by_start (x : item) (l : list item) : list item :=
  match l with
  | [] => [x]
  | y :: l' => if start x <=? start y then x :: y :: l' else y :: insert_by_start x l'
  end.

Definition sorted_by_start (l : list item) : list item :=
  foldr insert_by_start [] l.

Definition patch_loop (new_item_start new_item_stop : instant) (v : V)
    (items : list item) : loop_state :=
  fold_left (process_item new_item_start new_item_stop v) items ([], false).

Definition updated_legislation_items (items : list item)
    (start_instant stop_instant : instant) (v : V) : list item :=
  sorted_by_start (patch_loop start_instant stop_instant v items).1.

(** ** Timelines *)

(** Every item is a real interval. *)
Definition well_formed (l : list item) : Prop := Forall (fun it => start it <= stop it) l.

(** Ordered and non-overlapping: each item ends before the next one starts. *)
Fixpoint ordered (l : list item) : Prop :=
  match l with
  | [] => True
  | x :: l' => Forall (fun y => stop x < start y) l' /\ ordered l'
  end.

(** Ascending by start, the order the final sort establishes. *)
Fixpoint ascending (l : list item) : Prop :=
  match l with
  | [] => True
  | x :: l' => Forall (fun y => start x <= start y) l' /\ ascending l'
  end.

(** The value a timeline holds at an instant: the first item that covers it
    (the scan of [find_item_at_date]). *)
Fixpoint value_at (l : list item) (i : instant) : option V :=
  match l with
  | [] => None
  | x :: l' => if (start x <=? i) && (i <=? stop x) then Some (value x) else value_at l' i
  end.

(** The test of the first branch: the item lies entirely before or entirely
    after the new interval. *)
Definition disjointb (s e : instant) (it : item) : bool :=
  (stop it <? s) || (start it >? e).

(** Number of items of a list that touch the interval [s, e]. *)
Fixpoint overlaps (s e : instant) (l : list item) : nat :=
  match l with
  | [] => 0%nat
  | x :: l' => ((if disjointb s e x then 0 else 1) + overlaps s e l')%nat
  end.

(** Every item the loop has emitted is either clear of the new interval or
    the new item itself, which is there at most once, and not at all while
    [inserted] is false. *)
Definition emitted_ok (s e : instant) (v : V) (st : loop_state) : Prop :=
  Forall (λ x, disjointb s e x = true ∨ x = Item s e v) st.1 ∧
  (overlaps s e st.1 ≤ 1)%nat ∧
  (st.2 = false → overlaps s e st.1 = 0%nat).

(** The three pieces the containment branch emits for an item that strictly
    contains the new interval. *)
Definition split_of (s e : instant) (v : V) (it : item) : list item :=
  [ Item (start it) (offset_day s (-1)) (value it);
    Item s e v;
    Item (offset_day e 1) (stop it) (value it) ].

(** ** [find_item_at_date] *)

(** What [find_item_at_date] does: return an item, return [None], or fail
    with the [ValueError] of [min] on an empty list. *)
Inductive found : Type :=
  | FoundItem (it : item)
  | FoundNone
  | EmptySequence.

(** The [for item in items] scan: the first item that covers the instant. *)
Fixpoint first_covering (items : list item) (i : instant) : option item :=
  match items with
  | [] => None
  | x :: items' =>
      if (start x <=? i) && (i <=? stop x) then Some x else first_covering items' i
  end.

(** [min(items, key = lambda item: item['start'])]: the first item among
    those of least start. *)
Fixpoint earliest_from (best : item) (items : list item) : item :=
  match items with
  | [] => best
  | x :: items' => earliest_from (if start x <? start best then x else best) items'
  end.

(** [max(items, key = lambda item: item['stop'])]: the first item among
    those of greatest stop. *)
Fixpoint latest_from (best : item) (items : list item) : item :=
  match items with
  | [] => best
  | x :: items' => latest_from (if stop best <? stop x then x else best) items'
  end.

(** [find_item_at_date(items, date, nearest_in_period)]; the period is given
    by its start and stop instants. *)
Definition find_item_at_date (items : list item) (date : instant)
    (nearest_in_period : option (instant * instant)) : found :=
  match first_covering items date with
  | Some it => FoundItem it
  | None =>
      match nearest_in_period with
      | Some (period_start, period_stop) =>
          if (period_start <=? date) && (date <=? period_stop) then
            match items with
            | [] => EmptySequence
            | x :: items' =>
                let earliest_item := earliest_from x items' in
                if date <? start earliest_item then FoundItem earliest_item
                else
                  let latest_item := latest_from x items' in
                  if date >? stop latest_item then FoundItem latest_item
                  else FoundNone
            end
          else FoundNone
      | None => FoundNone
      end
  end.

End Items.

Arguments item : clear implicits.

Arguments found : clear implicits.

(** ** [update_legislation] *)

(** A legislation tree, as [build_node] tells its nodes apart: lists and
    strings are sequences, dicts are mappings, anything else is rejected. *)
#[local] Unset Elimination Schemes.
Inductive node : Type :=
  | Sequence (elements : list node)
  | Text (s : string)
  | Mapping (entries : list (string * node))
  | Other (code : Z).
#[local] Set Elimination Schemes.

(** An element of [path]: an index into a sequence or a key of a mapping. *)
Inductive path_key : Type :=
  | Index (i : Z)
  | Key (k : string).

Inductive tree_error : Type :=
  | IndexError                     (* path[path_index] beyond the path *)
  | UnexpectedNode                 (* ValueError: Unexpected type for node *)
  | ValueIsNone                    (* assert value is not None *)
  | ItemsError.                    (* raised by updated_legislation_items *)

Inductive built : Type :=
  | Built (n : node)
  | Failed (e : tree_error).

(** The characters of a string, each a string of its own. *)
Fixpoint characters (s : string) : list node :=
  match s with
  | EmptyString => []
  | String c s' => Text (String c EmptyString) :: characters s'
  end.

(** [path[path_index] == index] and [path[path_index] == key] *)
Definition is_index (p : path_key) (index : nat) : bool :=
  match p with Index i => i =? Z.of_nat index | Key _ => false end.
Definition is_key (p : path_key) (key : string) : bool :=
  match p with Key k => String.eqb k key | Index _ => false end.

(** The elements of a comprehension, built in order: the first failure is
    the failure of the whole. *)
Fixpoint collect {X : Type} (f : X → built) (l : list X) : built + list node :=
  match l with
  | [] => inr []
  | x :: l' =>
      match f x with
      | Failed e => inl (Failed e)
      | Built n =>
          match collect f l' with
          | inr ns => inr (n :: ns)
          | inl e => inl e
          end
      end
  end.

Section BuildNode.

(** [updated_legislation_items(node, start, stop, value)] on the node the
    path leads to, for the start, stop and value of the call. *)
Variable update_items : node → built.

(** The sequence case of [build_node], for the path from [path_index] on. *)
Definition build_sequence (build : node → built) (path : list path_key)
    (elements : list node) : built :=
  match elements, path with
  | [], _ => Built (Sequence [])
  | _, [] => Failed IndexError
  | _, p :: _ =>
      match collect (λ '(index, n), if is_index p index then build n else Built n)
                    (zip (seq 0 (length elements)) elements) with
      | inr ns => Built (Sequence ns)
      | inl e => e
      end
  end.

(** [build_node(root_node, path_index)]; the argument [path] is what is left
    of the path from [path_index] on. *)
Fixpoint build_node (path : list path_key) (root_node : node) : built :=
  let deeper (n : node) : built :=
    match path with
    | [] => Failed IndexError
    | _ :: rest => build_node rest n
    end in
  match root_node with
  | Sequence elements => build_sequence deeper path elements
  | Text s => build_sequence deeper path (characters s)
  | Mapping entries =>
      match entries, path with
      | [], _ => Built (Mapping [])
      | _, [] => Failed IndexError
      | _, p :: rest =>
          match collect (λ '(key, n),
                           if is_key p key
                           then match rest with
                                | [] => update_items n
                                | _ => build_node rest n
                                end
                           else Built n)
                        entries with
          | inr ns => Built (Mapping (zip entries.*1 ns))
          | inl e => e
          end
      end
  | Other _ => Failed UnexpectedNode
  end.

End BuildNode.

(** [update_legislation(legislation_json, path, period, value, start, stop)];
    [update_items start stop value] stands for the call of
    [updated_legislation_items] with these arguments. *)
Definition update_legislation {V : Type}
    (update_items : option instant → option instant → V → node → built)
    (legislation_json : node) (path : list path_key)
    (period : option (instant * instant)) (value : option V)
    (start stop : option instant) : built :=
  match value with
  | None => Failed ValueIsNone
  | Some value =>
      let '(start, stop) :=
        match period with
        | Some (period_start, period_stop) => (Some period_start, Some period_stop)
        | None => (start, stop)
        end in
      build_node (update_items start stop value) path legislation_json
  end.

(** The node a path leads to: each key selects the entry of a mapping, each
    index the element of a list. *)
Fixpoint node_at (path : list path_key) (n : node) : option node :=
  match path with
  | [] => Some n
  | p :: rest =>
      match p, n with
      | Key k, Mapping entries =>
          match list_find (λ e, e.1 = k) entries with
          | Some (_, (_, child)) => node_at rest child
          | None => None
          end
      | Index i, Sequence elements =>
          if 0 <=? i then elements !! Z.to_nat i ≫= node_at rest else None
      | _, _ => None
      end
  end.

End Reforms.

(** * formulas.py: moving values between persons and group entities *)
Module Roles.

(** ** The numpy operations the helpers use *)
Section Numpy.
Context {A : Type}.

(** [a[i]] for an integer [i] and an array of [n] cells: negative indices
    count from the end, anything outside [-n, n) raises [IndexError]. *)
Definition np_index (n : nat) (i : Z) : option nat :=
  if (0 <=? i) && (i <? Z.of_nat n) then Some (Z.to_nat i)
  else if (- Z.of_nat n <=? i) && (i <? 0) then Some (Z.to_nat (i + Z.of_nat n))
  else None.

(** [l[mask]] for a boolean array [mask]: the cells of [l] where the mask
    holds; the two must have the same length. *)
Fixpoint mask_select {B : Type} (mask : list bool) (l : list B) : option (list B) :=
  match mask, l with
  | [], [] => Some []
  | b :: mask', x :: l' =>
      r ← mask_select mask' l'; Some (if b then x :: r else r)
  | _, _ => None
  end.

(** [array[indices]] for an integer array [indices]. *)
Definition take_indices (array : list A) (indices : list Z) : option (list A) :=
  mapM (λ i, n ← np_index (length array) i; array !! n) indices.

(** [target[mask] = values]: the cells where the mask holds receive the
    values in order; there must be as many values as such cells. *)
Fixpoint mask_assign (target : list A) (mask : list bool) (values : list A)
    : option (list A) :=
  match target, mask with
  | [], [] => match values with [] => Some [] | _ => None end
  | t :: target', b :: mask' =>
      if b then
        match values with
        | v :: values' => r ← mask_assign target' mask' values'; Some (v :: r)
        | [] => None
        end
      else r ← mask_assign target' mask' values; Some (t :: r)
  | _, _ => None
  end.

(** [target[indices] = values]: the assignments happen in order, so that the
    last value written to a repeated index stays. *)
Fixpoint index_assign (target : list A) (indices : list Z) (values : list A)
    : option (list A) :=
  match indices, values with
  | [], [] => Some target
  | i :: indices', v :: values' =>
      n ← np_index (length target) i;
      index_assign (<[n := v]> target) indices' values'
  | _, _ => None
  end.

End Numpy.

(** ** Entities *)

(** What the helpers read of a group entity: its number of rows, its number
    of declared roles, and the two persons arrays
    [persons.holder_by_name[entity.index_for_person_variable_name].array] and
    [persons.holder_by_name[entity.role_for_person_variable_name].array]. *)
Record entity : Type := Entity {
  count : nat;
  roles_count : Z;
  is_persons_entity : bool;
  index_for_person : list Z;
  role_for_person : list Z
}.

(** [range(n)] *)
Definition range (n : Z) : list Z := seqZ 0 n.

(** [persons...array == role] *)
Definition role_filter (ent : entity) (role : Z) : list bool :=
  map (λ r, r =? role) (role_for_person ent).

Section Helpers.
Context {A : Type}.

(** The value [0] that replaces a missing [default] for a plain array. *)
Context (zero : A).

Definition default_or_zero (default : option A) : A :=
  match default with Some d => d | None => zero end.

(** [assert c] in the option monad. *)
Definition asserting (c : bool) : option unit := if c then Some () else None.

(** [SimpleFormula.cast_from_entity_to_roles] on a plain array, for the
    entity named by the argument [entity]; [persons_count] is
    [simulation.persons.count].  [None] stands for a raised exception. *)
Definition cast_from_entity_to_roles (persons_count : nat) (ent : entity)
    (array : list A) (default : option A) (roles : option (list Z))
    : option (list A) :=
  _ ← asserting (bool_decide (length array = count ent));
  let default := default_or_zero default in
  _ ← asserting (negb (is_persons_entity ent));
  let target_array := replicate persons_count default in
  let entity_index_array := index_for_person ent in
  let roles := match roles with Some rs => rs | None => range (roles_count ent) end in
  foldl (λ (acc : option (list A)) role,
           target_array ← acc;
           let boolean_filter := role_filter ent role in
           selected ← mask_select boolean_filter entity_index_array;
           values ← take_indices array selected;
           mask_assign target_array boolean_filter values)
        (Some target_array) roles.

(** [SimpleFormula.cast_from_entity_to_role] *)
Definition cast_from_entity_to_role (persons_count : nat) (ent : entity)
    (array : list A) (default : option A) (role : Z) : option (list A) :=
  cast_from_entity_to_roles persons_count ent array default (Some [role]).

(** The body shared by [filter_role] and each round of [split_by_roles]:
    a fresh array of [entity.count] cells filled with [default], then
    [target_array[entity_index_array[boolean_filter]] = array[boolean_filter]]. *)
Definition gather_role (ent : entity) (array : list A) (default : A) (role : Z)
    : option (list A) :=
  let target_array := replicate (count ent) default in
  let boolean_filter := role_filter ent role in
  indices ← mask_select boolean_filter (index_for_person ent);
  values ← mask_select boolean_filter array;
  index_assign target_array indices values.

(** [SimpleFormula.filter_role] on a plain array. *)
Definition filter_role (persons_count : nat) (ent : entity)
    (array : list A) (default : option A) (role : Z) : option (list A) :=
  _ ← asserting (negb (is_persons_entity ent));
  _ ← asserting (bool_decide (length array = persons_count));
  let default := default_or_zero default in
  gather_role ent array default role.

(** [SimpleFormula.split_by_roles] on a plain array; the result is the dict
    [target_array_by_role]. *)
Definition split_by_roles (persons_count : nat) (ent : entity)
    (array : list A) (default : option A) (roles : option (list Z))
    : option (gmap Z (list A)) :=
  _ ← asserting (negb (is_persons_entity ent));
  _ ← asserting (bool_decide (length array = persons_count));
  let default := default_or_zero default in
  let roles :=
    match roles with
    | Some rs => rs
    | None => range (Z.max (roles_count ent) 11)
    end in
  foldl (λ (acc : option (gmap Z (list A))) role,
           target_array_by_role ← acc;
           target_array ← gather_role ent array default role;
           Some (<[role := target_array]> target_array_by_role))
        (Some ∅) roles.

End Helpers.

(** ** The role index of a population *)

(** Number of persons that sit in row [g] of the entity with role [role]. *)
Fixpoint count_members (indices roles : list Z) (g role : Z) : nat :=
  match indices, roles with
  | i :: indices', r :: roles' =>
      ((if ((i =? g) && (r =? role))%Z then 1 else 0) + count_members indices' roles' g role)%nat
  | _, _ => 0%nat
  end.

(** Every person has a row and a role, and the row exists. *)
Definition role_index_ok (persons_count : nat) (ent : entity) : Prop :=
  length (index_for_person ent) = persons_count ∧
  length (role_for_person ent) = persons_count ∧
  Forall (λ i, 0 <= i < Z.of_nat (count ent)) (index_for_person ent).

(** ** Reductions by entity *)
Section Reductions.

(** The cells of the persons array and of the target array, and what
    [target += value] leaves in a target cell. *)
Context {A B : Type}.
Variable iadd : B → A → B.

(** [target[indices] += values]: the cells are read, the sums are formed, and
    then written back in order; for a repeated index the last sum stays. *)
Definition index_add (target : list B) (indices : list Z) (values : list A)
    : option (list B) :=
  current ← mapM (λ i, n ← np_index (length target) i; target !! n) indices;
  _ ← asserting (bool_decide (length current = length values));
  index_assign target indices (zip_with iadd current values).

(** The body shared by [sum_by_entity] and [any_by_roles], from the two
    assertions on: [zero] is the cell of [np.zeros]. *)
Definition accumulate_by_roles (zero : B) (persons_count : nat) (ent : entity)
    (array : list A) (roles : option (list Z)) : option (list B) :=
  _ ← asserting (negb (is_persons_entity ent));
  _ ← asserting (bool_decide (length array = persons_count));
  let entity_index_array := index_for_person ent in
  let roles := match roles with Some rs => rs | None => range (roles_count ent) end in
  foldl (λ (acc : option (list B)) role,
           target_array ← acc;
           let boolean_filter := role_filter ent role in
           indices ← mask_select boolean_filter entity_index_array;
           values ← mask_select boolean_filter array;
           index_add target_array indices values)
        (Some (replicate (count ent) zero)) roles.

(** [SimpleFormula.sum_by_entity] on a plain array: the target has the dtype
    of the array, or [int16] for a boolean array. *)
Definition sum_by_entity (zero : B) (persons_count : nat) (ent : entity)
    (array : list A) (roles : option (list Z)) : option (list B) :=
  accumulate_by_roles zero persons_count ent array roles.

End Reductions.

(** [SimpleFormula.any_by_roles] on a plain array: the target is boolean and
    starts all false. *)
Definition any_by_roles {A : Type} (iadd : bool → A → bool) (persons_count : nat)
    (ent : entity) (array : list A) (roles : option (list Z)) : option (list bool) :=
  accumulate_by_roles iadd false persons_count ent array roles.

(** [array[i]] for an integer [i]. *)
Definition cell_at {A : Type} (array : list A) (i : Z) : option A :=
  n ← np_index (length array) i; array !! n.

(** The last person, in the order of the persons array, that sits in row [g]
    with role [role]; positions count from [from]. *)
Fixpoint last_member_from (from : nat) (indices roles : list Z) (g role : Z)
    : option nat :=
  match indices, roles with
  | i :: indices', r :: roles' =>
      match last_member_from (S from) indices' roles' g role with
      | Some p => Some p
      | None => if ((i =? g) && (r =? role))%Z then Some from else None
      end
  | _, _ => None
  end.

Definition last_member (ent : entity) (g role : Z) : option nat :=
  last_member_from 0 (index_for_person ent) (role_for_person ent) g role.

End Roles.

(** * formulas.py: the [compute] methods *)
Module Formulas.
Import Periods.

(** ** Periods, arrays, holders *)

(** A period is the tuple [(unit, start instant, size)]; [period[0]] is its
    unit and [period[1]] its start. *)
Definition Period : Type := string * instant * Z.
Definition period_unit_of (p : Period) : string := p.1.1.
Definition period_start (p : Period) : instant := p.1.2.

Inductive dtype : Type := Float | Int | Bool | Object.

Global Instance dtype_eq_dec : EqDecision dtype.
Proof. solve_decision. Defined.

(** A cell of a numpy array: only whether it is a NaN matters here. *)
Inductive scalar : Type := Num (z : Z) | NaN.

Definition isnan (x : scalar) : bool :=
  match x with NaN => true | Num _ => false end.

Record ndarray : Type := NDArray { array_dtype : dtype; cells : list scalar }.

(** [array.size] *)
Definition size (a : ndarray) : nat := length (cells a).

(** [np.arange(len(array))[np.isnan(array)]] *)
Fixpoint nan_indices_from (i : nat) (l : list scalar) : list nat :=
  match l with
  | [] => []
  | x :: l' => if isnan x then i :: nan_indices_from (S i) l' else nan_indices_from (S i) l'
  end.
Definition nan_indices (a : ndarray) : list nat := nan_indices_from 0 (cells a).

(** [np.empty(count, dtype); array.fill(default)] *)
Definition filled (count : nat) (dt : dtype) (default : scalar) : ndarray :=
  NDArray dt (replicate count default).

(** A dated holder is a view of a holder at a period; the holder is named by
    its column. *)
Record DatedHolder : Type := mkDatedHolder { dh_holder : string; dh_period : option Period }.

(** A formula object: the holder it is bound to and its identity there. *)
Definition formula_ref : Type := string * nat.

(** What a formula function can receive. *)
Inductive argument : Type :=
  | ArgArray (a : ndarray)
  | ArgHolder (dh : DatedHolder) (a : ndarray)
  | ArgLegislation (i : instant)
  | ArgReferenceLegislation (i : instant)
  | ArgSelf (self : formula_ref)
  | ArgPeriod (p : option Period)
  | ArgAccessor (path : string) (i : instant).

(** What a call of a formula function can do: raise, return [None], return
    something that is not a numpy array, or return an array. *)
Inductive function_result : Type :=
  | Raises
  | ReturnsNone
  | ReturnsOther
  | ReturnsArray (a : ndarray).

(** The class attributes and overridable methods of a [SimpleFormula]. *)
Record simple_formula_class : Type := SimpleFormulaClass {
  function : list (string * argument) → function_result;
  period_unit : string;
  variables_name : list string;
  requires_legislation : bool;
  requires_reference_legislation : bool;
  requires_self : bool;
  requires_period : bool;
  legislation_accessor_by_name : option (list (string * string));
  get_output_period : Period → Period;
  get_variable_period : option Period → string → option Period;
  (** [None] when the method raises, as the default [output_period[1]] does
      on a missing output period. *)
  get_law_instant : option Period → string → option instant
}.

(** The four formula classes; the [nat] is the identity of the object among
    the formulas of its holder. *)
#[local] Unset Elimination Schemes.
Inductive formula : Type :=
  | SimpleFormula (id : nat) (cls : simple_formula_class)
  | AlternativeFormula (id : nat) (alternative_formulas : list formula)
  | DatedFormula (id : nat) (dated_formulas : list (formula * instant * instant))
  | SelectFormula (id : nat) (formula_by_main_variable : list (string * formula)).
#[local] Set Elimination Schemes.

Definition formula_id (f : formula) : nat :=
  match f with
  | SimpleFormula id _ | AlternativeFormula id _ | DatedFormula id _ | SelectFormula id _ => id
  end.

(** A holder with what [compute] reads of its column and entity:
    [column.is_period_invariant], [column.start], [column.end],
    [column.dtype], [column.default], [entity.count] and [holder.formula].
    The column name is the key of the holder in the simulation. *)
Record holder : Type := Holder {
  is_period_invariant : bool;
  column_start : option instant;
  column_end : option instant;
  column_dtype : dtype;
  column_default : scalar;
  entity_count : nat;
  holder_formula : formula
}.

Record simulation : Type := Simulation {
  holder_by_name : gmap string holder;
  debug : bool
}.

(** ** Exceptions *)

Inductive exn : Type :=
  | PeriodIsNone                                     (* assert period is not None *)
  | InfiniteLoop (column_name : string) (missing : gset string)
  | PeriodUnitMismatch
  | OutputPeriodMismatch
  | VariableIsNone (column_name variable_name : string)  (* assert lazy *)
  | MissingParameters
  | FunctionRaised
  | NotAnArray
  | WrongSize (got expected : nat)
  | NaNCreationError (column_name : string) (index : list nat)
  | ValueError                                       (* np.min of an empty array *)
  | TypeError                                        (* None[1] *)
  | KeyError                                         (* set.remove, unknown holder *)
  | NoFormula.                                       (* empty list of sub-formulas *)

(** ** State *)

(** [requested_formulas_by_period]: for each period key, the set of formulas
    being computed. *)
Abbreviation tracking := (gmap (option Period) (gset formula_ref)).

(** The arrays of all holders, by holder and period key, and the log of the
    calls of formula functions. *)
Record state : Type := State {
  arrays : gmap (string * option Period) ndarray;
  calls : list (formula_ref * list (string * argument))
}.

Inductive result (A : Type) : Type :=
  | Ok (a : A) (r : tracking) (s : state)
  | Exn (e : exn) (r : tracking) (s : state)
  | OutOfFuel.
Arguments Ok {A}.
Arguments Exn {A}.
Arguments OutOfFuel {A}.

(** A computation reads and updates the dict [requested_formulas_by_period]
    it was given and the simulation state; an exception keeps both as they
    were when it was raised. *)
Definition M (A : Type) : Type := tracking → state → result A.

Definition ret {A} (a : A) : M A := λ r s, Ok a r s.
Definition bind {A B} (m : M A) (k : A → M B) : M B :=
  λ r s, match m r s with
         | Ok a r' s' => k a r' s'
         | Exn e r' s' => Exn e r' s'
         | OutOfFuel => OutOfFuel
         end.
Definition raise {A} (e : exn) : M A := λ r s, Exn e r s.
Definition out_of_fuel {A} : M A := λ _ _, OutOfFuel.

Declare Scope M_scope.
Delimit Scope M_scope with M.
Bind Scope M_scope with M.
Notation "'let*' x ':=' m 'in' k" := (bind m (λ x, k))
  (at level 10, x pattern, m at level 100, k at level 200) : M_scope.
Notation "m ;; k" := (bind m (λ _, k))
  (at level 100, k at level 200, right associativity) : M_scope.
Open Scope M_scope.

Definition assert_ (c : bool) (e : exn) : M unit := if c then ret () else raise e.

Definition get_tracking : M tracking := λ r s, Ok r r s.
Definition put_tracking (r' : tracking) : M unit := λ _ s, Ok () r' s.
Definition get_state : M state := λ r s, Ok s r s.
Definition put_state (s' : state) : M unit := λ r _, Ok () r s'.

(** Run [m] on a copy of the dict: what it does to the copy is lost. *)
Definition on_copy {A} (m : M A) : M A :=
  λ r s, match m r s with
         | Ok a _ s' => Ok a r s'
         | Exn e _ s' => Exn e r s'
         | OutOfFuel => OutOfFuel
         end.

(** The formulas marked in progress for a key. *)
Definition requested (r : tracking) (key : option Period) : gset formula_ref :=
  default ∅ (r !! key).

(** [period_requested_formulas.add(self)]: the set is the one stored under
    the key, which the prologue has made sure exists. *)
Definition add_requested (key : option Period) (self : formula_ref) : M unit :=
  let* r := get_tracking in
  put_tracking (<[key := requested r key ∪ {[self]}]> r).

(** [period_requested_formulas.remove(self)]; a set raises [KeyError] when
    asked to remove what it does not hold. *)
Definition remove_requested (key : option Period) (self : formula_ref) : M unit :=
  let* r := get_tracking in
  if bool_decide (self ∈ requested r key)
  then put_tracking (<[key := requested r key ∖ {[self]}]> r)
  else raise KeyError.

(** The dict once the prologue of a [compute] has looked up a key: the key
    is there, with an empty set if it was missing. *)
Definition opened (r : tracking) (key : option Period) : tracking :=
  match r !! key with
  | None => <[key := ∅]> r
  | Some _ => r
  end.

(** [period_or_none] *)
Definition period_key (h : holder) (period : Period) : option Period :=
  if is_period_invariant h then None else Some period.

(** Two dicts that mark the same formulas under every key. *)
Definition same_requested (r r' : tracking) : Prop :=
  ∀ k, requested r' k = requested r k.

(** [r'] marks what [r] marks, and [self] under [key]. *)
Definition marked (key : option Period) (self : formula_ref) (r r' : tracking) : Prop :=
  ∀ k, requested r' k =
       if decide (k = key) then requested r key ∪ {[self]} else requested r k.

(** [r'] marks what [r] marks, except [self] under [key]. *)
Definition unmarked (key : option Period) (self : formula_ref) (r r' : tracking) : Prop :=
  ∀ k, requested r' k =
       if decide (k = key) then requested r key ∖ {[self]} else requested r k.

(** A computation that, when it returns, has restored the marks. *)
Definition keeps_requested {A} (m : M A) : Prop :=
  ∀ r s a r' s', m r s = Ok a r' s' → same_requested r r'.

(** A computation that, when it returns, has not touched the dict. *)
Definition keeps_tracking {A} (m : M A) : Prop :=
  ∀ r s a r' s', m r s = Ok a r' s' → r' = r.

(** A computation that, when it returns, has stored no array and logged no
    call. *)
Definition keeps_state {A} (m : M A) : Prop :=
  ∀ r s a r' s', m r s = Ok a r' s' → s' = s.

(** ** What is outside formulas.py *)
Section Engine.

(** [periods.stop_instant], [periods.intersection] (which returns [None] when
    nothing is left, and takes [None] for an open bound) and
    [ndarray.astype] are used as given. *)
Variable stop_instant : Period → instant.
Variable intersection : Period → option instant → option instant → option Period.
Variable astype : dtype → ndarray → ndarray.

Variable sim : simulation.

(** Modelled from the spec: [Holder.at_period] and the [array] property of
    the dated holder it returns are in holders.py, which is not among the
    sources.  The design document has a holder map each computed period to
    an array, with "at most one entry, keyed by a sentinel ignoring the
    period" for a period-invariant variable. *)
Definition at_period (h : holder) (name : string) (p : option Period) : DatedHolder :=
  mkDatedHolder name (if is_period_invariant h then None else p).

(** The checks on the output period of a simple formula. *)
Definition output_period_ok (cls : simple_formula_class) (period : Period) : Prop :=
  period_unit_of (get_output_period cls period) = period_unit cls ∧
  period_start (get_output_period cls period) <= period_start period
    <= stop_instant (get_output_period cls period).

(** The dated holder [SimpleFormula.compute] works on. *)
Definition output_holder (h : holder) (name : string) (cls : simple_formula_class)
    (period : Period) : DatedHolder :=
  at_period h name
    (intersection (get_output_period cls period) (column_start h) (column_end h)).

(** [dated_holder.array] *)
Definition get_array (dh : DatedHolder) : M (option ndarray) :=
  let* s := get_state in ret (arrays s !! (dh_holder dh, dh_period dh)).

(** [dated_holder.array = array] *)
Definition set_array (dh : DatedHolder) (a : ndarray) : M unit :=
  let* s := get_state in
  put_state (State (<[(dh_holder dh, dh_period dh) := a]> (arrays s)) (calls s)).

(** [self.holder] of a formula bound to the holder of that name. *)
Definition get_holder (name : string) : M holder :=
  match holder_by_name sim !! name with
  | Some h => ret h
  | None => raise KeyError
  end.

(** ** The prologue shared by the four [compute] methods

    From [assert period is not None] to the end of the [if]/[elif]/[else]
    on [period_requested_formulas].  The result holds the period, the key
    [period_or_none], and whether the method returns [holder.at_period(period)]
    at once. *)
Definition check_requested (h : holder) (self : formula_ref) (lazy : bool)
    (period : option Period) : M (Period * option Period * bool) :=
  match period with
  | None => raise PeriodIsNone
  | Some period =>
      let period_or_none := if is_period_invariant h then None else Some period in
      let* requested_formulas_by_period := get_tracking in
      match requested_formulas_by_period !! period_or_none with
      | None =>
          put_tracking (<[period_or_none := ∅]> requested_formulas_by_period) ;;
          ret (period, period_or_none, false)
      | Some period_requested_formulas =>
          if lazy then
            ret (period, period_or_none, bool_decide (self ∈ period_requested_formulas))
          else
            assert_ (bool_decide (self ∉ period_requested_formulas))
              (InfiniteLoop self.1 (set_map fst period_requested_formulas)) ;;
            ret (period, period_or_none, false)
      end
  end.

(** ** [SimpleFormula.compute] *)

Definition ends_with_holder (variable_name : string) : bool :=
  let n := String.length variable_name in
  (7 <=? n)%nat && String.eqb (String.substring (n - 7)%nat 7 variable_name) "_holder".

(** [variable_name[:-len('_holder')] if variable_name.endswith('_holder')
    else variable_name] *)
Definition clean_variable_name (variable_name : string) : string :=
  if ends_with_holder variable_name
  then String.substring 0 (String.length variable_name - 7)%nat variable_name
  else variable_name.

(** [output_period[1]] *)
Definition output_period_start (output_period : option Period) : M instant :=
  match output_period with
  | Some p => ret (period_start p)
  | None => raise TypeError
  end.

(** What the first part of [SimpleFormula.compute] hands over: either the
    dated holder it returns, or the output period and the arguments of the
    call. *)
Inductive prepared : Type :=
  | Returned (dh : DatedHolder)
  | Ready (period_or_none output_period : option Period)
      (arguments : list (string * argument)).

Section WithHolderCompute.

(** [Holder.compute] of the holder of a variable, defined further down. *)
Variable Holder_compute : string → bool → option Period → M DatedHolder.

(** The loop over [holder_by_variable_name]: [None] when a variable is
    missing in lazy mode, after the formula has been unmarked. *)
Fixpoint compute_variables (cls : simple_formula_class) (self : formula_ref)
    (lazy : bool) (output_period period_or_none : option Period)
    (names : list string) (arguments : list (string * argument))
    : M (option (list (string * argument))) :=
  match names with
  | [] => ret (Some arguments)
  | variable_name :: names' =>
      let variable_period := get_variable_period cls output_period variable_name in
      let* variable_dated_holder :=
        Holder_compute (clean_variable_name variable_name) lazy variable_period in
      let* array := get_array variable_dated_holder in
      match array with
      | None =>
          assert_ lazy (VariableIsNone self.1 variable_name) ;;
          remove_requested period_or_none self ;;
          ret None
      | Some array =>
          compute_variables cls self lazy output_period period_or_none names'
            (arguments ++
             [(variable_name,
               if ends_with_holder variable_name
               then ArgHolder variable_dated_holder array
               else ArgArray array)])
      end
  end.

(** The arguments that do not come from variables, in the order the method
    adds them. *)
Definition legislation_arguments (cls : simple_formula_class) (self : formula_ref)
    (output_period : option Period) : M (list (string * argument)) :=
  let* a1 :=
    (if requires_legislation cls
     then let* i := output_period_start output_period in ret [("_P"%string, ArgLegislation i)]
     else ret []) in
  let* a2 :=
    (if requires_reference_legislation cls
     then let* i := output_period_start output_period in
          ret [("_defaultP"%string, ArgReferenceLegislation i)]
     else ret []) in
  let a3 := if requires_self cls then [("self"%string, ArgSelf self)] else [] in
  let a4 := if requires_period cls then [("period"%string, ArgPeriod output_period)] else [] in
  let* a5 :=
    match legislation_accessor_by_name cls with
    | None => ret []
    | Some accessors =>
        foldl (λ (acc : M (list (string * argument))) '(name, path),
                 let* l := acc in
                 match get_law_instant cls output_period path with
                 | Some i => ret (l ++ [(name, ArgAccessor path i)])
                 | None => raise TypeError
                 end)
              (ret []) accessors
    end in
  ret (a1 ++ a2 ++ a3 ++ a4 ++ a5).

(** [required_parameters] *)
Definition required_parameters (cls : simple_formula_class) : gset string :=
  list_to_set (variables_name cls)
  ∪ list_to_set (default [] (legislation_accessor_by_name cls)).*1
  ∪ (if requires_legislation cls then {["_P"%string]} else ∅)
  ∪ (if requires_reference_legislation cls then {["_defaultP"%string]} else ∅)
  ∪ (if requires_self cls then {["self"%string]} else ∅)
  ∪ (if requires_period cls then {["period"%string]} else ∅).

(** Lines 489-576: everything before the call of the function. *)
Definition SimpleFormula_prepare (name : string) (id : nat) (cls : simple_formula_class)
    (lazy : bool) (period : option Period) : M prepared :=
  let self : formula_ref := (name, id) in
  let* h := get_holder name in
  let* (period, period_or_none, back) := check_requested h self lazy period in
  if back then ret (Returned (at_period h name (Some period))) else
  let output_period := get_output_period cls period in
  assert_ (String.eqb (period_unit_of output_period) (period_unit cls)) PeriodUnitMismatch ;;
  assert_ ((period_start output_period <=? period_start period)
           && (period_start period <=? stop_instant output_period)) OutputPeriodMismatch ;;
  let output_period := intersection output_period (column_start h) (column_end h) in
  let dated_holder := at_period h name output_period in
  let* array := get_array dated_holder in
  match array with
  | Some _ => ret (Returned dated_holder)
  | None =>
      add_requested period_or_none self ;;
      (* the property [holder_by_variable_name] asks the simulation for the
         holder of every variable *)
      foldl (λ (acc : M unit) variable_name,
               acc ;; (let* _ := get_holder (clean_variable_name variable_name) in ret ()))
            (ret ()) (variables_name cls) ;;
      let* arguments :=
        compute_variables cls self lazy output_period period_or_none
          (variables_name cls) [] in
      match arguments with
      | None => ret (Returned (at_period h name output_period))
      | Some arguments =>
          let* extra := legislation_arguments cls self output_period in
          let arguments := arguments ++ extra in
          assert_ (bool_decide (list_to_set arguments.*1 = required_parameters cls))
            MissingParameters ;;
          ret (Ready period_or_none output_period arguments)
      end
  end.

(** The NaN test [np.isnan(np.min(array))] and its [except TypeError]:
    [np.min] rejects an empty array, [np.isnan] is not defined on objects. *)
Definition check_nan (name : string) (array : ndarray) : M unit :=
  match cells array with
  | [] => raise ValueError
  | _ =>
      match array_dtype array with
      | Object => ret ()
      | _ =>
          if existsb isnan (cells array)
          then raise (NaNCreationError name (nan_indices array))
          else ret ()
      end
  end.

(** Lines 584-606: what is done with the value the function returned. *)
Definition store_result (h : holder) (name : string) (dated_holder : DatedHolder)
    (returned : function_result) : M unit :=
  match returned with
  | Raises => raise FunctionRaised
  | ReturnsNone => ret ()
  | ReturnsOther => raise NotAnArray
  | ReturnsArray array =>
      assert_ (bool_decide (size array = entity_count h))
        (WrongSize (size array) (entity_count h)) ;;
      (if debug sim then ret () else check_nan name array) ;;
      let array :=
        if bool_decide (array_dtype array ≠ column_dtype h)
        then astype (column_dtype h) array else array in
      set_array dated_holder array
  end.

(** Lines 578-618: the call, the checks on what it returns, the store into
    the dated holder, the unmarking.  Logging and tracing are left out. *)
Definition SimpleFormula_finish (name : string) (id : nat) (cls : simple_formula_class)
    (period_or_none : option Period) (output_period : option Period)
    (arguments : list (string * argument)) : M DatedHolder :=
  let self : formula_ref := (name, id) in
  let* h := get_holder name in
  let dated_holder := at_period h name output_period in
  let* s := get_state in
  put_state (State (arrays s) (calls s ++ [(self, arguments)])) ;;
  store_result h name dated_holder (function cls arguments) ;;
  remove_requested period_or_none self ;;
  ret dated_holder.

(** [SimpleFormula.compute] *)
Definition SimpleFormula_compute (name : string) (id : nat) (cls : simple_formula_class)
    (lazy : bool) (period : option Period) : M DatedHolder :=
  let* p := SimpleFormula_prepare name id cls lazy period in
  match p with
  | Returned dated_holder => ret dated_holder
  | Ready period_or_none output_period arguments =>
      SimpleFormula_finish name id cls period_or_none output_period arguments
  end.

(** ** The grouped formulas *)

(** [compute] of the formulas bound to the holder at hand. *)
Variable compute : formula → bool → option Period → M DatedHolder.

(** The loop of [AlternativeFormula.compute]: each alternative is tried
    lazily on a copy of the dict; [inl] is the [return] inside the loop,
    [inr] holds the last [dated_holder] when the loop runs out. *)
Fixpoint try_alternatives (period : Period) (alternative_formulas : list formula)
    (last : option DatedHolder) : M (DatedHolder + option DatedHolder) :=
  match alternative_formulas with
  | [] => ret (inr last)
  | alternative_formula :: rest =>
      let* dated_holder := on_copy (compute alternative_formula true (Some period)) in
      let* array := get_array dated_holder in
      match array with
      | Some _ => ret (inl dated_holder)
      | None => try_alternatives period rest (Some dated_holder)
      end
  end.

(** [AlternativeFormula.compute] *)
Definition AlternativeFormula_compute (name : string) (id : nat)
    (alternative_formulas : list formula) (lazy : bool) (period : option Period)
    : M DatedHolder :=
  let self : formula_ref := (name, id) in
  let* h := get_holder name in
  let* (period, period_or_none, back) := check_requested h self lazy period in
  if back then ret (at_period h name (Some period)) else
  add_requested period_or_none self ;;
  let* tried := try_alternatives period alternative_formulas None in
  match tried with
  | inl dated_holder =>
      remove_requested period_or_none self ;;
      ret dated_holder
  | inr last =>
      if lazy then
        remove_requested period_or_none self ;;
        match last with
        | Some dated_holder => ret dated_holder
        | None => raise NoFormula
        end
      else
        match alternative_formulas with
        | [] => raise NoFormula
        | alternative_formula :: _ =>
            let* dated_holder := compute alternative_formula lazy (Some period) in
            remove_requested period_or_none self ;;
            ret dated_holder
        end
  end.

(** The loop of [DatedFormula.compute]: [inl] is the [return] inside the
    loop, [inr] the value of [dated_holder] when the loop is left. *)
Fixpoint try_dated (lazy : bool) (period : Period) (stop : instant)
    (dated_formulas : list (formula * instant * instant))
    (dated_holder : option DatedHolder) : M (DatedHolder + option DatedHolder) :=
  match dated_formulas with
  | [] => ret (inr dated_holder)
  | (dated_formula, start_instant, stop_instant') :: rest =>
      if start_instant >? stop then ret (inr dated_holder)
      else
        match intersection period (Some start_instant) (Some stop_instant') with
        | None => try_dated lazy period stop rest dated_holder
        | Some output_period =>
            let* dated_holder := compute dated_formula lazy (Some output_period) in
            let* array := get_array dated_holder in
            match array with
            | None => ret (inr (Some dated_holder))
            | Some _ => ret (inl dated_holder)
            end
        end
  end.

(** [DatedFormula.compute] *)
Definition DatedFormula_compute (name : string) (id : nat)
    (dated_formulas : list (formula * instant * instant)) (lazy : bool)
    (period : option Period) : M DatedHolder :=
  let self : formula_ref := (name, id) in
  let* h := get_holder name in
  let* (period, period_or_none, back) := check_requested h self lazy period in
  if back then ret (at_period h name (Some period)) else
  add_requested period_or_none self ;;
  let* tried := try_dated lazy period (stop_instant period) dated_formulas None in
  match tried with
  | inl dated_holder =>
      remove_requested period_or_none self ;;
      ret dated_holder
  | inr dated_holder =>
      let array := filled (entity_count h) (column_dtype h) (column_default h) in
      let dated_holder :=
        match dated_holder with
        | None => at_period h name (Some period)
        | Some dated_holder => dated_holder
        end in
      set_array dated_holder array ;;
      remove_requested period_or_none self ;;
      ret dated_holder
  end.

(** The loop of [SelectFormula.compute]: the formula of the first main
    variable that has an array, [None] when the loop runs out. *)
Fixpoint select_formula (period : Period)
    (formula_by_main_variable : list (string * formula)) : M (option formula) :=
  match formula_by_main_variable with
  | [] => ret None
  | (main_variable, f) :: rest =>
      let* dated_holder := Holder_compute main_variable true (Some period) in
      let* array := get_array dated_holder in
      match array with
      | Some _ => ret (Some f)
      | None => select_formula period rest
      end
  end.

(** [SelectFormula.compute] *)
Definition SelectFormula_compute (name : string) (id : nat)
    (formula_by_main_variable : list (string * formula)) (lazy : bool)
    (period : option Period) : M DatedHolder :=
  let self : formula_ref := (name, id) in
  let* h := get_holder name in
  let* (period, period_or_none, back) := check_requested h self lazy period in
  if back then ret (at_period h name (Some period)) else
  add_requested period_or_none self ;;
  let* selected := select_formula period formula_by_main_variable in
  let* selected_formula :=
    match selected, formula_by_main_variable with
    | Some f, _ => ret f
    | None, (_, f) :: _ => ret f
    | None, [] => raise NoFormula
    end in
  let* dated_holder := compute selected_formula lazy (Some period) in
  remove_requested period_or_none self ;;
  ret dated_holder.

End WithHolderCompute.

(** Modelled from the spec: [Holder.compute] and [Simulation.compute] are in
    holders.py and simulations.py, which are not among the sources.  The
    design document describes the request for a variable at a period as: "If
    the Holder already has a cached entry whose period covers [period]
    exactly, return it -- no recomputation", and otherwise the formula bound
    to the variable computes it. *)
Definition Holder_compute
    (compute : string → formula → bool → option Period → M DatedHolder)
    (name : string) (lazy : bool) (period : option Period) : M DatedHolder :=
  let* h := get_holder name in
  let dated_holder := at_period h name period in
  let* array := get_array dated_holder in
  match array with
  | Some _ => ret dated_holder
  | None => compute name (holder_formula h) lazy period
  end.

(** [formula.compute(lazy, period, requested_formulas_by_period)] for a
    formula bound to the holder [name].  The recursion through the variables
    of a formula is not structural: [fuel] bounds the depth of the calls. *)
Fixpoint compute (fuel : nat) (name : string) (f : formula) (lazy : bool)
    (period : option Period) : M DatedHolder :=
  match fuel with
  | O => out_of_fuel
  | S fuel' =>
      match f with
      | SimpleFormula id cls =>
          SimpleFormula_compute (Holder_compute (compute fuel')) name id cls lazy period
      | AlternativeFormula id alternative_formulas =>
          AlternativeFormula_compute (compute fuel' name) name id alternative_formulas
            lazy period
      | DatedFormula id dated_formulas =>
          DatedFormula_compute (compute fuel' name) name id dated_formulas lazy period
      | SelectFormula id formula_by_main_variable =>
          SelectFormula_compute (Holder_compute (compute fuel')) (compute fuel' name)
            name id formula_by_main_variable lazy period
      end
  end.

(** A call that passes no [requested_formulas_by_period]: the method starts
    from an empty dict. *)
Definition compute_top (fuel : nat) (name : string) (f : formula) (lazy : bool)
    (period : option Period) (s : state) : result DatedHolder :=
  compute fuel name f lazy period ∅ s.

End Engine.

(** ** [SimpleFormula.extract_variables_name] *)

(** A default value of a parameter of the function: an accessor into the
    legislation, named by its path, or anything else. *)
Inductive default_value : Type :=
  | AccessorDefault (path : string)
  | OtherDefault.

(** What the method reads of the function: [__code__.co_varnames],
    [__code__.co_argcount], [__defaults__] and [inspect.ismethod]. *)
Record signature : Type := Signature {
  co_varnames : list string;
  co_argcount : nat;
  defaults : list default_value;
  ismethod : bool
}.

(** [l.remove(x)]: the first occurrence goes. *)
Fixpoint remove_first (x : string) (l : list string) : list string :=
  match l with
  | [] => []
  | y :: l' => if String.eqb x y then l' else y :: remove_first x l'
  end.

(** [x in l] *)
Definition mentions (x : string) (l : list string) : bool :=
  existsb (String.eqb x) l.

(** The loop over [zip(names, defaults)]; [None] when a default is not an
    accessor. *)
Fixpoint accessors_of (names : list string) (ds : list default_value)
    : option (list (string * string)) :=
  match names, ds with
  | name :: names', AccessorDefault path :: ds' =>
      rest ← accessors_of names' ds'; Some ((name, path) :: rest)
  | _ :: _, OtherDefault :: _ => None
  | _, _ => Some []
  end.

(** [cls.extract_variables_name()]: the class with the attributes the method
    sets, [None] when its assertion fails. *)
Definition extract_variables_name (sig : signature) (cls : simple_formula_class)
    : option simple_formula_class :=
  let n := (co_argcount sig - length (defaults sig))%nat in
  accessors ←
    match defaults sig with
    | [] => Some (legislation_accessor_by_name cls)
    | ds => Some <$> accessors_of (drop n (take (co_argcount sig) (co_varnames sig))) ds
    end;
  let v0 := take n (co_varnames sig) in
  let has_default := mentions "_defaultP" v0 in
  let v1 := if has_default then remove_first "_defaultP" v0 else v0 in
  let has_P := mentions "_P" v1 in
  let v2 := if has_P then remove_first "_P" v1 else v1 in
  let has_period := mentions "period" v2 in
  let v3 := if has_period then remove_first "period" v2 else v2 in
  let has_self := mentions "self" v3 in
  let v4 := if has_self then remove_first "self" v3 else v3 in
  Some {|
    function := function cls;
    period_unit := period_unit cls;
    variables_name := v4;
    requires_legislation := if has_P then true else requires_legislation cls;
    requires_reference_legislation :=
      if has_default then true else requires_reference_legislation cls;
    requires_self :=
      if has_self && negb (ismethod sig) then true else requires_self cls;
    requires_period := if has_period then true else requires_period cls;
    legislation_accessor_by_name := accessors;
    get_output_period := get_output_period cls;
    get_variable_period := get_variable_period cls;
    get_law_instant := get_law_instant cls
  |}.

(** A class as [SimpleFormula] declares it, before the method has run. *)
Definition blank_class (f : list (string * argument) → function_result)
    (unit : string) (output : Period → Period) : simple_formula_class :=
  {| function := f;
     period_unit := unit;
     variables_name := [];
     requires_legislation := false;
     requires_reference_legislation := false;
     requires_self := false;
     requires_period := false;
     legislation_accessor_by_name := None;
     get_output_period := output;
     get_variable_period := λ output_period _, output_period;
     get_law_instant := λ output_period _, period_start <$> output_period |}.

(** ** The dated functions of a [DatedFormulaColumn] *)

(** An attribute of the class body: a function decorated with
    [dated_function] with a start given, or anything without the attribute
    [start_instant]. *)
Inductive attribute (F : Type) : Type :=
  | DatedFunction (f : F) (start_instant : instant) (stop_instant : option instant)
  | Undated.
Arguments DatedFunction {F}.
Arguments Undated {F}.

Section DatedClasses.
Context {F : Type}.

(** An entry of [dated_formulas_class]. *)
Definition dated_class : Type := F * instant * option instant.

(** The first loop of the metaclass (lines 912-938): the dated functions in
    the order of the attributes, [None] when an interval is inverted.  [F]
    stands for the class built around a function; the call of
    [extract_variables_name] on it is treated above. *)
Fixpoint collect_dated (attributes : list (attribute F)) : option (list dated_class) :=
  match attributes with
  | [] => Some []
  | Undated :: rest => collect_dated rest
  | DatedFunction f start_instant stop_instant :: rest =>
      _ ← match stop_instant with
          | Some stop => if start_instant <=? stop then Some () else None
          | None => Some ()
          end;
      l ← collect_dated rest;
      Some ((f, start_instant, stop_instant) :: l)
  end.

(** [dated_formulas_class.sort(key = ...['start_instant'])], a stable sort. *)
Fixpoint insert_dated (x : dated_class) (l : list dated_class) : list dated_class :=
  match l with
  | [] => [x]
  | y :: l' => if x.1.2 <=? y.1.2 then x :: y :: l' else y :: insert_dated x l'
  end.

Definition sort_dated (l : list dated_class) : list dated_class :=
  foldr insert_dated [] l.

(** The loop over each entry and the next one (lines 941-948): a missing
    stop becomes the day before the next start, a given one must come
    before the next start. *)
Fixpoint close_dated (l : list dated_class) : option (list dated_class) :=
  match l with
  | [] => Some []
  | (f, start_instant, stop_instant) :: rest =>
      match rest with
      | [] => Some [(f, start_instant, stop_instant)]
      | (_, next_start, _) :: _ =>
          stop ←
            match stop_instant with
            | None => Some (offset_day next_start (-1))
            | Some stop => if stop <? next_start then Some stop else None
            end;
          rest' ← close_dated rest;
          Some ((f, start_instant, Some stop) :: rest')
      end
  end.

(** Each entry starts no later than the next one. *)
Definition ascending_dated (l : list dated_class) : Prop :=
  ∀ i x y, l !! i = Some x → l !! S i = Some y → x.1.2 <= y.1.2.

(** [dated_formulas_class] as the metaclass leaves it. *)
Definition dated_formulas_class (attributes : list (attribute F))
    : option (list dated_class) :=
  l ← collect_dated attributes; close_dated (sort_dated l).

End DatedClasses.

(** ** [set_dependencies] *)

(** [column_by_name], with the attribute [consumers] of each column: [None]
    or a set of column names. *)
Abbreviation consumers_by_name := (gmap string (option (gset string))).

(** The body of the loop of [SimpleFormula.set_dependencies]; [None] is the
    [KeyError] of [column_by_name[clean_variable_name]]. *)
Definition add_consumer (column_name : string) (column_by_name : consumers_by_name)
    (variable_name : string) : option consumers_by_name :=
  let clean := clean_variable_name variable_name in
  consumers ← column_by_name !! clean;
  Some (<[clean := Some (default ∅ consumers ∪ {[column_name]})]> column_by_name).

(** [cls.set_dependencies(column, column_by_name)] for the four classes.  The
    method walks the classes, which are nested as the formulas built from
    them are: a [formula] stands here for its class. *)

(** What a call may do to the consumers: each column is kept as it was, or
    has gained [column_name]. *)
Definition registers (column_name : string) (m m' : consumers_by_name) : Prop :=
  ∀ k, m' !! k = m !! k ∨
       ∃ consumers, m !! k = Some consumers ∧
                    m' !! k = Some (Some (default ∅ consumers ∪ {[column_name]})).

Fixpoint set_dependencies (f : formula) (column_name : string)
    (column_by_name : consumers_by_name) : option consumers_by_name :=
  match f with
  | SimpleFormula _ cls =>
      foldl (λ acc variable_name, m ← acc; add_consumer column_name m variable_name)
            (Some column_by_name) (variables_name cls)
  | AlternativeFormula _ alternative_formulas =>
      (fix go (l : list formula) (m : consumers_by_name) : option consumers_by_name :=
         match l with
         | [] => Some m
         | f' :: l' => m' ← set_dependencies f' column_name m; go l' m'
         end) alternative_formulas column_by_name
  | DatedFormula _ dated_formulas =>
      (fix go (l : list (formula * instant * instant)) (m : consumers_by_name)
         : option consumers_by_name :=
         match l with
         | [] => Some m
         | (f', _, _) :: l' => m' ← set_dependencies f' column_name m; go l' m'
         end) dated_formulas column_by_name
  | SelectFormula _ formula_by_main_variable =>
      (fix go (l : list (string * formula)) (m : consumers_by_name)
         : option consumers_by_name :=
         match l with
         | [] => Some m
         | (_, f') :: l' => m' ← set_dependencies f' column_name m; go l' m'
         end) formula_by_main_variable column_by_name
  end.

End Formulas.

(** * A small simulation

    One holder ["a"] over an entity of two rows, computed by a simple formula
    without variables whose output period is the day the request starts on.
    Its column has no start and no end, so that clipping the output period
    keeps it whole; periods are counted in days. *)
Module Examples.
Import Periods Formulas.

Definition day_stop_instant (p : Period) : instant := period_start p + p.2 - 1.

Definition whole_period (p : Period) (lower upper : option instant) : option Period :=
  Some p.

Definition retag (dt : dtype) (a : ndarray) : ndarray := NDArray dt (cells a).

Definition daily (f : list (string * argument) → function_result) : simple_formula_class :=
  {| function := f;
     period_unit := "day";
     variables_name := [];
     requires_legislation := false;
     requires_reference_legislation := false;
     requires_self := false;
     requires_period := false;
     legislation_accessor_by_name := None;
     get_output_period := λ p, ("day"%string, period_start p, 1);
     get_variable_period := λ output_period _, output_period;
     get_law_instant := λ output_period _, period_start <$> output_period |}.

(** The same class with variables. *)
Definition daily_of (names : list string)
    (f : list (string * argument) → function_result) : simple_formula_class :=
  {| function := f;
     period_unit := "day";
     variables_name := names;
     requires_legislation := false;
     requires_reference_legislation := false;
     requires_self := false;
     requires_period := false;
     legislation_accessor_by_name := None;
     get_output_period := λ p, ("day"%string, period_start p, 1);
     get_variable_period := λ output_period _, output_period;
     get_law_instant := λ output_period _, period_start <$> output_period |}.

Definition holder_of (f : formula) : holder :=
  {| is_period_invariant := false;
     column_start := None;
     column_end := None;
     column_dtype := Float;
     column_default := Num 0;
     entity_count := 2;
     holder_formula := f |}.

Definition simulation_of (f : formula) : simulation :=
  {| holder_by_name := {["a"%string := holder_of f]}; debug := false |}.

Definition the_day : Period := ("day"%string, instant_of_ymd 2014 1 1, 1).

(** A function that returns a proper array, one that returns [None], one
    that returns an array of one cell, one whose array holds a NaN. *)
Definition good_formula : formula :=
  SimpleFormula 0 (daily (λ _, ReturnsArray (NDArray Float [Num 1; Num 2]))).
Definition none_formula : formula :=
  SimpleFormula 0 (daily (λ _, ReturnsNone)).
Definition short_formula : formula :=
  SimpleFormula 0 (daily (λ _, ReturnsArray (NDArray Float [Num 1]))).

(** A dated formula whose only function, in force for the year 2014, returns
    [None]. *)
Definition dated_none_formula : formula :=
  DatedFormula 0
    [(SimpleFormula 1 (daily (λ _, ReturnsNone)),
      instant_of_ymd 2014 1 1, instant_of_ymd 2014 12 31)].

(** A dated formula whose only function, in force for the year 2014, takes
    the variable of its own holder and returns an array of one cell. *)
Definition self_short_class : simple_formula_class :=
  daily_of ["a"] (λ _, ReturnsArray (NDArray Float [Num 1])).
Definition dated_self_formula : formula :=
  DatedFormula 0
    [(SimpleFormula 1 self_short_class,
      instant_of_ymd 2014 1 1, instant_of_ymd 2014 12 31)].

Definition empty_state : state := State ∅ [].

(** The state once [good_formula] has been computed for [the_day]: its
    array is stored and its function has been called once, without
    arguments. *)
Definition computed_state : state :=
  State {[("a"%string, Some the_day) := NDArray Float [Num 1; Num 2]]}
        [(("a"%string, 0%nat), [])].

End Examples.

(** * Properties of the interval patch *)

Import Periods Reforms.

Section ReformsFacts.
Context {V : Type}.
Implicit Types (it x y new : item V) (l items a b acc : list (item V)) (s e : instant) (v : V).

(** ** The final sort *)

Lemma Forall_insert_by_start (P : item V → Prop) x l :
  Forall P (insert_by_start x l) ↔ P x ∧ Forall P l.
Proof.
  induction l as [|y l IH]; simpl.
  - rewrite Forall_singleton. intuition.
  - destruct (start x <=? start y); rewrite !Forall_cons; [tauto|].
    rewrite IH. tauto.
Qed.

Lemma insert_by_start_head x l :
  Forall (λ y, start x <= start y) l → insert_by_start x l = x :: l.
Proof.
  destruct l as [|y l]; [done|]. intros H%Forall_cons_1. simpl.
  destruct H as [H _]. apply Z.leb_le in H. by rewrite H.
Qed.

Lemma insert_by_start_ascending x l :
  ascending l → ascending (insert_by_start x l).
Proof.
  induction l as [|y l IH]; simpl; [by auto|].
  intros [Hy Hl]. destruct (start x <=? start y) eqn:E; simpl.
  - apply Z.leb_le in E. repeat split; auto. constructor; [done|].
    eapply Forall_impl; [exact Hy|]. simpl. intros; lia.
  - apply Z.leb_gt in E. split; [|by auto].
    apply Forall_insert_by_start. split; [lia|done].
Qed.

Lemma sorted_by_start_ascending l : ascending (sorted_by_start l).
Proof.
  induction l as [|x l IH]; simpl; [done|]. by apply insert_by_start_ascending.
Qed.

Lemma sorted_by_start_id l : ascending l → sorted_by_start l = l.
Proof.
  induction l as [|x l IH]; simpl; [done|]. intros [Hx Hl].
  rewrite IH by done. by apply insert_by_start_head.
Qed.

Lemma Forall_sorted_by_start (P : item V → Prop) l :
  Forall P (sorted_by_start l) ↔ Forall P l.
Proof.
  induction l as [|x l IH]; simpl; [done|].
  rewrite Forall_insert_by_start, Forall_cons, IH. tauto.
Qed.

Lemma ascending_app a b :
  ascending (a ++ b) ↔
  ascending a ∧ ascending b ∧ Forall (λ x, Forall (λ y, start x <= start y) b) a.
Proof.
  induction a as [|x a IH]; simpl.
  - intuition.
  - rewrite Forall_app, Forall_cons, IH. tauto.
Qed.

(** ** Items the loop passes through *)

Lemma process_item_disjoint s e v st it :
  disjointb s e it = true →
  process_item s e v st it = (st.1 ++ [it], st.2).
Proof.
  unfold process_item, disjointb. intros ->. by destruct it.
Qed.

Lemma fold_process_disjoint s e v l st :
  Forall (λ it, disjointb s e it = true) l →
  fold_left (process_item s e v) l st = (st.1 ++ l, st.2).
Proof.
  revert st. induction l as [|x l IH]; intros st H; simpl.
  - rewrite app_nil_r. by destruct st.
  - apply Forall_cons_1 in H as [Hx Hl].
    rewrite process_item_disjoint, IH by done. simpl.
    by rewrite <- app_assoc.
Qed.

(** ** What one pass leaves behind *)

Lemma overlaps_app s e a b : overlaps s e (a ++ b) = (overlaps s e a + overlaps s e b)%nat.
Proof. induction a as [|x a IH]; simpl; [done|]. rewrite IH. lia. Qed.

Lemma overlaps_insert_by_start s e x l :
  overlaps s e (insert_by_start x l) = overlaps s e (x :: l).
Proof.
  induction l as [|y l IH]; simpl; [done|].
  destruct (start x <=? start y); simpl; [done|]. rewrite IH. simpl. lia.
Qed.

Lemma overlaps_sorted_by_start s e l : overlaps s e (sorted_by_start l) = overlaps s e l.
Proof.
  induction l as [|x l IH]; simpl; [done|].
  rewrite overlaps_insert_by_start. simpl. by rewrite IH.
Qed.

Lemma emitted_ok_append s e v st x :
  emitted_ok s e v st → disjointb s e x = true → emitted_ok s e v (st.1 ++ [x], st.2).
Proof.
  intros (HF & H1 & H0) Hx. unfold emitted_ok. simpl.
  rewrite Forall_app, Forall_singleton, overlaps_app. simpl. rewrite Hx.
  repeat split; auto; try lia. intros Hi. specialize (H0 Hi). lia.
Qed.

Lemma emitted_ok_insert_once s e v st :
  emitted_ok s e v st → emitted_ok s e v (insert_once (Item s e v) st).
Proof.
  intros (HF & H1 & H0). unfold insert_once. destruct st as [acc [|]]; simpl in *.
  - done.
  - specialize (H0 eq_refl). unfold emitted_ok. simpl.
    rewrite Forall_app, Forall_singleton, overlaps_app. simpl.
    repeat split; auto; try done. destruct (disjointb s e _); lia.
Qed.

Lemma emitted_ok_process_item s e v st it :
  emitted_ok s e v st → emitted_ok s e v (process_item s e v st it).
Proof.
  intros H. unfold process_item.
  destruct (_ || _) eqn:Hd.
  { apply emitted_ok_append; [done|]. unfold disjointb. by destruct it. }
  destruct (_ && _); [by apply emitted_ok_insert_once|].
  assert (Hl : disjointb s e (Item (start it) (offset_day s (-1)) (value it)) = true).
  { unfold disjointb, offset_day. simpl. apply orb_true_iff. left. apply Z.ltb_lt. lia. }
  assert (Hr : disjointb s e (Item (offset_day e 1) (stop it) (value it)) = true).
  { unfold disjointb, offset_day. simpl. apply orb_true_iff. right. apply Z.gtb_gt. lia. }
  repeat match goal with
  | |- context [if ?b then _ else _] => destruct b
  end;
  repeat first
    [ assumption
    | apply emitted_ok_insert_once
    | apply (emitted_ok_append s e v (insert_once _ _)); [|assumption]
    | apply (emitted_ok_append s e v (_, _)); [|assumption]
    | apply (emitted_ok_append s e v st); [|assumption] ].
Qed.

Lemma emitted_ok_patch_loop s e v items : emitted_ok s e v (patch_loop s e v items).
Proof.
  unfold patch_loop.
  assert (H : emitted_ok s e v ([], false)) by (repeat split; simpl; auto).
  revert H. generalize (([], false) : @loop_state V).
  induction items as [|x l IH]; intros st H; simpl; [done|].
  apply IH. by apply emitted_ok_process_item.
Qed.

(** A second pass over such a list copies it. *)
Lemma second_pass s e v l : ∀ acc ins,
  Forall (λ x, disjointb s e x = true ∨ x = Item s e v) l →
  (overlaps s e l ≤ 1)%nat →
  (ins = true → overlaps s e l = 0%nat) →
  (fold_left (process_item s e v) l (acc, ins)).1 = acc ++ l.
Proof.
  induction l as [|x l IH]; intros acc ins HF H1 H0; simpl.
  - by rewrite app_nil_r.
  - apply Forall_cons_1 in HF as [Hx HF]. simpl in H1, H0.
    destruct (disjointb s e x) eqn:Hd.
    + rewrite process_item_disjoint by done. simpl.
      rewrite IH; [by rewrite <- app_assoc|done|lia|].
      intros Hi. specialize (H0 Hi). lia.
    + destruct Hx as [Hx| ->]; [congruence|].
      destruct ins; [specialize (H0 eq_refl); lia|].
      unfold process_item. unfold disjointb in Hd. simpl in *. rewrite Hd.
      rewrite !Z.eqb_refl. simpl. unfold insert_once. simpl.
      rewrite IH; [by rewrite <- app_assoc|done|lia|lia].
Qed.

(** ** Ordered timelines *)

Lemma ordered_app a b :
  ordered (a ++ b) ↔
  ordered a ∧ ordered b ∧ Forall (λ x, Forall (λ y, stop x < start y) b) a.
Proof.
  induction a as [|x a IH]; simpl.
  - intuition.
  - rewrite Forall_app, Forall_cons, IH. tauto.
Qed.

Lemma ordered_ascending l : well_formed l → ordered l → ascending l.
Proof.
  unfold well_formed. induction l as [|x l IH]; simpl; [done|].
  intros [Hx Hl]%Forall_cons_1 [Hs Ho]. split; [|by auto].
  rewrite Forall_forall in Hl, Hs |- *. intros y Hy.
  specialize (Hs y Hy). lia.
Qed.

Lemma process_item_containment s e v acc it :
  start it < s → s <= e → e < stop it →
  process_item s e v (acc, false) it = (acc ++ split_of s e v it, true).
Proof.
  intros Hs Hse He. unfold process_item, split_of, insert_once. simpl.
  replace (stop it <? s) with false by (symmetry; apply Z.ltb_ge; lia).
  replace (start it >? e) with false by (rewrite Z.gtb_ltb; symmetry; apply Z.ltb_ge; lia).
  replace (stop it =? e) with false by (symmetry; apply Z.eqb_neq; lia).
  replace (stop it <=? e) with false by (symmetry; apply Z.leb_gt; lia).
  replace (start it <? s) with true by (symmetry; apply Z.ltb_lt; lia).
  replace (stop it >? e) with true by (rewrite Z.gtb_ltb; symmetry; apply Z.ltb_lt; lia).
  replace (start it >=? s) with false by (rewrite Z.geb_leb; symmetry; apply Z.leb_gt; lia).
  simpl. by rewrite <- !app_assoc.
Qed.

Lemma containment_split_general l1 it l2 s e v :
  well_formed (l1 ++ it :: l2) → ordered (l1 ++ it :: l2) →
  start it < s → s <= e → e < stop it →
  updated_legislation_items (l1 ++ it :: l2) s e v = l1 ++ split_of s e v it ++ l2.
Proof.
  intros Hwf Ho Hs Hse He.
  apply ordered_app in Ho as (Ho1 & Ho2 & Hx). simpl in Ho2. destruct Ho2 as [Hy Ho2].
  apply Forall_app in Hwf as [Hwf1 Hwf2]. apply Forall_cons_1 in Hwf2 as [_ Hwf2].
  assert (Hb : Forall (λ x, stop x < start it) l1).
  { eapply Forall_impl; [exact Hx|]. by intros x [? _]%Forall_cons_1. }
  assert (Hd1 : Forall (λ x, disjointb s e x = true) l1).
  { eapply Forall_impl; [exact Hb|]. intros x ?. simpl in *. unfold disjointb.
    apply orb_true_iff. left. apply Z.ltb_lt. lia. }
  assert (Hd2 : Forall (λ y, disjointb s e y = true) l2).
  { eapply Forall_impl; [exact Hy|]. intros y ?. simpl in *. unfold disjointb.
    apply orb_true_iff. right. apply Z.gtb_gt. lia. }
  unfold updated_legislation_items, patch_loop.
  rewrite fold_left_app. rewrite (fold_process_disjoint s e v l1) by exact Hd1. simpl.
  rewrite process_item_containment by done.
  rewrite (fold_process_disjoint s e v l2) by exact Hd2. simpl.
  rewrite <- app_assoc. apply sorted_by_start_id.
  apply ordered_ascending.
  - unfold well_formed, split_of, offset_day.
    rewrite Forall_app, !Forall_cons. simpl. repeat split; auto; lia.
  - apply ordered_app. split; [done|]. unfold split_of, offset_day. simpl.
    rewrite Forall_forall in Hy, Hx, Hb, Hwf1.
    assert (Hy' : ∀ t : Z, t <= stop it → Forall (λ y, t < start y) l2).
    { intros t ?. rewrite Forall_forall. intros z Hz.
      specialize (Hy z Hz). simpl in Hy. lia. }
    repeat split; auto; rewrite ?Forall_cons, ?Forall_nil; simpl;
      repeat split; try lia; try (apply Hy'; lia).
    rewrite Forall_forall. intros z Hz.
      pose proof (Hx z Hz) as Hxz. pose proof (Hb z Hz) as Hbz.
      pose proof (Hwf1 z Hz) as Hwz. simpl in *.
      apply Forall_cons_1 in Hxz as [_ Hxz].
      rewrite !Forall_cons. simpl. repeat split; try lia. done.
Qed.

End ReformsFacts.

(** ** Main results on [updated_legislation_items] *)

(** C3 (patch contract, evaluated where it breaks).  The contract asks that
    the new item be present exactly once even when it meets no existing item,
    as the docstring of [updated_legislation_items] promises ("if the period
    matches no existing item, the new item is yielded as-is").  The loop only
    appends the new item inside the overlap branches: on an empty timeline,
    and on a timeline that lies entirely before the new interval, the result
    does not hold the new item at all, and has no value on the new
    interval. *)
Theorem patch_without_overlap_omits_new_item :
  updated_legislation_items ([] : list (item Z))
    (instant_of_ymd 2011 1 1) (instant_of_ymd 2011 12 31) 20 = []
  ∧ updated_legislation_items
      [Item (instant_of_ymd 2010 1 1) (instant_of_ymd 2010 12 31) 10]
      (instant_of_ymd 2011 1 1) (instant_of_ymd 2011 12 31) 20
    = [Item (instant_of_ymd 2010 1 1) (instant_of_ymd 2010 12 31) 10]
  ∧ value_at
      (updated_legislation_items
         [Item (instant_of_ymd 2010 1 1) (instant_of_ymd 2010 12 31) 10]
         (instant_of_ymd 2011 1 1) (instant_of_ymd 2011 12 31) 20)
      (instant_of_ymd 2011 6 15) = None.
Proof. repeat split; vm_compute; reflexivity. Qed.

(** C4 (right overlap and fully contained items, evaluated where they
    break).  The branch commented "right edge overlapping are corrected"
    tests [item_stop < new_item_stop] where a right overlap has
    [item_stop > new_item_stop].  An item that starts inside the new interval
    and ends after it therefore matches no branch: it disappears and the new
    item is not emitted.  An item strictly inside the new interval takes that
    branch instead of being dropped and leaves a remainder that starts the day
    after the new interval and stops before it. *)
Theorem patch_right_overlap_misfires :
  updated_legislation_items
    [Item (instant_of_ymd 2011 7 1) (instant_of_ymd 2012 12 31) 10]
    (instant_of_ymd 2011 1 1) (instant_of_ymd 2011 12 31) 20 = []
  ∧ updated_legislation_items
      [Item (instant_of_ymd 2011 3 1) (instant_of_ymd 2011 6 30) 10]
      (instant_of_ymd 2011 1 1) (instant_of_ymd 2011 12 31) 20
    = [Item (instant_of_ymd 2011 1 1) (instant_of_ymd 2011 12 31) 20;
       Item (instant_of_ymd 2012 1 1) (instant_of_ymd 2011 6 30) 10].
Proof. split; vm_compute; reflexivity. Qed.

(** C5 (containment).  In a well-formed, ordered, non-overlapping timeline,
    an item that starts strictly before the new interval and ends strictly
    after it is replaced, in place, by its left remainder up to the day before
    the new start, the new item, and its right remainder from the day after
    the new stop, the remainders keeping the old value; every other item is
    unchanged.  In particular the timeline [(2010-01-01, 2012-12-31, 10)]
    patched with (2011-01-01, 2011-12-31, 20) gives the three items of the
    design document. *)
Theorem patch_containment_split :
  (∀ (V : Type) (l1 l2 : list (item V)) (it : item V) (s e : instant) (v : V),
     well_formed (l1 ++ it :: l2) → ordered (l1 ++ it :: l2) →
     start it < s → s <= e → e < stop it →
     updated_legislation_items (l1 ++ it :: l2) s e v
     = l1 ++ [ Item (start it) (offset_day s (-1)) (value it);
               Item s e v;
               Item (offset_day e 1) (stop it) (value it) ] ++ l2)
  ∧ updated_legislation_items
      [Item (instant_of_ymd 2010 1 1) (instant_of_ymd 2012 12 31) 10]
      (instant_of_ymd 2011 1 1) (instant_of_ymd 2011 12 31) 20
    = [Item (instant_of_ymd 2010 1 1) (instant_of_ymd 2010 12 31) 10;
       Item (instant_of_ymd 2011 1 1) (instant_of_ymd 2011 12 31) 20;
       Item (instant_of_ymd 2012 1 1) (instant_of_ymd 2012 12 31) 10].
Proof.
  split.
  - intros. by apply containment_split_general.
  - vm_compute. reflexivity.
Qed.

Lemma patch_containment_split_witness :
  let items := [Item 0 9 5; Item 10 40 10; Item 50 60 15] in
  (well_formed items ∧ ordered items ∧ 10 < 20 ∧ 20 <= 30 ∧ 30 < 40) ∧
  updated_legislation_items items 20 30 7
  = [Item 0 9 5; Item 10 19 10; Item 20 30 7; Item 31 40 10; Item 50 60 15].
Proof.
  assert (Hwf : well_formed [Item 0 9 5; Item 10 40 10; Item 50 60 15]).
  { unfold well_formed. repeat constructor; simpl; lia. }
  assert (Ho : ordered [Item 0 9 5; Item 10 40 10; Item 50 60 15]).
  { simpl. repeat split; repeat constructor; simpl; lia. }
  split.
  - split; [exact Hwf|]. split; [exact Ho|]. lia.
  - apply (proj1 patch_containment_split Z [Item 0 9 5] [Item 50 60 15]
             (Item 10 40 10) 20 30 7); [exact Hwf|exact Ho|simpl; lia..].
Defined.

(** C6 (idempotence).  Patching the result of a patch again with the same
    start, stop and value returns that result unchanged.  This holds for
    every input list, ordered or not. *)
Theorem patch_idempotent {V : Type} (items : list (item V)) (s e : instant) (v : V) :
  updated_legislation_items (updated_legislation_items items s e v) s e v
  = updated_legislation_items items s e v.
Proof.
  unfold updated_legislation_items at 1.
  pose proof (emitted_ok_patch_loop s e v items) as (HF & H1 & _).
  unfold patch_loop at 1.
  rewrite second_pass.
  - simpl. apply sorted_by_start_id, sorted_by_start_ascending.
  - unfold updated_legislation_items. by apply Forall_sorted_by_start.
  - unfold updated_legislation_items. by rewrite overlaps_sorted_by_start.
  - discriminate.
Qed.

(** * Properties of scatter and gather *)

Import Roles.

Section RolesFacts.
Context {A : Type}.
Implicit Types (array target values G : list A) (mask : list bool) (d : A).

Lemma np_index_in_range n i :
  0 <= i < Z.of_nat n → np_index n i = Some (Z.to_nat i).
Proof.
  intros H. unfold np_index.
  replace (0 <=? i) with true by (symmetry; apply Z.leb_le; lia).
  replace (i <? Z.of_nat n) with true by (symmetry; apply Z.ltb_lt; lia).
  done.
Qed.

Lemma np_index_lt n i k : np_index n i = Some k → (k < n)%nat.
Proof.
  unfold np_index. intros H.
  destruct ((0 <=? i) && (i <? Z.of_nat n)) eqn:E1.
  - apply andb_true_iff in E1 as [?%Z.leb_le ?%Z.ltb_lt]. simplify_eq. lia.
  - destruct ((- Z.of_nat n <=? i) && (i <? 0)) eqn:E2; [|done].
    apply andb_true_iff in E2 as [?%Z.leb_le ?%Z.ltb_lt]. simplify_eq. lia.
Qed.

Lemma mask_select_length {B} mask (l r : list B) :
  mask_select mask l = Some r → length mask = length l.
Proof.
  revert l r. induction mask as [|b mask IH]; intros [|x l] r H; simpl in *; try done.
  destruct (mask_select mask l) eqn:E; [|done]. f_equal. eauto.
Qed.

Lemma mask_select_is_Some {B} mask (l : list B) :
  length mask = length l → is_Some (mask_select mask l).
Proof.
  revert l. induction mask as [|b mask IH]; intros [|x l] H; simpl in *; try done.
  destruct (IH l) as [r ->]; [lia|]. simpl. eauto.
Qed.

Lemma mask_assign_select mask : ∀ target values c,
  mask_assign target mask values = Some c →
  mask_select mask c = Some values ∧ length c = length target.
Proof.
  induction mask as [|b mask IH]; intros [|t target] values c H; simpl in *; try done.
  - destruct values; by simplify_eq.
  - destruct b.
    + destruct values as [|v values]; [done|].
      destruct (mask_assign target mask values) as [r|] eqn:E; [|done].
      simpl in H. simplify_eq. destruct (IH _ _ _ E) as [Hs Hl]. simpl.
      rewrite Hs, Hl. done.
    + destruct (mask_assign target mask values) as [r|] eqn:E; [|done].
      simpl in H. simplify_eq. destruct (IH _ _ _ E) as [Hs Hl]. simpl.
      rewrite Hs, Hl. done.
Qed.

Lemma mask_assign_is_Some {B} mask : ∀ target (src selected : list B) values,
  length target = length mask →
  mask_select mask src = Some selected →
  length values = length selected →
  is_Some (mask_assign target mask values).
Proof.
  induction mask as [|b mask IH]; intros [|t target] [|x src] selected values Hl Hs Hv;
    simpl in *; try done.
  - simplify_eq. destruct values; [eauto|done].
  - destruct (mask_select mask src) as [r|] eqn:E; [|done]. simpl in Hs. simplify_eq.
    destruct b.
    + destruct values as [|v values]; [done|]. simpl in Hv.
      destruct (IH target src r values) as [c ->]; [lia|done|lia|]. simpl. eauto.
    + destruct (IH target src r values) as [c ->]; [lia|done|lia|]. simpl. eauto.
Qed.

(** Which persons the filter of a role keeps. *)
Lemma role_filter_select ent role selected :
  mask_select (role_filter ent role) (index_for_person ent) = Some selected →
  ∀ g, (0 < count_members (index_for_person ent) (role_for_person ent) g role)%nat
       ↔ g ∈ selected.
Proof.
  unfold role_filter.
  generalize (index_for_person ent) as indices, (role_for_person ent) as roles.
  intros indices roles. revert indices selected.
  induction roles as [|r roles IH]; intros [|i indices] selected H g; simpl in *;
    simplify_eq; try (rewrite elem_of_nil; lia).
  destruct (mask_select _ indices) as [sel|] eqn:E; [|done]. simpl in H.
  specialize (IH _ _ E g).
  destruct (r =? role) eqn:Er; simplify_eq.
  - rewrite elem_of_cons, <- IH, andb_true_r.
    destruct (i =? g) eqn:Ei; [apply Z.eqb_eq in Ei|apply Z.eqb_neq in Ei];
      split; intros; try lia; naive_solver lia.
  - rewrite andb_false_r, <- IH. simpl. done.
Qed.

Lemma mask_select_elem_of {B} mask (l selected : list B) x :
  mask_select mask l = Some selected → x ∈ selected → x ∈ l.
Proof.
  revert l selected. induction mask as [|b mask IH]; intros [|y l] selected H Hx;
    simpl in *; simplify_eq; try done.
  destruct (mask_select mask l) as [r|] eqn:E; [|done]. simpl in H. simplify_eq.
  destruct b.
  - apply elem_of_cons in Hx as [->|Hx]; [left|right; eauto].
  - right. eauto.
Qed.

Lemma index_assign_length indices : ∀ target values target',
  index_assign target indices values = Some target' → length target' = length target.
Proof.
  induction indices as [|i indices IH]; intros target [|v values] target' H;
    simpl in *; simplify_eq; try done.
  destruct (np_index (length target) i) as [n|]; [|done]. simpl in H.
  apply IH in H. by rewrite length_insert in H.
Qed.

Lemma index_assign_is_Some indices : ∀ target values,
  length indices = length values →
  Forall (λ i, is_Some (np_index (length target) i)) indices →
  is_Some (index_assign target indices values).
Proof.
  induction indices as [|i indices IH]; intros target [|v values] Hl HF;
    simpl in *; try done.
  apply Forall_cons_1 in HF as [[n ->] HF]. simpl.
  apply IH; [lia|]. by rewrite length_insert.
Qed.

(** Cells that no index reaches keep what they held. *)
Lemma index_assign_untouched indices : ∀ target values target' k,
  index_assign target indices values = Some target' →
  (∀ i, i ∈ indices → np_index (length target) i ≠ Some k) →
  target' !! k = target !! k.
Proof.
  induction indices as [|i indices IH]; intros target [|v values] target' k H Hk;
    simpl in *; simplify_eq; try done.
  destruct (np_index (length target) i) as [n|] eqn:En; [|done]. simpl in H.
  rewrite (IH _ _ _ k H).
  - apply list_lookup_insert_ne. intros ->. apply (Hk i); [left|done].
  - rewrite length_insert. intros j Hj. apply Hk. by right.
Qed.

(** When every value written at an index is the cell [G] has there, a cell
    that agrees with [G], or that some index reaches, agrees with [G] in the
    end. *)
Lemma index_assign_agree G indices : ∀ target values target' k,
  Forall2 (λ i v, ∀ n, np_index (length target) i = Some n → G !! n = Some v)
    indices values →
  index_assign target indices values = Some target' →
  target !! k = G !! k ∨ (∃ i, i ∈ indices ∧ np_index (length target) i = Some k) →
  target' !! k = G !! k.
Proof.
  induction indices as [|i indices IH]; intros target [|v values] target' k HF H Hk;
    simpl in *; simplify_eq; try done.
  - destruct Hk as [Hk|(i & Hi & _)]; [done|]. by apply elem_of_nil in Hi.
  - apply Forall2_cons_1 in HF as [Hv HF].
    destruct (np_index (length target) i) as [n|] eqn:En; [|done]. simpl in H.
    specialize (Hv n eq_refl). pose proof (np_index_lt _ _ _ En) as Hn.
    apply (IH _ _ _ k) in H; [done| |].
    + by rewrite length_insert.
    + rewrite length_insert. destruct (decide (n = k)) as [->|Hne].
      * left. by rewrite list_lookup_insert_eq.
      * rewrite list_lookup_insert_ne by done.
        destruct Hk as [Hk|(j & Hj & Hjk)]; [by left|].
        apply elem_of_cons in Hj as [->|Hj]; [congruence|]. right. eauto.
Qed.

End RolesFacts.

(** ** Main results on scatter and gather *)

(** C9 (scatter/gather round trip).  For a group array [G] with one cell per
    row of the entity, a role [R] and a default [d]: when every person has an
    existing row and every row has exactly one person with role [R], casting
    [G] to the persons with role [R] and filtering the result back by [R]
    succeeds and returns [G] itself. *)
Theorem scatter_gather_round_trip {A : Type} (zero : A) (persons_count : nat)
    (ent : entity) (G : list A) (d : A) (R : Z) :
  role_index_ok persons_count ent →
  is_persons_entity ent = false →
  length G = count ent →
  (∀ g, 0 <= g < Z.of_nat (count ent) →
        count_members (index_for_person ent) (role_for_person ent) g R = 1%nat) →
  cast_from_entity_to_role zero persons_count ent G (Some d) R
    ≫= (λ persons_array, filter_role zero persons_count ent persons_array (Some d) R)
  = Some G.
Proof.
  intros (Hli & Hlr & Hrange) Hpe HG Hone.
  unfold cast_from_entity_to_role, cast_from_entity_to_roles, filter_role, gather_role.
  rewrite Hpe, (bool_decide_eq_true_2 _ HG). simpl.
  destruct (mask_select_is_Some (role_filter ent R) (index_for_person ent))
    as [selected Hsel].
  { unfold role_filter. rewrite length_map. lia. }
  rewrite Hsel. simpl.
  assert (Hin : Forall (λ i, 0 <= i < Z.of_nat (length G)) selected).
  { rewrite Forall_forall in Hrange |- *. intros i Hi. rewrite HG.
    apply Hrange. eapply mask_select_elem_of; eauto. }
  destruct (mapM_is_Some_2
              (λ i, n ← np_index (length G) i; G !! n) selected) as [values Hval].
  { eapply Forall_impl; [exact Hin|]. intros i Hi. simpl in Hi |- *.
    rewrite np_index_in_range by done. simpl. apply lookup_lt_is_Some. lia. }
  unfold take_indices. rewrite Hval. simpl.
  pose proof (mapM_Some_1 _ _ _ Hval) as HF.
  pose proof (Forall2_length _ _ _ HF) as Hlen.
  destruct (mask_assign_is_Some (role_filter ent R) (replicate persons_count d)
              (index_for_person ent) selected values) as [c Hc]; [| done | done |].
  { unfold role_filter. rewrite length_replicate, length_map. lia. }
  rewrite Hc. simpl.
  apply mask_assign_select in Hc as [Hcs Hcl]. rewrite length_replicate in Hcl.
  rewrite (bool_decide_eq_true_2 _ Hcl). simpl. rewrite Hcs. simpl.
  destruct (index_assign_is_Some selected (replicate (count ent) d) values)
    as [T HT]; [done| |].
  { rewrite length_replicate, <- HG. eapply Forall_impl; [exact Hin|].
    intros i Hi. simpl in Hi |- *. rewrite np_index_in_range by done. eauto. }
  rewrite HT. f_equal. apply list_eq. intros k.
  apply (index_assign_agree G _ _ _ _ k) in HT; [done| |].
  - rewrite length_replicate, <- HG. eapply Forall2_impl; [exact HF|].
    intros i v Hv n Hn. simpl in Hv. rewrite Hn in Hv. done.
  - rewrite length_replicate. destruct (decide (k < count ent)%nat) as [Hk|Hk].
    + right. exists (Z.of_nat k). split.
      * eapply role_filter_select; [exact Hsel|]. rewrite Hone; lia.
      * rewrite np_index_in_range by lia. by rewrite Nat2Z.id.
    + left. rewrite !lookup_ge_None_2; [done|lia|rewrite length_replicate; lia].
Qed.

Lemma scatter_gather_round_trip_witness :
  let ent := Entity 2 3 false [0; 0; 1; 1; 1] [0; 1; 1; 0; 2] in
  cast_from_entity_to_role 0 5 ent [10; 20] (Some 7) 0
    ≫= (λ persons_array, filter_role 0 5 ent persons_array (Some 7) 0)
  = Some [10; 20].
Proof.
  apply (scatter_gather_round_trip 0 5
           (Entity 2 3 false [0; 0; 1; 1; 1] [0; 1; 1; 0; 2]) [10; 20] 7 0).
  - unfold role_index_ok. simpl. split; [reflexivity|]. split; [reflexivity|].
    repeat constructor; lia.
  - reflexivity.
  - reflexivity.
  - simpl. intros g Hg.
    assert (g = 0 ∨ g = 1) as [-> | ->] by lia; reflexivity.
Defined.

Section SplitFacts.
Context {A : Type}.

Lemma mask_select_same_length {B C} mask : ∀ (l1 r1 : list B) (l2 r2 : list C),
  mask_select mask l1 = Some r1 → mask_select mask l2 = Some r2 →
  length r1 = length r2.
Proof.
  induction mask as [|b mask IH]; intros [|x l1] r1 [|y l2] r2 H1 H2;
    simpl in *; simplify_eq; try done.
  destruct (mask_select mask l1) as [s1|] eqn:E1; [|done].
  destruct (mask_select mask l2) as [s2|] eqn:E2; [|done].
  simpl in *. simplify_eq. pose proof (IH _ _ _ _ E1 E2). destruct b; simpl; lia.
Qed.

(** One gathering round: it succeeds on a well-formed role index, returns one
    cell per row, and leaves the default in every row where no person holds
    the role. *)
Lemma gather_role_spec (persons_count : nat) (ent : entity) (array : list A)
    (d : A) (role : Z) :
  role_index_ok persons_count ent → length array = persons_count →
  ∃ target, gather_role ent array d role = Some target ∧
    length target = count ent ∧
    ∀ g, 0 <= g < Z.of_nat (count ent) →
         count_members (index_for_person ent) (role_for_person ent) g role = 0%nat →
         target !! Z.to_nat g = Some d.
Proof.
  intros (Hli & Hlr & Hrange) Harr. unfold gather_role.
  destruct (mask_select_is_Some (role_filter ent role) (index_for_person ent))
    as [selected Hsel].
  { unfold role_filter. rewrite length_map. lia. }
  destruct (mask_select_is_Some (role_filter ent role) array) as [values Hval].
  { unfold role_filter. rewrite length_map. lia. }
  rewrite Hsel, Hval. simpl.
  assert (Hin : Forall (λ i, 0 <= i < Z.of_nat (count ent)) selected).
  { rewrite Forall_forall in Hrange |- *. intros i Hi.
    apply Hrange. eapply mask_select_elem_of; eauto. }
  destruct (index_assign_is_Some selected (replicate (count ent) d) values)
    as [target HT].
  { eapply mask_select_same_length; eauto. }
  { rewrite length_replicate. eapply Forall_impl; [exact Hin|].
    intros i Hi. simpl in Hi |- *. rewrite np_index_in_range by done. eauto. }
  exists target. split; [done|]. split.
  { apply index_assign_length in HT. by rewrite length_replicate in HT. }
  intros g Hg Hnone.
  rewrite (index_assign_untouched _ _ _ _ (Z.to_nat g) HT).
  - apply lookup_replicate_2. lia.
  - rewrite length_replicate. intros i Hi Heq.
    rewrite Forall_forall in Hin. specialize (Hin i Hi). simpl in Hin.
    rewrite np_index_in_range in Heq by done. simplify_eq.
    assert (i = g) as -> by lia.
    apply (role_filter_select _ _ _ Hsel) in Hi. lia.
Qed.

(** The loop of [split_by_roles]: the keys added are the roles visited, and
    the array under each key comes from a gathering round. *)
Lemma split_loop (zero : A) (ent : entity) (array : list A) (d : A) (roles : list Z) :
  ∀ m0 : gmap Z (list A),
  (∀ r, r ∈ roles → is_Some (gather_role ent array d r)) →
  ∃ m,
    foldl (λ (acc : option (gmap Z (list A))) role,
             target_array_by_role ← acc;
             target_array ← gather_role ent array d role;
             Some (<[role := target_array]> target_array_by_role))
          (Some m0) roles = Some m ∧
    dom m = dom m0 ∪ list_to_set roles ∧
    ∀ r target, m !! r = Some target →
                m0 !! r = Some target ∨ gather_role ent array d r = Some target.
Proof.
  induction roles as [|role roles IH]; intros m0 Hok; simpl.
  - exists m0. split; [done|]. split; [set_solver|]. auto.
  - destruct (Hok role) as [t Ht]; [left|]. rewrite Ht. simpl.
    destruct (IH (<[role := t]> m0)) as (m & Hm & Hdom & Hval).
    { intros r Hr. apply Hok. by right. }
    exists m. split; [done|]. split.
    + rewrite Hdom, dom_insert_L. set_solver.
    + intros r target Hr. destruct (Hval r target Hr) as [H|H]; [|by right].
      destruct (decide (role = r)) as [->|Hne].
      * rewrite lookup_insert_eq in H. simplify_eq. by right.
      * rewrite lookup_insert_ne in H by done. by left.
Qed.

End SplitFacts.

(** C10 (default role set of [split_by_roles]).  Called on a plain persons
    array with [roles = None], for a well-formed role index, [split_by_roles]
    succeeds; the keys of the dict it returns are exactly the role codes from
    0 to [max(entity.roles_count, 11) - 1], so there are at least 11 of them;
    every array in it has one cell per row of the entity, and holds the
    default (0 when none is given) in each row where no person has that
    role. *)
Theorem split_by_roles_default_roles {A : Type} (zero : A) (persons_count : nat)
    (ent : entity) (array : list A) (default : option A) :
  role_index_ok persons_count ent →
  is_persons_entity ent = false →
  length array = persons_count →
  ∃ m, split_by_roles zero persons_count ent array default None = Some m ∧
    (∀ r, r ∈ dom m ↔ 0 <= r < Z.max (roles_count ent) 11) ∧
    (11 ≤ size m)%nat ∧
    (∀ r target, m !! r = Some target →
       length target = count ent ∧
       ∀ g, 0 <= g < Z.of_nat (count ent) →
            count_members (index_for_person ent) (role_for_person ent) g r = 0%nat →
            target !! Z.to_nat g = Some (default_or_zero zero default)).
Proof.
  intros Hok Hpe Harr. unfold split_by_roles.
  rewrite Hpe, (bool_decide_eq_true_2 _ Harr). simpl.
  destruct (split_loop zero ent array (default_or_zero zero default)
              (range (Z.max (roles_count ent) 11)) ∅) as (m & Hm & Hdom & Hval).
  { intros r _.
    destruct (gather_role_spec persons_count ent array
                (default_or_zero zero default) r Hok Harr) as (t & -> & _). eauto. }
  exists m. split; [exact Hm|]. rewrite dom_empty_L, (left_id_L ∅ (∪)) in Hdom.
  split; [|split].
  - intros r. rewrite Hdom, elem_of_list_to_set. unfold range.
    rewrite elem_of_seqZ. lia.
  - rewrite <- size_dom, Hdom, size_list_to_set by apply NoDup_seqZ.
    unfold range. rewrite length_seqZ. lia.
  - intros r target Hr. destruct (Hval r target Hr) as [H|H]; [by rewrite lookup_empty in H|].
    destruct (gather_role_spec persons_count ent array
                (default_or_zero zero default) r Hok Harr) as (t & Ht & Hlen & Hdef).
    rewrite Ht in H. simplify_eq. done.
Qed.

Lemma split_by_roles_default_roles_witness :
  let ent := Entity 2 3 false [0; 0; 1; 1; 1] [0; 1; 1; 0; 2] in
  ∃ m, split_by_roles 0 5 ent [1; 2; 3; 4; 5] (Some 7) None = Some m ∧
    (∀ r, r ∈ dom m ↔ 0 <= r < Z.max (roles_count ent) 11) ∧
    (11 ≤ size m)%nat ∧
    (∀ r target, m !! r = Some target →
       length target = count ent ∧
       ∀ g, 0 <= g < Z.of_nat (count ent) →
            count_members (index_for_person ent) (role_for_person ent) g r = 0%nat →
            target !! Z.to_nat g = Some 7).
Proof.
  apply (split_by_roles_default_roles 0 5
           (Entity 2 3 false [0; 0; 1; 1; 1] [0; 1; 1; 0; 2]) [1; 2; 3; 4; 5] (Some 7)).
  - unfold role_index_ok. simpl. split; [reflexivity|]. split; [reflexivity|].
    repeat constructor; lia.
  - reflexivity.
  - reflexivity.
Defined.

(** * Properties of the [compute] methods *)

Import Formulas.

(** ** The monad *)

Lemma bind_Ok {A B} (m : M A) (k : A → M B) r s b r' s' :
  bind m k r s = Ok b r' s' →
  ∃ a r1 s1, m r s = Ok a r1 s1 ∧ k a r1 s1 = Ok b r' s'.
Proof.
  unfold bind. destruct (m r s) as [a r1 s1| |]; [|done..]. eauto.
Qed.

Lemma assert_Ok c e r s u r' s' :
  assert_ c e r s = Ok u r' s' → c = true ∧ r' = r ∧ s' = s.
Proof. destruct c; simpl; unfold ret, raise; intros; by simplify_eq. Qed.

(** Inversion of a computation that returned: splits the binds, the
    assertions and the matches it went through. *)
Ltac invert_ok :=
  repeat match goal with
  | H : bind _ _ _ _ = Ok _ _ _ |- _ =>
      apply bind_Ok in H as (? & ? & ? & ? & H)
  | H : assert_ _ _ _ _ = Ok _ _ _ |- _ =>
      apply assert_Ok in H as (? & ? & ?); subst
  | H : ret _ _ _ = Ok _ _ _ |- _ => unfold ret in H; simplify_eq
  | H : raise _ _ _ = Ok _ _ _ |- _ => discriminate H
  | H : get_tracking _ _ = Ok _ _ _ |- _ => unfold get_tracking in H; simplify_eq
  | H : put_tracking _ _ _ = Ok _ _ _ |- _ => unfold put_tracking in H; simplify_eq
  | H : get_state _ _ = Ok _ _ _ |- _ => unfold get_state in H; simplify_eq
  | H : put_state _ _ _ = Ok _ _ _ |- _ => unfold put_state in H; simplify_eq
  | H : Ok _ _ _ = Ok _ _ _ |- _ => simplify_eq
  | H : Exn _ _ _ = Ok _ _ _ |- _ => discriminate H
  | H : OutOfFuel = Ok _ _ _ |- _ => discriminate H
  end.

Section EngineFacts.

Variable stop_instant : Period → instant.
Variable intersection : Period → option instant → option instant → option Period.
Variable astype : dtype → ndarray → ndarray.
Variable sim : simulation.

#[local] Abbreviation compute := (Formulas.compute stop_instant intersection astype sim).
#[local] Abbreviation Holder_compute := (Formulas.Holder_compute sim).
#[local] Abbreviation output_period_ok := (Formulas.output_period_ok stop_instant).
#[local] Abbreviation output_holder := (Formulas.output_holder intersection).

Lemma get_holder_Ok name h r s r' s' :
  get_holder sim name r s = Ok h r' s' →
  holder_by_name sim !! name = Some h ∧ r' = r ∧ s' = s.
Proof.
  unfold get_holder. destruct (holder_by_name sim !! name); intros; by invert_ok.
Qed.

Lemma get_holder_Some name h r s :
  holder_by_name sim !! name = Some h → get_holder sim name r s = Ok h r s.
Proof. unfold get_holder. by intros ->. Qed.

Lemma get_array_Ok dh a r s r' s' :
  get_array dh r s = Ok a r' s' →
  a = arrays s !! (dh_holder dh, dh_period dh) ∧ r' = r ∧ s' = s.
Proof. unfold get_array. intros. by invert_ok. Qed.

(** ** The prologue *)

(** When the formula is marked for the key, the prologue leaves at once. *)
Lemma check_requested_marked h self lazy period r s set :
  r !! (if is_period_invariant h then None else Some period) = Some set →
  self ∈ set →
  check_requested h self lazy (Some period) r s =
    if lazy
    then Ok (period, (if is_period_invariant h then None else Some period), true) r s
    else Exn (InfiniteLoop self.1 (set_map fst set)) r s.
Proof.
  intros Hr Hin. unfold check_requested, bind, get_tracking. rewrite Hr.
  destruct lazy.
  - unfold ret. by rewrite bool_decide_eq_true_2.
  - rewrite bool_decide_eq_false_2 by auto. done.
Qed.

Lemma check_requested_state h self lazy period r s x r' s' :
  check_requested h self lazy period r s = Ok x r' s' → s' = s.
Proof.
  intros H. destruct period as [p|]; [|done].
  unfold check_requested, bind, get_tracking, put_tracking, assert_, ret, raise in H.
  destruct (r !! _); [destruct lazy; [|destruct (bool_decide _)]|]; by simplify_eq.
Qed.

(** When it is not, the prologue lets the method go on. *)
Lemma check_requested_fresh h self lazy period r s :
  self ∉ requested r (period_key h period) →
  check_requested h self lazy (Some period) r s =
    Ok (period, period_key h period, false) (opened r (period_key h period)) s.
Proof.
  unfold requested, opened, period_key, check_requested, bind, get_tracking.
  intros Hin. destruct (r !! _) as [set|] eqn:Hr; simpl in Hin.
  - destruct lazy.
    + unfold ret. by rewrite bool_decide_eq_false_2.
    + by rewrite bool_decide_eq_true_2.
  - done.
Qed.

Lemma requested_opened r key k : requested (opened r key) k = requested r k.
Proof.
  unfold requested, opened. destruct (r !! key) eqn:Hr; [done|].
  destruct (decide (key = k)) as [->|Hne].
  - by rewrite lookup_insert_eq, Hr.
  - by rewrite lookup_insert_ne.
Qed.

(** ** [SimpleFormula.compute] and the arrays already there *)

Lemma SimpleFormula_compute_cached HC name id cls lazy period h r s a :
  holder_by_name sim !! name = Some h →
  (name, id) ∉ requested r (period_key h period) →
  output_period_ok cls period →
  arrays s !! (name, dh_period (output_holder h name cls period)) = Some a →
  SimpleFormula_compute stop_instant intersection astype sim HC name id cls lazy
    (Some period) r s
  = Ok (output_holder h name cls period) (opened r (period_key h period)) s.
Proof.
  intros Hh Hin (Hunit & Hlo & Hhi) Ha.
  unfold SimpleFormula_compute, SimpleFormula_prepare.
  unfold bind at 1. unfold bind at 1. rewrite (get_holder_Some _ _ _ _ Hh).
  unfold bind at 1. rewrite check_requested_fresh by done. cbv iota beta.
  apply String.eqb_eq in Hunit. rewrite Hunit.
  apply Z.leb_le in Hlo, Hhi. rewrite Hlo, Hhi. simpl.
  unfold bind, ret, get_array, get_state.
  unfold output_holder in Ha. simpl in Ha |- *. rewrite Ha. done.
Qed.

(** What a simple formula returns, when it returns from a call that did not
    find it marked, is the dated holder of its output period; and the
    checks on that period have passed. *)
Lemma SimpleFormula_compute_returns HC name id cls lazy period h r s dh r1 s1 :
  holder_by_name sim !! name = Some h →
  (name, id) ∉ requested r (period_key h period) →
  SimpleFormula_compute stop_instant intersection astype sim HC name id cls lazy
    (Some period) r s = Ok dh r1 s1 →
  output_period_ok cls period ∧ dh = output_holder h name cls period.
Proof.
  intros Hh Hin H. unfold SimpleFormula_compute in H.
  apply bind_Ok in H as (p & r2 & s2 & Hp & H).
  unfold SimpleFormula_prepare in Hp.
  apply bind_Ok in Hp as (h' & ? & ? & Hh' & Hp).
  apply get_holder_Ok in Hh' as (Hh' & -> & ->). simplify_eq.
  apply bind_Ok in Hp as ([[p0 key] back] & ? & ? & Hc & Hp).
  rewrite check_requested_fresh in Hc by done. simplify_eq.
  apply bind_Ok in Hp as ([] & ? & ? & (Hu & -> & ->)%assert_Ok & Hp).
  apply bind_Ok in Hp as ([] & ? & ? & (Hr & -> & ->)%assert_Ok & Hp).
  apply andb_true_iff in Hr as [Hlo%Z.leb_le Hhi%Z.leb_le].
  apply String.eqb_eq in Hu.
  split; [done|].
  apply bind_Ok in Hp as (array & ? & ? & (-> & -> & ->)%get_array_Ok & Hp).
  destruct (arrays _ !! _) as [a|].
  { invert_ok. done. }
  invert_ok.
  match goal with
  | H : match ?x with Some _ => _ | None => _ end _ _ = Ok _ _ _ |- _ =>
      destruct x as [arguments|]
  end.
  - invert_ok. unfold SimpleFormula_finish in H. invert_ok.
    match goal with
    | H : get_holder _ _ _ _ = Ok _ _ _ |- _ =>
        apply get_holder_Ok in H as (? & ? & ?)
    end.
    simplify_eq. done.
  - invert_ok. done.
Qed.

(** A call that reaches the function found no array for its output period
    when it was entered. *)
Lemma SimpleFormula_prepare_ready HC name id cls lazy period h r s key op args r1 s1 :
  holder_by_name sim !! name = Some h →
  SimpleFormula_prepare stop_instant intersection sim HC name id cls lazy period r s
    = Ok (Ready key op args) r1 s1 →
  arrays s !! (name, dh_period (at_period h name op)) = None.
Proof.
  intros Hh Hp. unfold SimpleFormula_prepare in Hp.
  apply bind_Ok in Hp as (h' & ? & ? & Hh' & Hp).
  apply get_holder_Ok in Hh' as (Hh' & -> & ->). simplify_eq.
  apply bind_Ok in Hp as ([[p0 key0] back] & r3 & s3 & Hc & Hp).
  apply check_requested_state in Hc as ->.
  destruct back; [by invert_ok|].
  apply bind_Ok in Hp as ([] & ? & ? & (Hu & -> & ->)%assert_Ok & Hp).
  apply bind_Ok in Hp as ([] & ? & ? & (Hr & -> & ->)%assert_Ok & Hp).
  apply bind_Ok in Hp as (array & ? & ? & (-> & -> & ->)%get_array_Ok & Hp).
  simpl in Hp. destruct (arrays s !! _) as [a|] eqn:Ha; [by invert_ok|].
  invert_ok.
  match goal with
  | H : match ?x with Some _ => _ | None => _ end _ _ = Ok _ _ _ |- _ =>
      destruct x as [arguments|]
  end; invert_ok. exact Ha.
Qed.

Lemma nan_indices_from_nonempty l i :
  existsb isnan l = true → nan_indices_from i l ≠ [].
Proof.
  revert i. induction l as [|x l IH]; intros i H; simpl in *; [done|].
  destruct (isnan x); [done|]. by apply IH.
Qed.

(** ** The marks of the formulas in progress *)

Lemma same_requested_refl r : same_requested r r.
Proof. by intros k. Qed.

Lemma same_requested_trans r1 r2 r3 :
  same_requested r1 r2 → same_requested r2 r3 → same_requested r1 r3.
Proof. intros H1 H2 k. by rewrite H2, H1. Qed.

Lemma marked_same key self r0 r1 r2 :
  marked key self r0 r1 → same_requested r1 r2 → marked key self r0 r2.
Proof. intros H1 H2 k. by rewrite H2, H1. Qed.

Lemma same_unmarked key self r0 r1 r2 :
  same_requested r0 r1 → unmarked key self r1 r2 → unmarked key self r0 r2.
Proof. intros H1 H2 k. rewrite H2, !H1. done. Qed.

Lemma marked_unmarked key self r0 r1 r2 :
  self ∉ requested r0 key →
  marked key self r0 r1 → unmarked key self r1 r2 → same_requested r0 r2.
Proof.
  intros Hin H1 H2 k. rewrite H2, !H1.
  destruct (decide (k = key)) as [->|]; [|done].
  destruct (decide (key = key)); [|done]. set_solver.
Qed.

Lemma add_requested_Ok key self r s u r' s' :
  add_requested key self r s = Ok u r' s' → marked key self r r' ∧ s' = s.
Proof.
  unfold add_requested. intros H. invert_ok. split; [|done].
  intros k. unfold requested at 1. destruct (decide (k = key)) as [->|Hne].
  - by rewrite lookup_insert_eq.
  - by rewrite lookup_insert_ne.
Qed.

Lemma remove_requested_Ok key self r s u r' s' :
  remove_requested key self r s = Ok u r' s' → unmarked key self r r' ∧ s' = s.
Proof.
  unfold remove_requested. intros H. invert_ok.
  destruct (bool_decide _); invert_ok. split; [|done].
  intros k. unfold requested at 1. destruct (decide (k = key)) as [->|Hne].
  - by rewrite lookup_insert_eq.
  - by rewrite lookup_insert_ne.
Qed.

Lemma keeps_tracking_requested {A} (m : M A) : keeps_tracking m → keeps_requested m.
Proof. intros H r s a r' s' Hm. apply H in Hm as ->. apply same_requested_refl. Qed.

Lemma keeps_tracking_ret {A} (a : A) : keeps_tracking (ret a).
Proof. intros r s a' r' s' H. by invert_ok. Qed.

Lemma keeps_tracking_raise {A} e : keeps_tracking (@raise A e).
Proof. intros r s a' r' s' H. by invert_ok. Qed.

Lemma keeps_tracking_bind {A B} (m : M A) (k : A → M B) :
  keeps_tracking m → (∀ a, keeps_tracking (k a)) → keeps_tracking (bind m k).
Proof.
  intros Hm Hk r s b r' s' H. apply bind_Ok in H as (a & r1 & s1 & H1 & H2).
  apply Hm in H1 as ->. by apply Hk in H2.
Qed.

Lemma keeps_requested_bind {A B} (m : M A) (k : A → M B) :
  keeps_requested m → (∀ a, keeps_requested (k a)) → keeps_requested (bind m k).
Proof.
  intros Hm Hk r s b r' s' H. apply bind_Ok in H as (a & r1 & s1 & H1 & H2).
  eapply same_requested_trans; [by eapply Hm|by eapply Hk].
Qed.

Lemma keeps_tracking_assert c e : keeps_tracking (assert_ c e).
Proof. intros r s a r' s' H. by apply assert_Ok in H as (_ & -> & _). Qed.

Lemma keeps_tracking_get_state : keeps_tracking get_state.
Proof. intros r s a r' s' H. by invert_ok. Qed.

Lemma keeps_tracking_put_state s0 : keeps_tracking (put_state s0).
Proof. intros r s a r' s' H. by invert_ok. Qed.

Lemma keeps_tracking_get_array dh : keeps_tracking (get_array dh).
Proof. intros r s a r' s' H. by apply get_array_Ok in H as (_ & -> & _). Qed.

Lemma keeps_tracking_set_array dh a : keeps_tracking (set_array dh a).
Proof. intros r s u r' s' H. unfold set_array in H. by invert_ok. Qed.

Lemma keeps_tracking_get_holder name : keeps_tracking (get_holder sim name).
Proof. intros r s a r' s' H. by apply get_holder_Ok in H as (_ & -> & _). Qed.

Lemma keeps_tracking_on_copy {A} (m : M A) : keeps_tracking (on_copy m).
Proof.
  intros r s a r' s' H. unfold on_copy in H.
  destruct (m r s); by simplify_eq.
Qed.

Lemma keeps_tracking_foldl {A B} (f : M A → B → M A) (l : list B) :
  (∀ acc x, keeps_tracking acc → keeps_tracking (f acc x)) →
  ∀ init, keeps_tracking init → keeps_tracking (foldl f init l).
Proof.
  intros Hf. induction l as [|x l IH]; intros init Hi; simpl; [done|].
  apply IH. by apply Hf.
Qed.

Create HintDb tracking.

#[local] Hint Resolve keeps_tracking_ret keeps_tracking_raise keeps_tracking_assert
  keeps_tracking_get_state keeps_tracking_put_state keeps_tracking_get_array
  keeps_tracking_set_array keeps_tracking_get_holder keeps_tracking_on_copy
  same_requested_refl : tracking.

(** What the prologue tells about the dict it leaves. *)
Lemma check_requested_Ok h self lazy period r s p key back r' s' :
  check_requested h self lazy period r s = Ok (p, key, back) r' s' →
  period = Some p ∧ key = period_key h p ∧ same_requested r r' ∧
  (back = false → self ∉ requested r' key).
Proof.
  intros H. destruct period as [p0|]; [|done].
  unfold check_requested, bind, get_tracking, put_tracking, assert_, ret, raise in H.
  destruct (r !! _) as [set|] eqn:Hr.
  - destruct lazy.
    + simplify_eq. repeat split; auto with tracking.
      intros Hb%bool_decide_eq_false. unfold requested, period_key. by rewrite Hr.
    + destruct (bool_decide _) eqn:Hb; simplify_eq.
      repeat split; auto with tracking.
      intros _. apply bool_decide_eq_true in Hb. unfold requested, period_key.
      by rewrite Hr.
  - simplify_eq. repeat split.
    + intros k. pose proof (requested_opened r (period_key h p) k) as Ho.
      unfold opened, period_key in Ho. by rewrite Hr in Ho.
    + intros _. unfold requested. rewrite lookup_insert_eq. set_solver.
Qed.

Section Keeps.

Variable HC : string → bool → option Period → M DatedHolder.
Hypothesis HC_keeps : ∀ name lazy period, keeps_requested (HC name lazy period).

(** The loop over the variables restores the marks when it goes through,
    and has unmarked the formula when it gives up. *)
Lemma compute_variables_requested cls self lazy output_period key names :
  ∀ arguments r s res r' s',
  compute_variables HC cls self lazy output_period key names arguments r s
    = Ok res r' s' →
  match res with
  | Some _ => same_requested r r'
  | None => unmarked key self r r'
  end.
Proof.
  induction names as [|variable_name names IH]; intros arguments r s res r' s' H;
    simpl in H.
  - invert_ok. apply same_requested_refl.
  - apply bind_Ok in H as (vdh & r1 & s1 & H1 & H).
    apply HC_keeps in H1.
    apply bind_Ok in H as (array & ? & ? & (-> & -> & ->)%get_array_Ok & H).
    destruct (arrays s1 !! _) as [a|].
    + apply IH in H. destruct res.
      * by eapply same_requested_trans.
      * by eapply same_unmarked.
    + apply bind_Ok in H as ([] & ? & ? & (_ & -> & ->)%assert_Ok & H).
      apply bind_Ok in H as ([] & ? & ? & [Hu ->]%remove_requested_Ok & H).
      invert_ok. by eapply same_unmarked.
Qed.

Lemma legislation_arguments_keeps cls self output_period :
  keeps_tracking (legislation_arguments cls self output_period).
Proof.
  assert (Hstart : keeps_tracking (output_period_start output_period)).
  { unfold output_period_start. destruct output_period; auto with tracking. }
  unfold legislation_arguments.
  repeat (apply keeps_tracking_bind; [|intros ?]); auto with tracking.
  - destruct (requires_legislation cls); auto with tracking.
    apply keeps_tracking_bind; [done|]. auto with tracking.
  - destruct (requires_reference_legislation cls); auto with tracking.
    apply keeps_tracking_bind; [done|]. auto with tracking.
  - destruct (legislation_accessor_by_name cls) as [accessors|]; auto with tracking.
    apply keeps_tracking_foldl; auto with tracking.
    intros acc [n path] Hacc. apply keeps_tracking_bind; [done|]. intros l.
    destruct (get_law_instant cls output_period path); auto with tracking.
Qed.

(** What [SimpleFormula.compute] has done to the dict before it calls the
    function. *)
Lemma SimpleFormula_prepare_requested name id cls lazy period r s p r' s' :
  SimpleFormula_prepare stop_instant intersection sim HC name id cls lazy period r s
    = Ok p r' s' →
  match p with
  | Returned _ => same_requested r r'
  | Ready key _ _ =>
      ∃ r0, same_requested r r0 ∧ ((name, id) ∉ requested r0 key) ∧
            marked key (name, id) r0 r'
  end.
Proof.
  intros H. unfold SimpleFormula_prepare in H.
  apply bind_Ok in H as (h & ? & ? & (Hh & -> & ->)%get_holder_Ok & H).
  apply bind_Ok in H as ([[p0 key] back] & r0 & s0 & Hc & H).
  apply check_requested_Ok in Hc as (-> & -> & Hsame & Hfresh).
  destruct back; [by invert_ok|]. specialize (Hfresh eq_refl).
  apply bind_Ok in H as ([] & ? & ? & (_ & -> & ->)%assert_Ok & H).
  apply bind_Ok in H as ([] & ? & ? & (_ & -> & ->)%assert_Ok & H).
  apply bind_Ok in H as (array & ? & ? & (-> & -> & ->)%get_array_Ok & H).
  destruct (arrays s0 !! _) as [a|]; [by invert_ok|].
  apply bind_Ok in H as ([] & r1 & s1 & [Hadd ->]%add_requested_Ok & H).
  apply bind_Ok in H as ([] & r2 & s2 & Hfold & H).
  assert (r2 = r1) as ->.
  { revert Hfold. apply keeps_tracking_foldl; auto with tracking.
    intros acc x Hacc. apply keeps_tracking_bind; [done|]. intros _.
    apply keeps_tracking_bind; auto with tracking. }
  apply bind_Ok in H as (arguments & r3 & s3 & Hvars & H).
  apply compute_variables_requested in Hvars.
  destruct arguments as [arguments|].
  - apply bind_Ok in H as (extra & r4 & s4 & Hl & H).
    apply legislation_arguments_keeps in Hl as ->.
    apply bind_Ok in H as ([] & ? & ? & (_ & -> & ->)%assert_Ok & H).
    invert_ok. exists r0. split; [done|]. split; [done|].
    by eapply marked_same.
  - invert_ok. eapply same_requested_trans; [exact Hsame|].
    eapply marked_unmarked; [exact Hfresh|exact Hadd|exact Hvars].
Qed.

Lemma store_result_keeps h name dh returned :
  keeps_tracking (store_result astype sim h name dh returned).
Proof.
  unfold store_result. destruct returned as [| | |array]; auto with tracking.
  repeat (apply keeps_tracking_bind; [|intros ?]); auto with tracking.
  destruct (debug sim); auto with tracking.
  unfold check_nan. destruct (cells array); auto with tracking.
  destruct (array_dtype array); auto with tracking;
    destruct (existsb isnan _); auto with tracking.
Qed.

Lemma SimpleFormula_finish_requested name id cls key output_period arguments
    r s dh r' s' :
  SimpleFormula_finish astype sim name id cls key output_period arguments r s
    = Ok dh r' s' →
  unmarked key (name, id) r r'.
Proof.
  intros H. unfold SimpleFormula_finish in H.
  apply bind_Ok in H as (h & ? & ? & (Hh & -> & ->)%get_holder_Ok & H).
  apply bind_Ok in H as (s0 & ? & ? & H0 & H). unfold get_state in H0. simplify_eq.
  apply bind_Ok in H as ([] & ? & ? & H0 & H). unfold put_state in H0. simplify_eq.
  apply bind_Ok in H as ([] & r1 & s1 & Hcall & H).
  apply store_result_keeps in Hcall as ->.
  apply bind_Ok in H as ([] & ? & ? & [Hu ->]%remove_requested_Ok & H).
  unfold ret in H. simplify_eq. done.
Qed.

Lemma SimpleFormula_compute_keeps name id cls lazy period :
  keeps_requested
    (SimpleFormula_compute stop_instant intersection astype sim HC name id cls lazy period).
Proof.
  intros r s dh r' s' H. unfold SimpleFormula_compute in H.
  apply bind_Ok in H as (p & r1 & s1 & Hp & H).
  apply SimpleFormula_prepare_requested in Hp.
  destruct p as [dh0|key output_period arguments].
  - by invert_ok.
  - destruct Hp as (r0 & Hsame & Hfresh & Hmarked).
    apply SimpleFormula_finish_requested in H.
    eapply same_requested_trans; [exact Hsame|].
    by eapply marked_unmarked.
Qed.

(** The formulas bound to the holder at hand. *)
Variable rec : formula → bool → option Period → M DatedHolder.
Hypothesis rec_keeps : ∀ f lazy period, keeps_requested (rec f lazy period).

Lemma try_alternatives_keeps period alternative_formulas :
  ∀ last, keeps_tracking (try_alternatives rec period alternative_formulas last).
Proof.
  induction alternative_formulas as [|f l IH]; intros last; simpl;
    auto with tracking.
  apply keeps_tracking_bind; auto with tracking. intros dh.
  apply keeps_tracking_bind; auto with tracking. intros [a|]; auto with tracking.
Qed.

Lemma AlternativeFormula_compute_keeps name id alternative_formulas lazy period :
  keeps_requested
    (AlternativeFormula_compute sim rec name id alternative_formulas lazy period).
Proof.
  intros r s dh r' s' H. unfold AlternativeFormula_compute in H.
  apply bind_Ok in H as (h & ? & ? & (Hh & -> & ->)%get_holder_Ok & H).
  apply bind_Ok in H as ([[p0 key] back] & r0 & s0 & Hc & H).
  apply check_requested_Ok in Hc as (-> & -> & Hsame & Hfresh).
  destruct back; [by invert_ok|]. specialize (Hfresh eq_refl).
  apply bind_Ok in H as ([] & r1 & s1 & [Hadd ->]%add_requested_Ok & H).
  apply bind_Ok in H as (tried & r2 & s2 & Htry & H).
  apply try_alternatives_keeps in Htry as ->.
  eapply same_requested_trans; [exact Hsame|].
  destruct tried as [dh0|last].
  - apply bind_Ok in H as ([] & ? & ? & [Hu ->]%remove_requested_Ok & H).
    invert_ok. by eapply marked_unmarked.
  - destruct lazy.
    + apply bind_Ok in H as ([] & ? & ? & [Hu ->]%remove_requested_Ok & H).
      destruct last; invert_ok. by eapply marked_unmarked.
    + destruct alternative_formulas as [|f l]; [by invert_ok|].
      apply bind_Ok in H as (dh0 & r3 & s3 & Hrec & H).
      apply rec_keeps in Hrec.
      apply bind_Ok in H as ([] & ? & ? & [Hu ->]%remove_requested_Ok & H).
      invert_ok. eapply marked_unmarked; [done| |exact Hu].
      by eapply marked_same.
Qed.

Lemma try_dated_keeps lazy period stop dated_formulas :
  ∀ dated_holder,
  keeps_requested (try_dated intersection rec lazy period stop dated_formulas dated_holder).
Proof.
  induction dated_formulas as [|[[f start_instant] stop_instant'] l IH];
    intros dated_holder; simpl.
  - apply keeps_tracking_requested; auto with tracking.
  - destruct (start_instant >? stop).
    { apply keeps_tracking_requested; auto with tracking. }
    destruct (intersection period _ _) as [output_period|]; [|done].
    apply keeps_requested_bind; [done|]. intros dh.
    apply keeps_tracking_requested.
    apply keeps_tracking_bind; auto with tracking. intros [a|]; auto with tracking.
Qed.

Lemma DatedFormula_compute_keeps name id dated_formulas lazy period :
  keeps_requested
    (DatedFormula_compute stop_instant intersection sim rec name id dated_formulas
       lazy period).
Proof.
  intros r s dh r' s' H. unfold DatedFormula_compute in H.
  apply bind_Ok in H as (h & ? & ? & (Hh & -> & ->)%get_holder_Ok & H).
  apply bind_Ok in H as ([[p0 key] back] & r0 & s0 & Hc & H).
  apply check_requested_Ok in Hc as (-> & -> & Hsame & Hfresh).
  destruct back; [by invert_ok|]. specialize (Hfresh eq_refl).
  apply bind_Ok in H as ([] & r1 & s1 & [Hadd ->]%add_requested_Ok & H).
  apply bind_Ok in H as (tried & r2 & s2 & Htry & H).
  apply try_dated_keeps in Htry.
  eapply same_requested_trans; [exact Hsame|].
  destruct tried as [dh0|dated_holder].
  - apply bind_Ok in H as ([] & ? & ? & [Hu ->]%remove_requested_Ok & H).
    invert_ok. eapply marked_unmarked; [done| |exact Hu]. by eapply marked_same.
  - apply bind_Ok in H as ([] & r3 & s3 & Hset & H).
    apply keeps_tracking_set_array in Hset as ->.
    apply bind_Ok in H as ([] & ? & ? & [Hu ->]%remove_requested_Ok & H).
    invert_ok. eapply marked_unmarked; [done| |exact Hu]. by eapply marked_same.
Qed.

Lemma select_formula_keeps period formula_by_main_variable :
  keeps_requested (select_formula HC period formula_by_main_variable).
Proof.
  induction formula_by_main_variable as [|[main_variable f] l IH]; simpl.
  - apply keeps_tracking_requested; auto with tracking.
  - apply keeps_requested_bind; [done|]. intros dh.
    apply keeps_requested_bind.
    { apply keeps_tracking_requested; auto with tracking. }
    intros [a|]; [|done]. apply keeps_tracking_requested; auto with tracking.
Qed.

Lemma SelectFormula_compute_keeps name id formula_by_main_variable lazy period :
  keeps_requested
    (SelectFormula_compute sim HC rec name id formula_by_main_variable lazy period).
Proof.
  intros r s dh r' s' H. unfold SelectFormula_compute in H.
  apply bind_Ok in H as (h & ? & ? & (Hh & -> & ->)%get_holder_Ok & H).
  apply bind_Ok in H as ([[p0 key] back] & r0 & s0 & Hc & H).
  apply check_requested_Ok in Hc as (-> & -> & Hsame & Hfresh).
  destruct back; [by invert_ok|]. specialize (Hfresh eq_refl).
  apply bind_Ok in H as ([] & r1 & s1 & [Hadd ->]%add_requested_Ok & H).
  apply bind_Ok in H as (selected & r2 & s2 & Hsel & H).
  apply select_formula_keeps in Hsel.
  apply bind_Ok in H as (selected_formula & r3 & s3 & Hf & H).
  assert (r3 = r2) as ->.
  { destruct selected; [by invert_ok|].
    destruct formula_by_main_variable as [|[? ?] ?]; by invert_ok. }
  apply bind_Ok in H as (dh0 & r4 & s4 & Hrec & H).
  apply rec_keeps in Hrec.
  apply bind_Ok in H as ([] & ? & ? & [Hu ->]%remove_requested_Ok & H).
  invert_ok. eapply same_requested_trans; [exact Hsame|].
  eapply marked_unmarked; [done| |exact Hu].
  eapply marked_same; [|exact Hrec]. by eapply marked_same.
Qed.

End Keeps.

Lemma Holder_compute_keeps
    (rec : string → formula → bool → option Period → M DatedHolder) :
  (∀ name f lazy period, keeps_requested (rec name f lazy period)) →
  ∀ name lazy period, keeps_requested (Holder_compute rec name lazy period).
Proof.
  intros Hrec name lazy period. unfold Formulas.Holder_compute.
  apply keeps_requested_bind.
  { apply keeps_tracking_requested; auto with tracking. }
  intros h. apply keeps_requested_bind.
  { apply keeps_tracking_requested; auto with tracking. }
  intros [a|]; [|done]. apply keeps_tracking_requested; auto with tracking.
Qed.

Lemma compute_keeps fuel :
  ∀ name f lazy period, keeps_requested (compute fuel name f lazy period).
Proof.
  induction fuel as [|fuel IH]; intros name f lazy period.
  - intros r s dh r' s' H. done.
  - destruct f as [id cls|id alternative_formulas|id dated_formulas|id selects];
      cbn [Formulas.compute].
    + apply SimpleFormula_compute_keeps. by apply Holder_compute_keeps.
    + apply AlternativeFormula_compute_keeps. intros. apply IH.
    + apply DatedFormula_compute_keeps. intros. apply IH.
    + apply SelectFormula_compute_keeps.
      * by apply Holder_compute_keeps.
      * intros. apply IH.
Qed.


(** C2 (cycle detection).  When [compute] is entered for a formula that
    its own key of [requested_formulas_by_period] already holds -- the key
    being the requested period, or [None] for a period-invariant column --
    then, whatever the class of the formula: in lazy mode it returns
    [holder.at_period(period)], the dict, the arrays and the call log being
    left as they were, so that nothing was computed; otherwise it fails with
    the "Infinite loop" error, which carries the name of the column being
    computed and the names of the columns of all formulas marked for that
    key. *)
Theorem cycle_detection (fuel : nat) (name : string) (f : formula) (lazy : bool)
    (period : Period) (h : holder) (r : tracking) (s : state)
    (period_requested_formulas : gset formula_ref) :
  holder_by_name sim !! name = Some h →
  r !! (if is_period_invariant h then None else Some period)
    = Some period_requested_formulas →
  (name, formula_id f) ∈ period_requested_formulas →
  compute (S fuel) name f lazy (Some period) r s =
    if lazy
    then Ok (at_period h name (Some period)) r s
    else Exn (InfiniteLoop name (set_map fst period_requested_formulas)) r s.
Proof.
  intros Hh Hr Hin.
  pose proof (check_requested_marked h (name, formula_id f) lazy period r s _ Hr Hin) as Hc.
  destruct f as [id cls|id alts|id dated|id selects]; cbn [formula_id fst] in Hc;
    cbn [Formulas.compute];
    unfold SimpleFormula_compute, SimpleFormula_prepare, AlternativeFormula_compute,
      DatedFormula_compute, SelectFormula_compute;
    unfold bind at 1; try unfold bind at 1;
    rewrite (get_holder_Some _ _ _ _ Hh);
    unfold bind at 1; rewrite Hc; by destruct lazy.
Qed.

(** ** Computations that store nothing *)

Lemma keeps_state_ret {A} (a : A) : keeps_state (ret a).
Proof. intros r s b r' s' H. by invert_ok. Qed.

Lemma keeps_state_raise {A} e : keeps_state (@raise A e).
Proof. intros r s b r' s' H. by invert_ok. Qed.

Lemma keeps_state_bind {A B} (m : M A) (k : A → M B) :
  keeps_state m → (∀ a, keeps_state (k a)) → keeps_state (bind m k).
Proof.
  intros Hm Hk r s b r' s' H. apply bind_Ok in H as (a & r1 & s1 & H1 & H2).
  apply Hm in H1 as ->. by apply Hk in H2.
Qed.

Lemma keeps_state_foldl {A B} (f : M A → B → M A) (l : list B) :
  (∀ acc x, keeps_state acc → keeps_state (f acc x)) →
  ∀ init, keeps_state init → keeps_state (foldl f init l).
Proof.
  intros Hf. induction l as [|x l IH]; intros init Hi; simpl; [done|].
  apply IH. by apply Hf.
Qed.

Lemma legislation_arguments_state cls self output_period :
  keeps_state (legislation_arguments cls self output_period).
Proof.
  assert (Hstart : keeps_state (output_period_start output_period)).
  { unfold output_period_start.
    destruct output_period; [apply keeps_state_ret|apply keeps_state_raise]. }
  unfold legislation_arguments.
  repeat (apply keeps_state_bind; [|intros ?]); try apply keeps_state_ret.
  - destruct (requires_legislation cls); [|apply keeps_state_ret].
    apply keeps_state_bind; [done|]. intros ?. apply keeps_state_ret.
  - destruct (requires_reference_legislation cls); [|apply keeps_state_ret].
    apply keeps_state_bind; [done|]. intros ?. apply keeps_state_ret.
  - destruct (legislation_accessor_by_name cls) as [accessors|];
      [|apply keeps_state_ret].
    apply keeps_state_foldl; [|apply keeps_state_ret].
    intros acc [n path] Hacc. apply keeps_state_bind; [done|]. intros l.
    destruct (get_law_instant cls output_period path);
      [apply keeps_state_ret|apply keeps_state_raise].
Qed.

(** Without variables, [SimpleFormula.compute] reaches the call of the
    function with the arrays and the call log it was entered with. *)
Lemma SimpleFormula_prepare_no_variables HC name id cls lazy period r s p r1 s1 :
  variables_name cls = [] →
  SimpleFormula_prepare stop_instant intersection sim HC name id cls lazy period r s
    = Ok p r1 s1 →
  s1 = s.
Proof.
  intros Hv Hp. unfold SimpleFormula_prepare in Hp. rewrite Hv in Hp.
  apply bind_Ok in Hp as (h & ? & ? & (_ & -> & ->)%get_holder_Ok & Hp).
  apply bind_Ok in Hp as ([[p0 key0] back] & r3 & s3 & Hc & Hp).
  apply check_requested_state in Hc as ->.
  destruct back; [by invert_ok|].
  apply bind_Ok in Hp as ([] & ? & ? & (Hu & -> & ->)%assert_Ok & Hp).
  apply bind_Ok in Hp as ([] & ? & ? & (Hr & -> & ->)%assert_Ok & Hp).
  apply bind_Ok in Hp as (array & ? & ? & (-> & -> & ->)%get_array_Ok & Hp).
  simpl in Hp. destruct (arrays s !! _) as [a|]; [by invert_ok|].
  apply bind_Ok in Hp as ([] & ? & ? & [_ ->]%add_requested_Ok & Hp).
  apply bind_Ok in Hp as ([] & ? & ? & Hret & Hp).
  unfold ret in Hret. simplify_eq.
  apply bind_Ok in Hp as (arguments & ? & ? & Hret & Hp).
  unfold ret in Hret. simplify_eq.
  apply bind_Ok in Hp as (extra & ? & ? & Hl%legislation_arguments_state & Hp).
  subst. by invert_ok.
Qed.

Lemma invalid_result_raises (fuel : nat) (name : string) (id : nat)
    (cls : simple_formula_class) (lazy : bool) (period : option Period)
    (h : holder) (r r1 : tracking) (s s1 : state)
    (period_or_none output_period : option Period)
    (arguments : list (string * argument)) (array : ndarray) :
  holder_by_name sim !! name = Some h →
  SimpleFormula_prepare stop_instant intersection sim (Holder_compute (compute fuel))
    name id cls lazy period r s
    = Ok (Ready period_or_none output_period arguments) r1 s1 →
  function cls arguments = ReturnsArray array →
  size array ≠ entity_count h
  ∨ (debug sim = false ∧ array_dtype array ≠ Object
     ∧ existsb isnan (cells array) = true) →
  ∃ e s',
    compute (S fuel) name (SimpleFormula id cls) lazy period r s = Exn e r1 s' ∧
    arrays s !! (name, dh_period (at_period h name output_period)) = None ∧
    arrays s' = arrays s1 ∧
    (size array ≠ entity_count h → e = WrongSize (size array) (entity_count h)) ∧
    (size array = entity_count h →
       e = NaNCreationError name (nan_indices array) ∧ nan_indices array ≠ []).
Proof.
  intros Hh Hp Hf Hbad.
  pose proof (SimpleFormula_prepare_ready _ _ _ _ _ _ _ _ _ _ _ _ _ _ Hh Hp) as Hnone.
  cbn [Formulas.compute]. unfold SimpleFormula_compute.
  unfold bind at 1. rewrite Hp. unfold SimpleFormula_finish.
  unfold bind at 1. rewrite (get_holder_Some _ _ _ _ Hh).
  unfold bind at 1. unfold get_state at 1.
  unfold bind at 1. unfold put_state at 1.
  rewrite Hf. unfold store_result. unfold bind at 1. unfold bind at 1.
  destruct (decide (size array = entity_count h)) as [Hsz|Hsz].
  - destruct Hbad as [?|(Hdebug & Hdt & Hnan)]; [done|].
    rewrite (bool_decide_eq_true_2 _ Hsz). unfold assert_ at 1, ret at 1.
    unfold bind at 1. rewrite Hdebug. unfold check_nan.
    destruct (cells array) as [|c cs] eqn:Hcells; [done|].
    rewrite Hnan. unfold raise.
    exists (NaNCreationError name (nan_indices array)),
      (State (arrays s1) (calls s1 ++ [((name, id), arguments)])).
    split; [by destruct (array_dtype array)|].
    split; [exact Hnone|]. split; [done|]. split; [done|].
    intros _. split; [done|]. apply nan_indices_from_nonempty.
    by rewrite Hcells.
  - rewrite (bool_decide_eq_false_2 _ Hsz). unfold assert_ at 1, raise at 1.
    eexists _, _. split; [reflexivity|]. split; [exact Hnone|]. split; [done|].
    split; [done|]. intros ?. done.
Qed.

(** C8 as amended (validation of the result).  Take a call of
    [SimpleFormula.compute] that reaches the call of the formula function,
    and let the function return an array.  If the array does not have
    [entity.count] cells the call fails with the size assertion; if it has,
    and the simulation is not in debug mode and the array, not of object
    type, holds a NaN, the call fails with [NaNCreationError] carrying the
    column name and the non-empty list of the indices of the NaN cells.  In
    both cases no array was cached for the output period when the call was
    entered, and the failing call leaves the arrays of all holders as they
    were when the function was called.  Hence the cache for the output
    period is unset after the failure whenever the computation of the
    variables of the formula had not set it, and in particular whenever the
    formula has no variables. *)
Theorem invalid_result_not_stored (fuel : nat) (name : string) (id : nat)
    (cls : simple_formula_class) (lazy : bool) (period : option Period)
    (h : holder) (r r1 : tracking) (s s1 : state)
    (period_or_none output_period : option Period)
    (arguments : list (string * argument)) (array : ndarray) :
  holder_by_name sim !! name = Some h →
  SimpleFormula_prepare stop_instant intersection sim (Holder_compute (compute fuel))
    name id cls lazy period r s
    = Ok (Ready period_or_none output_period arguments) r1 s1 →
  function cls arguments = ReturnsArray array →
  size array ≠ entity_count h
  ∨ (debug sim = false ∧ array_dtype array ≠ Object
     ∧ existsb isnan (cells array) = true) →
  ∃ e s',
    compute (S fuel) name (SimpleFormula id cls) lazy period r s = Exn e r1 s' ∧
    arrays s !! (name, dh_period (at_period h name output_period)) = None ∧
    arrays s' = arrays s1 ∧
    (size array ≠ entity_count h → e = WrongSize (size array) (entity_count h)) ∧
    (size array = entity_count h →
       e = NaNCreationError name (nan_indices array) ∧ nan_indices array ≠ []) ∧
    (arrays s1 !! (name, dh_period (at_period h name output_period)) = None →
     arrays s' !! (name, dh_period (at_period h name output_period)) = None) ∧
    (variables_name cls = [] →
     arrays s' !! (name, dh_period (at_period h name output_period)) = None).
Proof.
  intros Hh Hp Hf Hbad.
  destruct (invalid_result_raises fuel name id cls lazy period h r r1 s s1
              period_or_none output_period arguments array Hh Hp Hf Hbad)
    as (e & s' & Hc & Hnone & Harr & Hsize & Hnan).
  exists e, s'. split; [exact Hc|]. split; [exact Hnone|]. split; [exact Harr|].
  split; [exact Hsize|]. split; [exact Hnan|]. split.
  - intros H1. by rewrite Harr.
  - intros Hv. rewrite Harr.
    by rewrite (SimpleFormula_prepare_no_variables _ _ _ _ _ _ _ _ _ _ _ Hv Hp).
Qed.


(** C7 as amended (the mark of a formula in progress).  Every [compute]
    that returns -- with a value or with a lazily missing one -- has removed
    the mark it added: under every period key the dict marks the same
    formulas after the call as before it; in particular, after a call made
    without a dict no formula is marked. *)
Theorem in_progress_scoped (fuel : nat) (name : string) (f : formula) (lazy : bool)
    (period : option Period) :
  (∀ (r : tracking) (s : state) (dh : DatedHolder) (r' : tracking) (s' : state),
     compute fuel name f lazy period r s = Ok dh r' s' →
     ∀ key, requested r' key = requested r key)
  ∧
  (∀ (s : state) (dh : DatedHolder) (r' : tracking) (s' : state),
     compute_top stop_instant intersection astype sim fuel name f lazy period s
       = Ok dh r' s' →
     ∀ key, requested r' key = ∅).
Proof.
  split.
  - intros r s dh r' s' H. by apply compute_keeps in H.
  - intros s dh r' s' H key. unfold compute_top in H.
    apply compute_keeps in H. rewrite H. unfold requested. by rewrite lookup_empty.
Qed.

End EngineFacts.

(** ** The results on the small simulation *)

Import Examples.

Lemma cycle_detection_witness :
  let r : tracking := {[Some the_day := {[("a"%string, 0%nat)]}]} in
  Formulas.compute day_stop_instant whole_period retag (simulation_of good_formula)
    1 "a" good_formula false (Some the_day) r empty_state
  = Exn (InfiniteLoop "a" (set_map fst ({[("a"%string, 0%nat)]} : gset formula_ref)))
      r empty_state.
Proof.
  apply (cycle_detection day_stop_instant whole_period retag
           (simulation_of good_formula) 0 "a" good_formula false the_day
           (holder_of good_formula)).
  - reflexivity.
  - reflexivity.
  - apply elem_of_singleton. reflexivity.
Defined.



(** C7, as it is stated, fails on the failure paths: no [compute] has a
    [try]/[finally] around its body, so an exception raised after
    [period_requested_formulas.add(self)] leaves the mark in the dict.  Here
    the function returns an array of the wrong size. *)
Lemma in_progress_left_by_failure :
  compute_top day_stop_instant whole_period retag (simulation_of short_formula)
    1 "a" short_formula false (Some the_day) empty_state
  = Exn (WrongSize 1 2) {[Some the_day := {[("a"%string, 0%nat)]}]}
      (State ∅ [(("a"%string, 0%nat), [])])
  ∧ requested ({[Some the_day := {[("a"%string, 0%nat)]}]} : tracking) (Some the_day)
    ≠ ∅.
Proof.
  split; [vm_compute; reflexivity|].
  unfold requested. rewrite lookup_singleton_eq. simpl.
  intros H. assert (Hin : ("a"%string, 0%nat) ∈ (∅ : gset formula_ref)).
  { rewrite <- H. by apply elem_of_singleton. }
  by apply not_elem_of_empty in Hin.
Qed.

Lemma in_progress_scoped_witness :
  compute_top day_stop_instant whole_period retag (simulation_of good_formula)
    1 "a" good_formula false (Some the_day) empty_state
  = Ok (mkDatedHolder "a" (Some the_day)) {[Some the_day := ∅]} computed_state
  ∧ ∀ key, requested ({[Some the_day := ∅]} : tracking) key = ∅.
Proof.
  assert (H1 : compute_top day_stop_instant whole_period retag
                 (simulation_of good_formula) 1 "a" good_formula false
                 (Some the_day) empty_state
               = Ok (mkDatedHolder "a" (Some the_day)) {[Some the_day := ∅]}
                   computed_state)
    by (vm_compute; reflexivity).
  split; [exact H1|].
  exact (proj2 (in_progress_scoped day_stop_instant whole_period retag
                  (simulation_of good_formula) 1 "a" good_formula false
                  (Some the_day))
           empty_state _ _ _ H1).
Defined.

Lemma invalid_result_not_stored_witness :
  ∃ e s',
    Formulas.compute day_stop_instant whole_period retag (simulation_of short_formula)
      1 "a" short_formula false (Some the_day) ∅ empty_state
    = Exn e {[Some the_day := {[("a"%string, 0%nat)]}]} s' ∧
    arrays empty_state !! ("a"%string, Some the_day) = None ∧
    arrays s' = arrays empty_state ∧
    e = WrongSize 1 2 ∧
    arrays s' !! ("a"%string, Some the_day) = None.
Proof.
  destruct (invalid_result_not_stored day_stop_instant whole_period retag
              (simulation_of short_formula) 0 "a" 0
              (daily (λ _, ReturnsArray (NDArray Float [Num 1]))) false
              (Some the_day) (holder_of short_formula)
              ∅ {[Some the_day := {[("a"%string, 0%nat)]}]}
              empty_state empty_state (Some the_day) (Some the_day) []
              (NDArray Float [Num 1]))
    as (e & s' & Hc & Hnone & Harr & Hsize & _ & _ & Hunset).
  - reflexivity.
  - vm_compute; reflexivity.
  - reflexivity.
  - left. cbv. lia.
  - exists e, s'. split; [exact Hc|]. split; [exact Hnone|]. split; [exact Harr|].
    split; [apply Hsize; cbv; lia|]. by apply Hunset.
Defined.

(** The cache for the output period can be set when a call fails on its
    result: called lazily, the formula asks for the variable of its own
    holder, the dated formula of the holder finds it in progress, gets no
    array from it and stores the default under the period; the function is
    then called, its array has the wrong size, and the call fails with the
    default in the cache. *)
Lemma invalid_result_beside_default_fill :
  let sim := simulation_of dated_self_formula in
  let filled_state :=
    State {[("a"%string, Some the_day) := filled 2 Float (Num 0)]} [] in
  holder_by_name sim !! "a" = Some (holder_of dated_self_formula) ∧
  SimpleFormula_prepare day_stop_instant whole_period sim
    (Formulas.Holder_compute sim
       (Formulas.compute day_stop_instant whole_period retag sim 2))
    "a" 1 self_short_class true (Some the_day) ∅ empty_state
  = Ok (Ready (Some the_day) (Some the_day)
          [("a"%string, ArgArray (filled 2 Float (Num 0)))])
       {[Some the_day := {[("a"%string, 1%nat)]}]} filled_state ∧
  function self_short_class [("a"%string, ArgArray (filled 2 Float (Num 0)))]
  = ReturnsArray (NDArray Float [Num 1]) ∧
  size (NDArray Float [Num 1]) ≠ entity_count (holder_of dated_self_formula) ∧
  arrays empty_state !! ("a"%string, Some the_day) = None ∧
  ∃ s',
    Formulas.compute day_stop_instant whole_period retag sim 3 "a"
      (SimpleFormula 1 self_short_class) true (Some the_day) ∅ empty_state
    = Exn (WrongSize 1 2) {[Some the_day := {[("a"%string, 1%nat)]}]} s' ∧
    arrays s' !! ("a"%string, Some the_day) = Some (filled 2 Float (Num 0)).
Proof.
  split; [reflexivity|]. split; [vm_compute; reflexivity|].
  split; [reflexivity|]. split; [cbv; lia|]. split; [reflexivity|].
  eexists. split; [vm_compute; reflexivity|]. reflexivity.
Qed.

(** * Further properties of reforms.py *)

Section PatchMore.
Context {V : Type}.
Implicit Types (it x y z : item V) (l items acc : list (item V)) (s e i : instant) (v : V).

Lemma elem_of_insert_by_start x y l :
  x ∈ insert_by_start y l ↔ x = y ∨ x ∈ l.
Proof.
  induction l as [|z l IH]; simpl.
  - rewrite list_elem_of_singleton, elem_of_nil. tauto.
  - destruct (start y <=? start z).
    + rewrite !elem_of_cons. tauto.
    + rewrite !elem_of_cons, IH. tauto.
Qed.

Lemma elem_of_sorted_by_start x l : x ∈ sorted_by_start l ↔ x ∈ l.
Proof.
  induction l as [|z l IH]; simpl; [done|].
  rewrite elem_of_insert_by_start, elem_of_cons, IH. tauto.
Qed.

Lemma process_item_keeps s e v st it x :
  x ∈ st.1 → x ∈ (process_item s e v st it).1.
Proof.
  intros Hx. unfold process_item, insert_once.
  repeat match goal with
  | |- context [if ?b then _ else _] => destruct b; simpl
  end; rewrite ?elem_of_app; tauto.
Qed.

Lemma fold_process_keeps s e v l : ∀ st x,
  x ∈ st.1 → x ∈ (fold_left (process_item s e v) l st).1.
Proof.
  induction l as [|it l IH]; intros st x Hx; simpl; [done|].
  apply IH. by apply process_item_keeps.
Qed.

(** X1.  Whatever the input list, the result of [updated_legislation_items]
    is sorted by start, every item of it is either clear of the interval
    from [s] to [e] or the new item, and at most one item of it touches that
    interval. *)
Theorem patch_sorted_single_overlap items s e v :
  ascending (updated_legislation_items items s e v) ∧
  Forall (λ x, disjointb s e x = true ∨ x = Item s e v)
    (updated_legislation_items items s e v) ∧
  (overlaps s e (updated_legislation_items items s e v) ≤ 1)%nat.
Proof.
  unfold updated_legislation_items.
  pose proof (emitted_ok_patch_loop s e v items) as (HF & H1 & _).
  split; [apply sorted_by_start_ascending|]. split.
  - by apply Forall_sorted_by_start.
  - by rewrite overlaps_sorted_by_start.
Qed.

(** X2.  Items of the input that lie entirely before or entirely after the
    new interval are kept as they are. *)
Theorem patch_keeps_disjoint_items items s e v it :
  it ∈ items → disjointb s e it = true →
  it ∈ updated_legislation_items items s e v.
Proof.
  intros Hin Hd. unfold updated_legislation_items, patch_loop.
  apply elem_of_sorted_by_start.
  apply list_elem_of_split in Hin as (l1 & l2 & ->).
  rewrite fold_left_app. simpl. apply fold_process_keeps.
  rewrite process_item_disjoint by done. simpl.
  apply elem_of_app. right. by apply list_elem_of_singleton.
Qed.

End PatchMore.

Lemma patch_keeps_disjoint_items_witness :
  Item 0 5 1 ∈ updated_legislation_items [Item 0 5 1; Item 8 30 2] 10 20 7.
Proof.
  apply (patch_keeps_disjoint_items [Item 0 5 1; Item 8 30 2] 10 20 7 (Item 0 5 1)).
  - left.
  - reflexivity.
Defined.

Section PatchCases.
Context {V : Type}.
Implicit Types (it x y z : item V) (l items acc pieces : list (item V)) (s e i : instant) (v : V).

Lemma ordered_around (la lb : list (item V)) it :
  ordered (la ++ it :: lb) →
  Forall (λ x, stop x < start it) la ∧ Forall (λ y, stop it < start y) lb.
Proof.
  intros (_ & [Hy _] & Hx)%ordered_app. split; [|done].
  eapply Forall_impl; [exact Hx|]. by intros x [? _]%Forall_cons_1.
Qed.

(** Replacing an item of an ordered timeline by pieces that start inside it
    keeps the list sorted by start. *)
Lemma ascending_replace (la lb : list (item V)) it pieces :
  well_formed (la ++ it :: lb) → ordered (la ++ it :: lb) →
  ascending pieces →
  Forall (λ p, start it <= start p <= stop it) pieces →
  ascending (la ++ pieces ++ lb).
Proof.
  intros Hwf Ho Hp Hin.
  pose proof (ordered_around _ _ _ Ho) as [Hb Ha].
  pose proof (ordered_ascending _ Hwf Ho) as Hasc.
  apply ascending_app in Hasc as (Hasc1 & Hasc2 & Hcross). simpl in Hasc2.
  destruct Hasc2 as [_ Hasc2].
  apply Forall_app in Hwf as [Hwf1 _].
  apply (ordered_app la (it :: lb)) in Ho as (_ & _ & Hx).
  rewrite Forall_forall in Hb, Ha, Hin, Hwf1, Hx.
  apply ascending_app. split; [done|]. split.
  - apply ascending_app. split; [done|]. split; [done|].
    rewrite Forall_forall. intros p Hpin. rewrite Forall_forall. intros y Hy.
    specialize (Hin p Hpin). specialize (Ha y Hy). simpl in *. lia.
  - rewrite Forall_forall. intros x Hxin. rewrite Forall_app. split.
    + rewrite Forall_forall. intros p Hpin.
      specialize (Hin p Hpin). specialize (Hb x Hxin). specialize (Hwf1 x Hxin).
      simpl in *. lia.
    + specialize (Hx x Hxin). apply Forall_cons_1 in Hx as [_ Hx].
      specialize (Hwf1 x Hxin). simpl in Hwf1.
      eapply Forall_impl; [exact Hx|]. intros y Hy. simpl in Hy. lia.
Qed.

(** The pass over an ordered timeline in which only the item [it] touches
    the new interval. *)
Lemma patch_single_overlap (la lb : list (item V)) it s e v pieces flag :
  well_formed (la ++ it :: lb) → ordered (la ++ it :: lb) →
  s <= e → start it <= s → s <= stop it →
  Forall (λ y, e < start y) lb →
  (∀ acc, process_item s e v (acc, false) it = (acc ++ pieces, flag)) →
  ascending pieces →
  Forall (λ p, start it <= start p <= stop it) pieces →
  updated_legislation_items (la ++ it :: lb) s e v = la ++ pieces ++ lb.
Proof.
  intros Hwf Ho Hse Hie Hsi Hafter Hproc Hasc Hin.
  pose proof (ordered_around _ _ _ Ho) as [Hb Ha].
  assert (Hd1 : Forall (λ x, disjointb s e x = true) la).
  { eapply Forall_impl; [exact Hb|]. intros x ?. simpl in *. unfold disjointb.
    apply orb_true_iff. left. apply Z.ltb_lt. lia. }
  assert (Hd2 : Forall (λ y, disjointb s e y = true) lb).
  { eapply Forall_impl; [exact Hafter|]. intros y ?. simpl in *. unfold disjointb.
    apply orb_true_iff. right. apply Z.gtb_gt. lia. }
  unfold updated_legislation_items, patch_loop.
  rewrite fold_left_app. rewrite (fold_process_disjoint s e v la) by exact Hd1. simpl.
  rewrite Hproc. rewrite (fold_process_disjoint s e v lb) by exact Hd2. simpl.
  rewrite <- app_assoc. apply sorted_by_start_id. by apply (ascending_replace la lb it).
Qed.

End PatchCases.

(** X3.  In a well-formed, ordered, non-overlapping timeline, an item with
    the very start and stop of the new interval is replaced by the new item;
    the other items are unchanged. *)
Theorem patch_exact_match {V : Type} (l1 l2 : list (item V)) (it : item V)
    (s e : instant) (v : V) :
  well_formed (l1 ++ it :: l2) → ordered (l1 ++ it :: l2) →
  start it = s → stop it = e →
  updated_legislation_items (l1 ++ it :: l2) s e v = l1 ++ Item s e v :: l2.
Proof.
  intros Hwf Ho Hs He.
  assert (Hse : s <= e).
  { apply Forall_app in Hwf as [_ [H _]%Forall_cons_1]. simpl in H. lia. }
  pose proof (ordered_around _ _ _ Ho) as [_ Ha].
  apply (patch_single_overlap l1 l2 it s e v [Item s e v] true); try done; try lia.
  - eapply Forall_impl; [exact Ha|]. intros y ?. simpl in *. lia.
  - intros acc. unfold process_item, insert_once. simpl.
    replace (stop it <? s) with false by (symmetry; apply Z.ltb_ge; lia).
    replace (start it >? e) with false
      by (rewrite Z.gtb_ltb; symmetry; apply Z.ltb_ge; lia).
    replace (stop it =? e) with true by (symmetry; apply Z.eqb_eq; lia).
    replace (start it =? s) with true by (symmetry; apply Z.eqb_eq; lia).
    done.
  - constructor; [simpl; lia|constructor].
Qed.

Lemma patch_exact_match_witness :
  updated_legislation_items [Item 0 9 5; Item 10 40 10; Item 50 60 15] 10 40 7
  = [Item 0 9 5; Item 10 40 7; Item 50 60 15].
Proof.
  apply (patch_exact_match [Item 0 9 5] [Item 50 60 15] (Item 10 40 10) 10 40 7).
  - unfold well_formed. repeat constructor; simpl; lia.
  - simpl. split; [repeat constructor; simpl; lia|].
    split; [repeat constructor; simpl; lia|]. split; [constructor|done].
  - reflexivity.
  - reflexivity.
Defined.

(** X4.  In a well-formed, ordered, non-overlapping timeline, when the only
    item that touches the new interval starts before it and stops inside it
    or with it, the item is cut down to the day before the new start and the
    new item follows it. *)
Theorem patch_left_overlap {V : Type} (l1 l2 : list (item V)) (it : item V)
    (s e : instant) (v : V) :
  well_formed (l1 ++ it :: l2) → ordered (l1 ++ it :: l2) →
  start it < s → s <= stop it → stop it <= e →
  Forall (λ y, e < start y) l2 →
  updated_legislation_items (l1 ++ it :: l2) s e v
  = l1 ++ [Item (start it) (offset_day s (-1)) (value it); Item s e v] ++ l2.
Proof.
  intros Hwf Ho Hs Hsi Hie Hafter.
  apply (patch_single_overlap l1 l2 it s e v
           [Item (start it) (offset_day s (-1)) (value it); Item s e v] true);
    try done; try lia.
  - intros acc. unfold process_item, insert_once, offset_day. simpl.
    replace (stop it <? s) with false by (symmetry; apply Z.ltb_ge; lia).
    replace (start it >? e) with false
      by (rewrite Z.gtb_ltb; symmetry; apply Z.ltb_ge; lia).
    replace (start it =? s) with false by (symmetry; apply Z.eqb_neq; lia).
    rewrite andb_false_r.
    replace (start it <? s) with true by (symmetry; apply Z.ltb_lt; lia).
    replace (stop it <=? e) with true by (symmetry; apply Z.leb_le; lia).
    replace (stop it >? e) with false
      by (rewrite Z.gtb_ltb; symmetry; apply Z.ltb_ge; lia).
    replace (start it >=? s) with false
      by (rewrite Z.geb_leb; symmetry; apply Z.leb_gt; lia).
    simpl. by rewrite <- app_assoc.
  - simpl. repeat split; auto. repeat constructor; simpl; lia.
  - unfold offset_day. repeat constructor; simpl; lia.
Qed.

Lemma patch_left_overlap_witness :
  updated_legislation_items [Item 0 9 5; Item 10 40 10; Item 50 60 15] 20 45 7
  = [Item 0 9 5; Item 10 19 10; Item 20 45 7; Item 50 60 15].
Proof.
  apply (patch_left_overlap [Item 0 9 5] [Item 50 60 15] (Item 10 40 10) 20 45 7).
  - unfold well_formed. repeat constructor; simpl; lia.
  - simpl. split; [repeat constructor; simpl; lia|].
    split; [repeat constructor; simpl; lia|]. split; [constructor|done].
  - simpl. lia.
  - simpl. lia.
  - simpl. lia.
  - repeat constructor; simpl; lia.
Defined.

Section Lookup.
Context {V : Type}.
Implicit Types (it x y z best : item V) (l items : list (item V)) (s e i d : instant) (v : V).

Lemma value_at_app (la lb : list (item V)) i :
  value_at (la ++ lb) i =
  match value_at la i with Some w => Some w | None => value_at lb i end.
Proof.
  induction la as [|x la IH]; simpl; [done|].
  destruct ((start x <=? i) && (i <=? stop x)); [done|]. apply IH.
Qed.

Lemma value_at_before l i : Forall (λ x, stop x < i) l → value_at l i = None.
Proof.
  induction l as [|x l IH]; simpl; [done|]. intros [Hx Hl]%Forall_cons_1.
  replace (i <=? stop x) with false by (symmetry; apply Z.leb_gt; lia).
  rewrite andb_false_r. by apply IH.
Qed.

Lemma value_at_after l i : Forall (λ x, i < start x) l → value_at l i = None.
Proof.
  induction l as [|x l IH]; simpl; [done|]. intros [Hx Hl]%Forall_cons_1.
  replace (start x <=? i) with false by (symmetry; apply Z.leb_gt; lia).
  simpl. by apply IH.
Qed.

Lemma first_covering_Some items d x :
  first_covering items d = Some x → x ∈ items ∧ start x <= d <= stop x.
Proof.
  induction items as [|y items IH]; simpl; [done|].
  destruct ((start y <=? d) && (d <=? stop y)) eqn:E.
  - intros ?; simplify_eq. apply andb_true_iff in E as [?%Z.leb_le ?%Z.leb_le].
    split; [left|lia].
  - intros [? ?]%IH. split; [by right|done].
Qed.

Lemma first_covering_None items d :
  first_covering items d = None →
  Forall (λ x, ¬ (start x <= d <= stop x)) items.
Proof.
  induction items as [|y items IH]; simpl; [constructor|].
  destruct ((start y <=? d) && (d <=? stop y)) eqn:E; [done|].
  intros H. constructor; [|by apply IH].
  apply andb_false_iff in E as [?%Z.leb_gt|?%Z.leb_gt]; lia.
Qed.

Lemma earliest_from_spec l : ∀ best,
  earliest_from best l ∈ best :: l ∧
  Forall (λ y, start (earliest_from best l) <= start y) (best :: l).
Proof.
  induction l as [|x l IH]; intros best; simpl.
  - split; [left|]. repeat constructor. lia.
  - destruct (IH (if start x <? start best then x else best)) as [Hin Hall].
    apply Forall_cons_1 in Hall as [Hb Hl]. split.
    + apply elem_of_cons in Hin as [->|Hin].
      * destruct (start x <? start best); [right; left|left].
      * right. by right.
    + destruct (start x <? start best) eqn:E;
        [apply Z.ltb_lt in E|apply Z.ltb_ge in E];
        repeat constructor; try done; lia.
Qed.

Lemma latest_from_spec l : ∀ best,
  latest_from best l ∈ best :: l ∧
  Forall (λ y, stop y <= stop (latest_from best l)) (best :: l).
Proof.
  induction l as [|x l IH]; intros best; simpl.
  - split; [left|]. repeat constructor. lia.
  - destruct (IH (if stop best <? stop x then x else best)) as [Hin Hall].
    apply Forall_cons_1 in Hall as [Hb Hl]. split.
    + apply elem_of_cons in Hin as [->|Hin].
      * destruct (stop best <? stop x); [right; left|left].
      * right. by right.
    + destruct (stop best <? stop x) eqn:E;
        [apply Z.ltb_lt in E|apply Z.ltb_ge in E];
        repeat constructor; try done; lia.
Qed.

End Lookup.

(** X5.  After a patch of the containment kind (C5), the timeline holds the
    new value at every instant of the new interval and, at every other
    instant, the value it held before. *)
Theorem patch_then_lookup {V : Type} (l1 l2 : list (item V)) (it : item V)
    (s e : instant) (v : V) (i : instant) :
  well_formed (l1 ++ it :: l2) → ordered (l1 ++ it :: l2) →
  start it < s → s <= e → e < stop it →
  value_at (updated_legislation_items (l1 ++ it :: l2) s e v) i
  = if (s <=? i) && (i <=? e) then Some v else value_at (l1 ++ it :: l2) i.
Proof.
  intros Hwf Ho Hs Hse He.
  rewrite containment_split_general by done.
  rewrite !value_at_app. destruct (value_at l1 i) as [w|] eqn:Hl1.
  - (* an item of l1 covers i: then i is before the new interval *)
    assert (i < s); [|by replace (s <=? i) with false
                           by (symmetry; apply Z.leb_gt; lia)].
    pose proof (ordered_around _ _ _ Ho) as [Hb _].
    destruct (decide (i < s)) as [|Hge]; [done|].
    rewrite value_at_before in Hl1; [done|].
    eapply Forall_impl; [exact Hb|]. intros x ?. simpl in *. lia.
  - unfold split_of, offset_day. simpl.
    repeat match goal with
    | |- context [?a <=? ?b] => destruct (Z.leb_spec a b)
    end; simpl; try done; lia.
Qed.

Lemma patch_then_lookup_witness :
  value_at (updated_legislation_items [Item 0 9 5; Item 10 40 10; Item 50 60 15] 20 30 7) 25
  = Some 7.
Proof.
  apply (patch_then_lookup [Item 0 9 5] [Item 50 60 15] (Item 10 40 10) 20 30 7 25).
  - unfold well_formed. repeat constructor; simpl; lia.
  - simpl. split; [repeat constructor; simpl; lia|].
    split; [repeat constructor; simpl; lia|]. split; [constructor|done].
  - simpl. lia.
  - lia.
  - simpl. lia.
Defined.

Lemma first_covering_first {V : Type} (items : list (item V)) (d : instant) x :
  first_covering items d = Some x →
  ∃ i, items !! i = Some x ∧
       ∀ j y, (j < i)%nat → items !! j = Some y → ¬ (start y <= d <= stop y).
Proof.
  induction items as [|y items IH]; simpl; [done|].
  destruct ((start y <=? d) && (d <=? stop y)) eqn:E.
  - intros ?; simplify_eq. exists 0%nat. split; [done|]. intros j z Hj. lia.
  - intros (i & Hi & Hbefore)%IH. exists (S i). split; [done|].
    intros [|j] z Hj Hz; simpl in Hz.
    + simplify_eq. apply andb_false_iff in E as [?%Z.leb_gt|?%Z.leb_gt]; lia.
    + apply (Hbefore j); [lia|done].
Qed.

(** X6.  Without [nearest_in_period], [find_item_at_date] returns the first
    item of the list that covers the date -- it covers the date and no item
    before it in the list does -- and returns [None] only when no item of
    the list covers it; it never fails. *)
Theorem find_item_at_date_scan {V : Type} (items : list (item V)) (d : instant) :
  match find_item_at_date items d None with
  | FoundItem x =>
      x ∈ items ∧ start x <= d <= stop x ∧
      ∃ i, items !! i = Some x ∧
           ∀ j y, (j < i)%nat → items !! j = Some y → ¬ (start y <= d <= stop y)
  | FoundNone => Forall (λ x, ¬ (start x <= d <= stop x)) items
  | EmptySequence => False
  end.
Proof.
  unfold find_item_at_date. destruct (first_covering items d) as [x|] eqn:E.
  - destruct (first_covering_Some _ _ _ E) as [Hin Hcov].
    split; [done|]. split; [done|]. by apply first_covering_first.
  - by apply first_covering_None.
Qed.

(** X7.  With [nearest_in_period], an item that [find_item_at_date] returns
    is in the list and either covers the date or, the date being inside the
    period, is the nearest one on the only side where items exist: it starts
    after the date and no item starts earlier, or it stops before the date
    and no item stops later. *)
Theorem find_item_at_date_nearest {V : Type} (items : list (item V)) (d : instant)
    (period_start period_stop : instant) (x : item V) :
  find_item_at_date items d (Some (period_start, period_stop)) = FoundItem x →
  x ∈ items ∧
  (start x <= d <= stop x ∨
   (period_start <= d <= period_stop ∧
    ((d < start x ∧ Forall (λ y, start x <= start y) items) ∨
     (stop x < d ∧ Forall (λ y, stop y <= stop x) items)))).
Proof.
  unfold find_item_at_date. destruct (first_covering items d) as [c|] eqn:E.
  - intros ?; simplify_eq. apply first_covering_Some in E as [? ?]. auto.
  - destruct ((period_start <=? d) && (d <=? period_stop)) eqn:Hp; [|done].
    apply andb_true_iff in Hp as [?%Z.leb_le ?%Z.leb_le].
    destruct items as [|b items]; [done|].
    destruct (earliest_from_spec items b) as [Hin1 Hall1].
    destruct (latest_from_spec items b) as [Hin2 Hall2].
    destruct (d <? start (earliest_from b items)) eqn:H1.
    + intros ?; simplify_eq. apply Z.ltb_lt in H1. split; [done|].
      right. split; [lia|]. left. done.
    + destruct (d >? stop (latest_from b items)) eqn:H2; [|done].
      intros ?; simplify_eq. apply Z.gtb_gt in H2. split; [done|].
      right. split; [lia|]. right. split; [lia|done].
Qed.

Lemma find_item_at_date_nearest_witness :
  Item 20 30 2 ∈ [Item 5 9 1; Item 20 30 2] ∧
  (start (Item 20 30 2) <= 40 <= stop (Item 20 30 2) ∨
   (0 <= 40 <= 100 ∧
    ((40 < start (Item 20 30 2)
      ∧ Forall (λ y, start (Item 20 30 2) <= start y) [Item 5 9 1; Item 20 30 2]) ∨
     (stop (Item 20 30 2) < 40
      ∧ Forall (λ y, stop y <= stop (Item 20 30 2)) [Item 5 9 1; Item 20 30 2])))).
Proof.
  apply (find_item_at_date_nearest [Item 5 9 1; Item 20 30 2] 40 0 100 (Item 20 30 2)).
  reflexivity.
Defined.

(** X8.  [find_item_at_date] fails, with the [ValueError] of [min] on an
    empty list, exactly when the list is empty and the date lies inside
    [nearest_in_period]. *)
Theorem find_item_at_date_empty {V : Type} (items : list (item V)) (d : instant)
    (nearest_in_period : option (instant * instant)) :
  find_item_at_date items d nearest_in_period = EmptySequence ↔
  items = [] ∧
  ∃ period_start period_stop,
    nearest_in_period = Some (period_start, period_stop) ∧
    period_start <= d <= period_stop.
Proof.
  unfold find_item_at_date. split.
  - destruct (first_covering items d) eqn:E; [done|].
    destruct nearest_in_period as [[ps pe]|]; [|done].
    destruct ((ps <=? d) && (d <=? pe)) eqn:Hp; [|done].
    apply andb_true_iff in Hp as [?%Z.leb_le ?%Z.leb_le].
    destruct items as [|b items].
    + intros _. split; [done|]. exists ps, pe. split; [done|lia].
    + destruct (d <? _); [done|]. destruct (d >? _); done.
  - intros (-> & ps & pe & -> & Hps & Hpe). simpl.
    apply Z.leb_le in Hps, Hpe. by rewrite Hps, Hpe.
Qed.

(** ** [update_legislation] *)

Lemma collect_inr {X : Type} (f : X → built) (l : list X) (ns : list node) :
  collect f l = inr ns → Forall2 (λ x n, f x = Built n) l ns.
Proof.
  revert ns. induction l as [|x l IH]; intros ns H; simpl in H.
  - simplify_eq. constructor.
  - destruct (f x) as [n|] eqn:Hx; [|done].
    destruct (collect f l) as [|ns'] eqn:Hl; [done|]. simplify_eq.
    constructor; [done|]. by apply IH.
Qed.

Lemma collect_inl {X : Type} (f : X → built) (l : list X) (b : built) :
  collect f l = inl b → ∃ e, b = Failed e.
Proof.
  induction l as [|x l IH]; simpl; [done|].
  destruct (f x) as [n|e]; [|intros; simplify_eq; eauto].
  destruct (collect f l) as [b'|ns]; [|done]. intros; simplify_eq. by apply IH.
Qed.

Lemma collect_lookup {X : Type} (f : X → built) (l : list X) (ns : list node) i x :
  collect f l = inr ns → l !! i = Some x →
  ∃ n, ns !! i = Some n ∧ f x = Built n.
Proof.
  intros H%collect_inr Hx.
  destruct (Forall2_lookup_l _ _ _ _ _ H Hx) as (n & Hn & Hf). eauto.
Qed.

Lemma collect_length {X : Type} (f : X → built) (l : list X) (ns : list node) :
  collect f l = inr ns → length ns = length l.
Proof. intros H%collect_inr. symmetry. by eapply Forall2_length. Qed.

Lemma build_mapping_inv (update_items : node → built) p rest entries n' :
  build_node update_items (p :: rest) (Mapping entries) = Built n' →
  ∃ ns, n' = Mapping (zip entries.*1 ns) ∧ length ns = length entries ∧
    ∀ i key n, entries !! i = Some (key, n) →
      ∃ m, ns !! i = Some m ∧
        (if is_key p key
         then match rest with
              | [] => update_items n
              | _ => build_node update_items rest n
              end
         else Built n) = Built m.
Proof.
  intros H. simpl in H. destruct entries as [|entry entries].
  { simplify_eq. exists []. split; [done|]. split; [done|]. intros i key n Hi. done. }
  match type of H with
  | context [collect ?f ?l] =>
      destruct (collect f l) as [b|ns] eqn:Hc;
        [by apply collect_inl in Hc as [? ->]|]
  end.
  simplify_eq. exists ns. split; [done|].
  split; [by apply collect_length in Hc|].
  intros i key n Hi.
  destruct (collect_lookup _ _ _ _ _ Hc Hi) as (m & Hm & Hf). eauto.
Qed.

Lemma build_sequence_inv (update_items : node → built) p rest elements n' :
  build_node update_items (p :: rest) (Sequence elements) = Built n' →
  ∃ ns, n' = Sequence ns ∧ length ns = length elements ∧
    ∀ i n, elements !! i = Some n →
      ∃ m, ns !! i = Some m ∧
        (if is_index p i then build_node update_items rest n else Built n) = Built m.
Proof.
  intros H. simpl in H. unfold build_sequence in H.
  destruct elements as [|element elements].
  { simplify_eq. exists []. split; [done|]. split; [done|]. intros i n Hi. done. }
  match type of H with
  | context [collect ?f ?l] =>
      destruct (collect f l) as [b|ns] eqn:Hc;
        [by apply collect_inl in Hc as [? ->]|]
  end.
  simplify_eq. exists ns. split; [done|]. split.
  { apply collect_length in Hc. rewrite Hc, length_zip, length_seq. lia. }
  intros i n Hi.
  assert (Hz : zip (seq 0 (length (element :: elements))) (element :: elements) !! i
               = Some (i, n)).
  { apply lookup_zip_with_Some. exists i, n. split; [done|]. split; [|done].
    apply lookup_seq. split; [done|]. by apply lookup_lt_Some in Hi. }
  destruct (collect_lookup _ _ _ _ _ Hc Hz) as (m & Hm & Hf). eauto.
Qed.

(** X9.  [build_node] keeps the shape of the node it rebuilds and touches
    only what the path selects: a mapping comes back with the same keys in
    the same order, and every entry whose key is not the path element is the
    entry it was; a list comes back with the same length, and every element
    whose index is not the path element is the element it was. *)
Theorem build_node_off_path (update_items : node → built) (p : path_key)
    (rest : list path_key) :
  (∀ entries n',
     build_node update_items (p :: rest) (Mapping entries) = Built n' →
     ∃ entries', n' = Mapping entries' ∧ entries'.*1 = entries.*1 ∧
       ∀ i key n, entries !! i = Some (key, n) → is_key p key = false →
                  entries' !! i = Some (key, n))
  ∧
  (∀ elements n',
     build_node update_items (p :: rest) (Sequence elements) = Built n' →
     ∃ elements', n' = Sequence elements' ∧ length elements' = length elements ∧
       ∀ i n, elements !! i = Some n → is_index p i = false →
              elements' !! i = Some n).
Proof.
  split.
  - intros entries n' H.
    apply build_mapping_inv in H as (ns & -> & Hlen & Hns).
    exists (zip entries.*1 ns). split; [done|]. split.
    + apply fst_zip. rewrite length_fmap. lia.
    + intros i key n Hi Hk. destruct (Hns i key n Hi) as (m & Hm & Hf).
      rewrite Hk in Hf. simplify_eq.
      apply lookup_zip_with_Some. exists key, m. split; [done|]. split; [|done].
      by rewrite list_lookup_fmap, Hi.
  - intros elements n' H.
    apply build_sequence_inv in H as (ns & -> & Hlen & Hns).
    exists ns. split; [done|]. split; [done|].
    intros i n Hi Hk. destruct (Hns i n Hi) as (m & Hm & Hf).
    rewrite Hk in Hf. by simplify_eq.
Qed.

Lemma build_node_off_path_witness :
  ∃ entries',
    Built (Mapping [("a"%string, Text "patched"); ("b"%string, Other 2)])
      = Built (Mapping entries') ∧
    entries'.*1 = ["a"%string; "b"%string] ∧
    entries' !! 1%nat = Some ("b"%string, Other 2).
Proof.
  destruct (proj1 (build_node_off_path (λ _, Built (Text "patched")) (Key "a") [])
              [("a"%string, Sequence []); ("b"%string, Other 2)]
              (Mapping [("a"%string, Text "patched"); ("b"%string, Other 2)])
              eq_refl)
    as (entries' & Heq & Hkeys & Hoff).
  exists entries'. split; [by rewrite Heq|]. split; [exact Hkeys|].
  apply (Hoff 1%nat "b"%string (Other 2)); reflexivity.
Defined.

Lemma node_at_mapping_built (entries : list (string * node)) (ns : list node)
    (k : string) i child m :
  length ns = length entries →
  list_find (λ e : string * node, e.1 = k) entries = Some (i, (k, child)) →
  ns !! i = Some m →
  list_find (λ e : string * node, e.1 = k) (zip entries.*1 ns) = Some (i, (k, m)).
Proof.
  intros Hlen (Hi & _ & Hfirst)%list_find_Some Hm.
  apply list_find_Some. split; [|split; [done|]].
  - apply lookup_zip_with_Some. exists k, m. split; [done|]. split; [|done].
    by rewrite list_lookup_fmap, Hi.
  - intros j [key' m'] Hj Hlt. simpl.
    apply lookup_zip_with_Some in Hj as (kj & mj & Heq & Hkj & _).
    rewrite list_lookup_fmap in Hkj.
    destruct (entries !! j) as [[key'' n'']|] eqn:Hej; [|done].
    specialize (Hfirst j _ Hej Hlt). simpl in Hkj, Hfirst. by simplify_eq.
Qed.

Lemma build_node_at_path (update_items : node → built) (k : string) :
  ∀ (path : list path_key) (root root' t : node),
  build_node update_items (path ++ [Key k]) root = Built root' →
  node_at (path ++ [Key k]) root = Some t →
  ∃ t', update_items t = Built t' ∧ node_at (path ++ [Key k]) root' = Some t'.
Proof.
  induction path as [|p path IH]; intros root root' t Hb Hn.
  - simpl in Hn. destruct root as [|?|entries|]; try done.
    destruct (list_find _ entries) as [[i [key child]]|] eqn:Hfind; [|done].
    assert (key = k) as -> by (by apply list_find_Some in Hfind as (_ & ? & _)).
    simplify_eq.
    apply build_mapping_inv in Hb as (ns & -> & Hlen & Hns).
    pose proof Hfind as (Hi & _)%list_find_Some.
    destruct (Hns i k t Hi) as (m & Hm & Hf).
    simpl in Hf. rewrite String.eqb_refl in Hf.
    exists m. split; [done|]. simpl.
    by rewrite (node_at_mapping_built entries ns k i t m).
  - change ((p :: path) ++ [Key k]) with (p :: (path ++ [Key k])) in *.
    simpl in Hn. destruct p as [j|k0].
    + destruct root as [elements| | |]; try done.
      destruct (0 <=? j) eqn:Hj; [|done].
      destruct (elements !! Z.to_nat j) as [child|] eqn:Hc; [|done]. simpl in Hn.
      apply build_sequence_inv in Hb as (ns & -> & Hlen & Hns).
      destruct (Hns _ _ Hc) as (m & Hm & Hf).
      assert (His : is_index (Index j) (Z.to_nat j) = true).
      { simpl. apply Z.eqb_eq. apply Z.leb_le in Hj. lia. }
      rewrite His in Hf.
      destruct (IH _ _ _ Hf Hn) as (t' & Hu & Hn').
      exists t'. split; [done|]. simpl. rewrite Hj, Hm. done.
    + destruct root as [|?|entries|]; try done.
      destruct (list_find _ entries) as [[i [key child]]|] eqn:Hfind; [|done].
      assert (key = k0) as -> by (by apply list_find_Some in Hfind as (_ & ? & _)).
      apply build_mapping_inv in Hb as (ns & -> & Hlen & Hns).
      pose proof Hfind as (Hi & _)%list_find_Some.
      destruct (Hns i k0 child Hi) as (m & Hm & Hf).
      simpl in Hf. rewrite String.eqb_refl in Hf.
      assert (Hf' : build_node update_items (path ++ [Key k]) child = Built m).
      { destruct path; exact Hf. }
      destruct (IH _ _ _ Hf' Hn) as (t' & Hu & Hn').
      exists t'. split; [done|]. simpl.
      by rewrite (node_at_mapping_built entries ns k0 i child m).
Qed.

(** X10.  When [update_legislation] returns a tree, what the path led to --
    through keys of mappings and indices of lists, the last step being a
    key -- has been replaced by the result of [updated_legislation_items] on
    it, called with the value given and with the start and stop of [period]
    when a period is given, the arguments [start] and [stop] otherwise; the
    same path leads to it in the new tree. *)
Theorem update_legislation_at_path {V : Type}
    (update_items : option instant → option instant → V → node → built)
    (legislation_json : node) (path : list path_key) (k : string)
    (period : option (instant * instant)) (value : option V)
    (start stop : option instant) (updated_legislation t : node) :
  update_legislation update_items legislation_json (path ++ [Key k]) period value
    start stop = Built updated_legislation →
  node_at (path ++ [Key k]) legislation_json = Some t →
  ∃ v t',
    value = Some v ∧
    update_items
      (match period with Some (period_start, _) => Some period_start | None => start end)
      (match period with Some (_, period_stop) => Some period_stop | None => stop end)
      v t = Built t' ∧
    node_at (path ++ [Key k]) updated_legislation = Some t'.
Proof.
  unfold update_legislation. intros Hb Hn.
  destruct value as [v|]; [|done]. exists v.
  destruct period as [[period_start period_stop]|];
    destruct (build_node_at_path _ _ _ _ _ _ Hb Hn) as (t' & Hu & Hn'); eauto.
Qed.

Lemma update_legislation_at_path_witness :
  let json := Mapping [("a"%string, Sequence [Other 1; Mapping [("t"%string, Text "old")]])] in
  let up := λ (start stop : option instant) (v : Z) (_ : node),
              Built (Sequence [Other (default 0 start); Other (default 0 stop); Other v]) in
  ∃ v t',
    Some 7 = Some v ∧
    up (Some 10) (Some 20) v (Text "old") = Built t' ∧
    node_at ([Key "a"; Index 1] ++ [Key "t"])
      (Mapping [("a"%string,
                 Sequence [Other 1;
                           Mapping [("t"%string, Sequence [Other 10; Other 20; Other 7])]])])
    = Some t'.
Proof.
  exact (update_legislation_at_path
           (λ (start stop : option instant) (v : Z) (_ : node),
              Built (Sequence [Other (default 0 start); Other (default 0 stop); Other v]))
           (Mapping [("a"%string, Sequence [Other 1; Mapping [("t"%string, Text "old")]])])
           [Key "a"; Index 1] "t" (Some (10, 20)) (Some 7) (Some 1) None
           (Mapping [("a"%string,
                      Sequence [Other 1;
                                Mapping [("t"%string,
                                          Sequence [Other 10; Other 20; Other 7])]])])
           (Text "old") eq_refl eq_refl).
Defined.

(** * Further properties of scatter and gather *)

Section RolesMore.
Context {A : Type}.
Implicit Types (array target values G : list A) (mask : list bool) (d : A)
  (indices roles selected : list Z).

Lemma mask_assign_cells mask : ∀ indices target selected values c G,
  mask_select mask indices = Some selected →
  Forall2 (λ i v, cell_at G i = Some v) selected values →
  mask_assign target mask values = Some c →
  length c = length mask ∧
  ∀ p, c !! p =
       match mask !! p with
       | Some true => indices !! p ≫= cell_at G
       | Some false => target !! p
       | None => None
       end.
Proof.
  induction mask as [|b mask IH];
    intros [|i indices] [|t target] selected values c G Hs HF Hc;
    simpl in *; simplify_eq; try done.
  - destruct values; simplify_eq. split; [done|]. by intros [|p].
  - destruct (mask_select mask indices) as [sel'|] eqn:E; [|done].
    simpl in Hs. simplify_eq. destruct b.
    + apply Forall2_cons_inv_l in HF as (v & values' & Hv & HF & ->).
      destruct (mask_assign target mask values') as [c'|] eqn:Ec; [|done].
      simpl in Hc. simplify_eq.
      destruct (IH _ _ _ _ _ _ E HF Ec) as [Hlen Hp].
      split; [simpl; lia|]. intros [|p]; simpl; [done|apply Hp].
    + destruct (mask_assign target mask values) as [c'|] eqn:Ec; [|done].
      simpl in Hc. simplify_eq.
      destruct (IH _ _ _ _ _ _ E HF Ec) as [Hlen Hp].
      split; [simpl; lia|]. intros [|p]; simpl; [done|apply Hp].
Qed.

Lemma last_member_from_S indices : ∀ roles from g role,
  last_member_from (S from) indices roles g role
  = S <$> last_member_from from indices roles g role.
Proof.
  induction indices as [|i indices IH]; intros [|r roles] from g role; simpl; try done.
  rewrite (IH roles (S from)), (IH roles from).
  destruct (last_member_from from indices roles g role); simpl; [done|].
  by destruct ((i =? g) && (r =? role)).
Qed.

(** A gathering round leaves in each row the value of the last person that
    holds the role there, and what the row held when there is none. *)
Lemma index_assign_last role : ∀ indices roles array target selected values target',
  mask_select (map (λ r, r =? role) roles) indices = Some selected →
  mask_select (map (λ r, r =? role) roles) array = Some values →
  index_assign target selected values = Some target' →
  Forall (λ i, 0 <= i < Z.of_nat (length target)) indices →
  ∀ g, 0 <= g < Z.of_nat (length target) →
    target' !! Z.to_nat g =
    match last_member_from 0 indices roles g role with
    | Some p => array !! p
    | None => target !! Z.to_nat g
    end.
Proof.
  induction indices as [|i indices IH];
    intros [|r roles] [|a array] target selected values target' Hs Hv Ha Hr g Hg;
    simpl in *; simplify_eq; try done.
  { cbn in Ha. by simplify_eq. }
  destruct (mask_select _ indices) as [sel'|] eqn:Es; [|done].
  destruct (mask_select _ array) as [val'|] eqn:Ev; [|done].
  simpl in Hs, Hv. simplify_eq.
  apply Forall_cons_1 in Hr as [Hi Hr].
  rewrite last_member_from_S.
  destruct (r =? role) eqn:Er; simpl in Ha.
  - rewrite np_index_in_range in Ha by done. simpl in Ha.
    assert (Hr' : Forall (λ i0, 0 <= i0 < Z.of_nat (length (<[Z.to_nat i := a]> target)))
                    indices) by (by rewrite length_insert).
    rewrite (IH _ _ _ _ _ _ Es Ev Ha Hr' g) by (by rewrite length_insert).
    destruct (last_member_from 0 indices roles g role) as [p|]; simpl; [done|].
    rewrite andb_true_r. destruct (i =? g) eqn:Eg.
    + apply Z.eqb_eq in Eg as ->. apply list_lookup_insert_eq. lia.
    + apply Z.eqb_neq in Eg. apply list_lookup_insert_ne. lia.
  - rewrite (IH _ _ _ _ _ _ Es Ev Ha Hr g Hg).
    destruct (last_member_from 0 indices roles g role) as [p|]; simpl; [done|].
    by rewrite andb_false_r.
Qed.

End RolesMore.

Section CastFacts.
Context {A : Type}.

Lemma role_filter_lookup ent role p r :
  role_for_person ent !! p = Some r → role_filter ent role !! p = Some (r =? role).
Proof.
  unfold role_filter. revert p.
  induction (role_for_person ent) as [|r0 l IH]; intros [|p] H; simpl in *;
    simplify_eq; [done|]. by apply IH.
Qed.

(** The loop of [cast_from_entity_to_roles]. *)
Lemma cast_loop (persons_count : nat) (ent : entity) (G : list A) :
  role_index_ok persons_count ent → length G = count ent →
  ∀ (roles : list Z) (target : list A),
  length target = persons_count →
  ∃ c,
    foldl (λ (acc : option (list A)) role,
             target_array ← acc;
             selected ← mask_select (role_filter ent role) (index_for_person ent);
             values ← take_indices G selected;
             mask_assign target_array (role_filter ent role) values)
          (Some target) roles = Some c ∧
    length c = persons_count ∧
    ∀ p r i, role_for_person ent !! p = Some r → index_for_person ent !! p = Some i →
      c !! p = if bool_decide (r ∈ roles) then G !! Z.to_nat i else target !! p.
Proof.
  intros (Hli & Hlr & Hrange) HG.
  induction roles as [|role roles IH]; intros target Hlen.
  - exists target. split; [done|]. split; [done|]. intros p r i _ _.
    rewrite bool_decide_eq_false_2; [done|]. by intros ?%elem_of_nil.
  - simpl.
    destruct (mask_select_is_Some (role_filter ent role) (index_for_person ent))
      as [selected Hsel].
    { unfold role_filter. rewrite length_map. lia. }
    rewrite Hsel. simpl.
    assert (Hin : Forall (λ i, 0 <= i < Z.of_nat (length G)) selected).
    { rewrite Forall_forall in Hrange |- *. intros i Hi. rewrite HG.
      apply Hrange. eapply mask_select_elem_of; eauto. }
    destruct (mapM_is_Some_2
                (λ i, n ← np_index (length G) i; G !! n) selected) as [values Hval].
    { eapply Forall_impl; [exact Hin|]. intros i Hi. simpl in Hi |- *.
      rewrite np_index_in_range by done. simpl. apply lookup_lt_is_Some. lia. }
    unfold take_indices. rewrite Hval. simpl.
    pose proof (mapM_Some_1 _ _ _ Hval) as HF.
    pose proof (Forall2_length _ _ _ HF) as Hl2.
    destruct (mask_assign_is_Some (role_filter ent role) target
                (index_for_person ent) selected values) as [c1 Hc1]; [|done|done|].
    { unfold role_filter. rewrite length_map. lia. }
    rewrite Hc1.
    destruct (mask_assign_cells _ _ _ _ _ _ G Hsel HF Hc1) as [Hlen1 Hcells].
    destruct (IH c1) as (c & Hc & Hclen & Hcp).
    { rewrite Hlen1. unfold role_filter. rewrite length_map. lia. }
    exists c. split; [exact Hc|]. split; [done|].
    intros p r i Hr Hi. rewrite (Hcp p r i Hr Hi).
    destruct (decide (r ∈ roles)) as [Hrin|Hrin].
    + rewrite !bool_decide_eq_true_2; [done| |done]. by right.
    + rewrite (bool_decide_eq_false_2 _ Hrin).
      rewrite Hcells, (role_filter_lookup _ _ _ _ Hr).
      destruct (r =? role) eqn:Er.
      * apply Z.eqb_eq in Er as ->. rewrite bool_decide_eq_true_2 by left.
        rewrite Hi. simpl. unfold cell_at.
        rewrite Forall_forall in Hrange.
        rewrite np_index_in_range; [done|]. rewrite HG. apply Hrange.
        by eapply list_elem_of_lookup_2.
      * apply Z.eqb_neq in Er. rewrite bool_decide_eq_false_2; [done|].
        intros [->|?]%elem_of_cons; done.
Qed.

End CastFacts.

Lemma cast_cells_of_roles {A : Type} (zero : A) (persons_count : nat)
    (ent : entity) (G : list A) (default : option A) (roles : option (list Z)) :
  role_index_ok persons_count ent →
  is_persons_entity ent = false →
  length G = count ent →
  ∃ c,
    cast_from_entity_to_roles zero persons_count ent G default roles = Some c ∧
    length c = persons_count ∧
    ∀ p r i, role_for_person ent !! p = Some r → index_for_person ent !! p = Some i →
      c !! p =
      if bool_decide (r ∈ match roles with
                          | Some rs => rs
                          | None => range (roles_count ent)
                          end)
      then G !! Z.to_nat i
      else Some (default_or_zero zero default).
Proof.
  intros Hok Hpe HG. unfold cast_from_entity_to_roles.
  rewrite Hpe, (bool_decide_eq_true_2 _ HG). simpl.
  destruct (cast_loop persons_count ent G Hok HG
              (match roles with Some rs => rs | None => range (roles_count ent) end)
              (replicate persons_count (default_or_zero zero default)))
    as (c & Hc & Hlen & Hcp).
  { apply length_replicate. }
  exists c. split; [exact Hc|]. split; [done|].
  intros p r i Hr Hi. rewrite (Hcp p r i Hr Hi).
  destruct (bool_decide _); [done|].
  apply lookup_replicate_2. destruct Hok as (Hli & _).
  apply lookup_lt_Some in Hi. lia.
Qed.

(** X11.  On a well-formed role index, [cast_from_entity_to_roles] returns a
    persons array in which each person whose role is among the given roles --
    among all declared roles when none are given -- has the cell of its row
    of the entity array, and every other person has the default. *)
Theorem cast_from_entity_to_roles_cells {A : Type} (zero : A) (persons_count : nat)
    (ent : entity) (G : list A) (default : option A) (roles : option (list Z)) :
  role_index_ok persons_count ent →
  is_persons_entity ent = false →
  length G = count ent →
  ∃ c,
    cast_from_entity_to_roles zero persons_count ent G default roles = Some c ∧
    length c = persons_count ∧
    ∀ p r i, role_for_person ent !! p = Some r → index_for_person ent !! p = Some i →
      c !! p =
      if bool_decide (r ∈ match roles with
                          | Some rs => rs
                          | None => range (roles_count ent)
                          end)
      then G !! Z.to_nat i
      else Some (default_or_zero zero default).
Proof. apply cast_cells_of_roles. Qed.

Lemma cast_from_entity_to_roles_cells_witness :
  let ent := Entity 2 3 false [0; 0; 1; 1; 1] [0; 1; 1; 0; 2] in
  ∃ c,
    cast_from_entity_to_roles 0 5 ent [10; 20] (Some 7) (Some [0; 2]) = Some c ∧
    length c = 5%nat ∧
    ∀ p r i, role_for_person ent !! p = Some r → index_for_person ent !! p = Some i →
      c !! p = if bool_decide (r ∈ [0; 2]) then [10; 20] !! Z.to_nat i else Some 7.
Proof.
  apply (cast_from_entity_to_roles_cells 0 5
           (Entity 2 3 false [0; 0; 1; 1; 1] [0; 1; 1; 0; 2]) [10; 20] (Some 7)
           (Some [0; 2])).
  - unfold role_index_ok. simpl. split; [reflexivity|]. split; [reflexivity|].
    repeat constructor; lia.
  - reflexivity.
  - reflexivity.
Defined.

Lemma filter_role_last {A : Type} (zero : A) (persons_count : nat)
    (ent : entity) (array : list A) (default : option A) (role : Z) :
  role_index_ok persons_count ent →
  is_persons_entity ent = false →
  length array = persons_count →
  ∃ target,
    filter_role zero persons_count ent array default role = Some target ∧
    length target = count ent ∧
    ∀ g, 0 <= g < Z.of_nat (count ent) →
      target !! Z.to_nat g =
      match last_member ent g role with
      | Some p => array !! p
      | None => Some (default_or_zero zero default)
      end.
Proof.
  intros Hok Hpe Harr. unfold filter_role.
  rewrite Hpe, (bool_decide_eq_true_2 _ Harr). simpl.
  destruct (gather_role_spec persons_count ent array (default_or_zero zero default)
              role Hok Harr) as (target & Ht & Hlen & _).
  exists target. split; [exact Ht|]. split; [done|].
  intros g Hg. unfold gather_role in Ht.
  destruct (mask_select (role_filter ent role) (index_for_person ent))
    as [selected|] eqn:Hsel; [|done].
  destruct (mask_select (role_filter ent role) array) as [values|] eqn:Hval; [|done].
  simpl in Ht. destruct Hok as (_ & _ & Hrange).
  unfold last_member.
  rewrite (index_assign_last role _ _ _ _ _ _ _ Hsel Hval Ht).
  - destruct (last_member_from _ _ _ _ _); [done|].
    apply lookup_replicate_2. lia.
  - by rewrite length_replicate.
  - by rewrite length_replicate.
Qed.

(** X12.  On a well-formed role index, [filter_role] returns an entity array
    in which each row holds the value of the last person, in the order of
    the persons array, that has the role in that row, and the default when
    no person has. *)
Theorem filter_role_last_member {A : Type} (zero : A) (persons_count : nat)
    (ent : entity) (array : list A) (default : option A) (role : Z) :
  role_index_ok persons_count ent →
  is_persons_entity ent = false →
  length array = persons_count →
  ∃ target,
    filter_role zero persons_count ent array default role = Some target ∧
    length target = count ent ∧
    ∀ g, 0 <= g < Z.of_nat (count ent) →
      target !! Z.to_nat g =
      match last_member ent g role with
      | Some p => array !! p
      | None => Some (default_or_zero zero default)
      end.
Proof. apply filter_role_last. Qed.

Lemma filter_role_last_member_witness :
  let ent := Entity 2 3 false [0; 0; 1; 1; 1] [0; 1; 1; 0; 1] in
  ∃ target,
    filter_role 0 5 ent [1; 2; 3; 4; 5] (Some 7) 1 = Some target ∧
    length target = 2%nat ∧
    ∀ g, 0 <= g < 2 →
      target !! Z.to_nat g =
      match last_member ent g 1 with
      | Some p => [1; 2; 3; 4; 5] !! p
      | None => Some 7
      end.
Proof.
  apply (filter_role_last_member 0 5
           (Entity 2 3 false [0; 0; 1; 1; 1] [0; 1; 1; 0; 1]) [1; 2; 3; 4; 5] (Some 7) 1).
  - unfold role_index_ok. simpl. split; [reflexivity|]. split; [reflexivity|].
    repeat constructor; lia.
  - reflexivity.
  - reflexivity.
Defined.

Lemma last_member_from_none indices : ∀ roles from g role,
  count_members indices roles g role = 0%nat →
  last_member_from from indices roles g role = None.
Proof.
  induction indices as [|i indices IH]; intros [|r roles] from g role H; simpl in *;
    try done.
  destruct ((i =? g) && (r =? role)); [lia|]. rewrite IH by lia. done.
Qed.

Lemma last_member_from_unique indices : ∀ roles p g role,
  (count_members indices roles g role ≤ 1)%nat →
  indices !! p = Some g → roles !! p = Some role →
  last_member_from 0 indices roles g role = Some p.
Proof.
  induction indices as [|i indices IH]; intros [|r roles] p g role Hc Hi Hr;
    simpl in *; try done.
  rewrite last_member_from_S. destruct p as [|p]; simpl in *.
  - simplify_eq. rewrite !Z.eqb_refl in *. simpl in *.
    rewrite (last_member_from_none indices roles 0 g role) by lia. done.
  - rewrite (IH roles p g role); [done| |done|done].
    destruct ((i =? g) && (r =? role)); lia.
Qed.

(** X13.  Gathering then scattering: on a well-formed role index where no
    row has two persons with role [R], filtering a persons array by [R] and
    casting the result back to the persons with role [R] gives the array
    again for those persons, and the default for all others. *)
Theorem gather_scatter_round_trip {A : Type} (zero : A) (persons_count : nat)
    (ent : entity) (array : list A) (d : A) (R : Z) :
  role_index_ok persons_count ent →
  is_persons_entity ent = false →
  length array = persons_count →
  (∀ g, (count_members (index_for_person ent) (role_for_person ent) g R ≤ 1)%nat) →
  filter_role zero persons_count ent array (Some d) R
    ≫= (λ entity_array,
          cast_from_entity_to_role zero persons_count ent entity_array (Some d) R)
  = Some (zip_with (λ r a, if r =? R then a else d) (role_for_person ent) array).
Proof.
  intros Hok Hpe Harr Hone.
  destruct (filter_role_last zero persons_count ent array (Some d) R Hok Hpe Harr)
    as (t & Ht & Htlen & Htg).
  rewrite Ht. simpl. unfold cast_from_entity_to_role.
  destruct (cast_cells_of_roles zero persons_count ent t (Some d) (Some [R])
              Hok Hpe Htlen) as (c & Hc & Hclen & Hcp).
  rewrite Hc. f_equal. apply list_eq. intros p.
  destruct Hok as (Hli & Hlr & Hrange).
  destruct (decide (p < persons_count)%nat) as [Hp|Hp].
  - destruct (lookup_lt_is_Some_2 (role_for_person ent) p) as [r Hr]; [lia|].
    destruct (lookup_lt_is_Some_2 (index_for_person ent) p) as [i Hi]; [lia|].
    destruct (lookup_lt_is_Some_2 array p) as [a Ha]; [lia|].
    rewrite (Hcp p r i Hr Hi).
    rewrite lookup_zip_with, Hr. simpl. rewrite Ha. simpl.
    destruct (r =? R) eqn:Er.
    + apply Z.eqb_eq in Er as ->. rewrite bool_decide_eq_true_2 by left.
      rewrite Forall_forall in Hrange.
      rewrite Htg by (apply Hrange; by eapply list_elem_of_lookup_2).
      unfold last_member.
      by rewrite (last_member_from_unique _ _ p i R (Hone i) Hi Hr).
    + apply Z.eqb_neq in Er. rewrite bool_decide_eq_false_2; [done|].
      by intros ?%list_elem_of_singleton.
  - rewrite lookup_ge_None_2 by lia.
    symmetry. apply lookup_ge_None_2. rewrite length_zip_with. lia.
Qed.

Lemma gather_scatter_round_trip_witness :
  let ent := Entity 2 3 false [0; 0; 1; 1; 1] [0; 1; 1; 0; 2] in
  filter_role 0 5 ent [1; 2; 3; 4; 5] (Some 7) 1
    ≫= (λ entity_array, cast_from_entity_to_role 0 5 ent entity_array (Some 7) 1)
  = Some [7; 2; 3; 7; 7].
Proof.
  apply (gather_scatter_round_trip 0 5
           (Entity 2 3 false [0; 0; 1; 1; 1] [0; 1; 1; 0; 2]) [1; 2; 3; 4; 5] 7 1).
  - unfold role_index_ok. simpl. split; [reflexivity|]. split; [reflexivity|].
    repeat constructor; lia.
  - reflexivity.
  - reflexivity.
  - intros g. cbn [count_members index_for_person role_for_person].
    destruct (Z.eqb_spec 0 g); destruct (Z.eqb_spec 1 g); simpl; lia.
Defined.

Lemma filter_role_gather {A : Type} (zero : A) (persons_count : nat) (ent : entity)
    (array : list A) (default : option A) (role : Z) :
  is_persons_entity ent = false → length array = persons_count →
  filter_role zero persons_count ent array default role
  = gather_role ent array (default_or_zero zero default) role.
Proof.
  intros Hpe Harr. unfold filter_role.
  by rewrite Hpe, (bool_decide_eq_true_2 _ Harr).
Qed.

(** X14.  On a well-formed role index, [split_by_roles] returns a dict whose
    keys are the given roles -- the default range of roles when none are
    given -- and that holds, under each role, the very array [filter_role]
    returns for that role. *)
Theorem split_by_roles_filter_role {A : Type} (zero : A) (persons_count : nat)
    (ent : entity) (array : list A) (default : option A) (roles : option (list Z)) :
  role_index_ok persons_count ent →
  is_persons_entity ent = false →
  length array = persons_count →
  ∃ m,
    split_by_roles zero persons_count ent array default roles = Some m ∧
    ∀ role,
      (role ∈ dom m ↔
       role ∈ match roles with
              | Some rs => rs
              | None => range (Z.max (roles_count ent) 11)
              end) ∧
      (role ∈ dom m →
       m !! role = filter_role zero persons_count ent array default role).
Proof.
  intros Hok Hpe Harr. unfold split_by_roles.
  rewrite Hpe, (bool_decide_eq_true_2 _ Harr). simpl.
  destruct (split_loop zero ent array (default_or_zero zero default)
              (match roles with
               | Some rs => rs
               | None => range (Z.max (roles_count ent) 11)
               end) ∅) as (m & Hm & Hdom & Hval).
  { intros r _.
    destruct (gather_role_spec persons_count ent array
                (default_or_zero zero default) r Hok Harr) as (t & -> & _). eauto. }
  exists m. split; [exact Hm|]. rewrite dom_empty_L, (left_id_L ∅ (∪)) in Hdom.
  intros role. split.
  - by rewrite Hdom, elem_of_list_to_set.
  - intros [t Ht]%elem_of_dom. rewrite Ht.
    destruct (Hval role t Ht) as [H|H]; [by rewrite lookup_empty in H|].
    by rewrite filter_role_gather.
Qed.

Lemma split_by_roles_filter_role_witness :
  let ent := Entity 2 3 false [0; 0; 1; 1; 1] [0; 1; 1; 0; 2] in
  ∃ m,
    split_by_roles 0 5 ent [1; 2; 3; 4; 5] (Some 7) (Some [1; 2]) = Some m ∧
    ∀ role,
      (role ∈ dom m ↔ role ∈ [1; 2]) ∧
      (role ∈ dom m → m !! role = filter_role 0 5 ent [1; 2; 3; 4; 5] (Some 7) role).
Proof.
  apply (split_by_roles_filter_role 0 5
           (Entity 2 3 false [0; 0; 1; 1; 1] [0; 1; 1; 0; 2]) [1; 2; 3; 4; 5] (Some 7)
           (Some [1; 2])).
  - unfold role_index_ok. simpl. split; [reflexivity|]. split; [reflexivity|].
    repeat constructor; lia.
  - reflexivity.
  - reflexivity.
Defined.

Section ReduceFacts.
Context {A B : Type}.
Variable iadd : B → A → B.

Lemma mask_select_Forall2 {X Y : Type} (R : X → Y → Prop) mask :
  ∀ (l selected : list X) (all : list Y),
  mask_select mask l = Some selected → Forall2 R l all →
  ∃ cur, Forall2 R selected cur ∧ mask_select mask all = Some cur.
Proof.
  induction mask as [|b mask IH]; intros l selected all Hs Hm;
    destruct Hm as [|x y l all Hxy Hm]; simpl in *; simplify_eq.
  - exists []. split; [constructor|done].
  - destruct (mask_select mask l) as [sel'|] eqn:Es; [|done]. simpl in Hs.
    destruct (IH _ _ _ Es Hm) as (cur & Hcur & Hsel).
    simplify_eq. rewrite Hsel. simpl. destruct b.
    + exists (y :: cur). split; [by constructor|done].
    + exists cur. done.
Qed.

Lemma mask_select_mapM {X Y : Type} (f : X → option Y) mask
    (l selected : list X) (all : list Y) :
  mask_select mask l = Some selected → mapM f l = Some all →
  ∃ cur, mapM f selected = Some cur ∧ mask_select mask all = Some cur.
Proof.
  intros Hs Hm%mapM_Some.
  destruct (mask_select_Forall2 _ _ _ _ _ Hs Hm) as (cur & Hcur & Hsel).
  exists cur. split; [by apply mapM_Some|done].
Qed.

Lemma mask_select_zip_with {X Y W : Type} (f : X → Y → W) mask :
  ∀ (lx xs : list X) (ly ys : list Y),
  mask_select mask lx = Some xs → mask_select mask ly = Some ys →
  mask_select mask (zip_with f lx ly) = Some (zip_with f xs ys).
Proof.
  induction mask as [|b mask IH]; intros [|x lx] xs [|y ly] ys Hx Hy; simpl in *;
    simplify_eq; try done.
  destruct (mask_select mask lx) as [xs'|] eqn:Ex; [|done].
  destruct (mask_select mask ly) as [ys'|] eqn:Ey; [|done].
  simpl in *. simplify_eq. rewrite (IH _ _ _ _ Ex Ey). simpl. by destruct b.
Qed.

Lemma last_member_from_lookup indices : ∀ roles p g role,
  last_member_from 0 indices roles g role = Some p →
  indices !! p = Some g ∧ roles !! p = Some role.
Proof.
  induction indices as [|i indices IH]; intros [|r roles] p g role H; simpl in *;
    try done.
  rewrite last_member_from_S in H.
  destruct (last_member_from 0 indices roles g role) as [q|] eqn:E; simpl in H.
  - simplify_eq. simpl. by apply IH.
  - destruct ((i =? g) && (r =? role)) eqn:Eb; [|done]. simplify_eq.
    apply andb_true_iff in Eb as [->%Z.eqb_eq ->%Z.eqb_eq]. done.
Qed.

(** One round of [sum_by_entity] or [any_by_roles]: each row receives the
    value of the last person that holds the role there. *)
Lemma index_add_last (ent : entity) (persons_count : nat) (array : list A)
    (role : Z) (target : list B) :
  role_index_ok persons_count ent → length array = persons_count →
  length target = count ent →
  ∃ target',
    (selected ← mask_select (role_filter ent role) (index_for_person ent);
     values ← mask_select (role_filter ent role) array;
     index_add iadd target selected values) = Some target' ∧
    length target' = count ent ∧
    ∀ g b, 0 <= g < Z.of_nat (count ent) → target !! Z.to_nat g = Some b →
      target' !! Z.to_nat g =
      Some match last_member ent g role with
           | Some p => match array !! p with Some a => iadd b a | None => b end
           | None => b
           end.
Proof.
  intros (Hli & Hlr & Hrange) Harr Hlen.
  destruct (mask_select_is_Some (role_filter ent role) (index_for_person ent))
    as [selected Hsel].
  { unfold role_filter. rewrite length_map. lia. }
  destruct (mask_select_is_Some (role_filter ent role) array) as [values Hval].
  { unfold role_filter. rewrite length_map. lia. }
  rewrite Hsel, Hval. simpl.
  destruct (mapM_is_Some_2 (λ i, n ← np_index (length target) i; target !! n)
              (index_for_person ent)) as [all Hall].
  { eapply Forall_impl; [exact Hrange|]. intros i Hi. simpl in Hi |- *.
    rewrite np_index_in_range by lia. simpl. apply lookup_lt_is_Some. lia. }
  destruct (mask_select_mapM _ _ _ _ _ Hsel Hall) as (cur & Hcur & Hselall).
  unfold index_add. rewrite Hcur. simpl.
  assert (Hlcur : length cur = length values)
    by (eapply mask_select_same_length; eauto).
  rewrite (bool_decide_eq_true_2 _ Hlcur). simpl.
  pose proof (mask_select_zip_with iadd _ _ _ _ _ Hselall Hval) as Hw.
  assert (Hin : Forall (λ i, 0 <= i < Z.of_nat (length target)) selected).
  { rewrite Forall_forall in Hrange |- *. intros i Hi. rewrite Hlen.
    apply Hrange. eapply mask_select_elem_of; eauto. }
  destruct (index_assign_is_Some selected target (zip_with iadd cur values))
    as [target' HT].
  { rewrite length_zip_with. apply length_mapM in Hcur. lia. }
  { eapply Forall_impl; [exact Hin|]. intros i Hi. simpl in Hi |- *.
    rewrite np_index_in_range by done. eauto. }
  exists target'. split; [exact HT|]. split.
  { apply index_assign_length in HT. lia. }
  intros g b Hg Hb.
  rewrite (index_assign_last role _ _ _ _ _ _ _ Hsel Hw HT);
    [|by rewrite Hlen|lia].
  unfold last_member.
  destruct (last_member_from 0 _ _ g role) as [p|] eqn:Elm; [|done].
  apply last_member_from_lookup in Elm as [Hip Hrp].
  apply mapM_Some in Hall.
  destruct (Forall2_lookup_l _ _ _ _ _ Hall Hip) as (b' & Hb' & Hcell).
  simpl in Hcell. rewrite np_index_in_range in Hcell by lia. simpl in Hcell.
  rewrite Hb in Hcell. simplify_eq.
  destruct (lookup_lt_is_Some_2 array p) as [a Ha].
  { apply lookup_lt_Some in Hip. lia. }
  rewrite Ha. rewrite lookup_zip_with, Hb'. simpl. by rewrite Ha.
Qed.

(** The loop over the roles. *)
Lemma accumulate_loop (ent : entity) (persons_count : nat) (array : list A) :
  role_index_ok persons_count ent → length array = persons_count →
  ∀ (roles : list Z) (target : list B),
  length target = count ent →
  ∃ t,
    foldl (λ (acc : option (list B)) role,
             target_array ← acc;
             indices ← mask_select (role_filter ent role) (index_for_person ent);
             values ← mask_select (role_filter ent role) array;
             index_add iadd target_array indices values)
          (Some target) roles = Some t ∧
    length t = count ent ∧
    ∀ g b, 0 <= g < Z.of_nat (count ent) → target !! Z.to_nat g = Some b →
      t !! Z.to_nat g =
      Some (foldl (λ acc role,
                     match last_member ent g role with
                     | Some p => match array !! p with Some a => iadd acc a | None => acc end
                     | None => acc
                     end) b roles).
Proof.
  intros Hok Harr. induction roles as [|role roles IH]; intros target Hlen.
  - exists target. split; [done|]. split; [done|]. intros g b _ Hb. done.
  - simpl.
    destruct (index_add_last ent persons_count array role target Hok Harr Hlen)
      as (t1 & Ht1 & Hlen1 & Hg1).
    rewrite Ht1. destruct (IH t1 Hlen1) as (t & Ht & Htlen & Hg).
    exists t. split; [exact Ht|]. split; [done|].
    intros g b Hgr Hb. apply Hg; [done|]. by apply Hg1.
Qed.

End ReduceFacts.

Lemma accumulate_by_roles_rows {A B : Type} (iadd : B → A → B) (zero : B)
    (persons_count : nat) (ent : entity) (array : list A) (roles : option (list Z)) :
  role_index_ok persons_count ent →
  is_persons_entity ent = false →
  length array = persons_count →
  ∃ t,
    accumulate_by_roles iadd zero persons_count ent array roles = Some t ∧
    length t = count ent ∧
    ∀ g, 0 <= g < Z.of_nat (count ent) →
      t !! Z.to_nat g =
      Some (foldl (λ acc role,
                     match last_member ent g role with
                     | Some p => match array !! p with Some a => iadd acc a | None => acc end
                     | None => acc
                     end)
                  zero
                  match roles with Some rs => rs | None => range (roles_count ent) end).
Proof.
  intros Hok Hpe Harr. unfold accumulate_by_roles.
  rewrite Hpe, (bool_decide_eq_true_2 _ Harr). simpl.
  destruct (accumulate_loop iadd ent persons_count array Hok Harr
              match roles with Some rs => rs | None => range (roles_count ent) end
              (replicate (count ent) zero)) as (t & Ht & Hlen & Hg).
  { by rewrite length_replicate. }
  exists t. split; [exact Ht|]. split; [exact Hlen|].
  intros g Hgr. apply Hg; [done|]. apply lookup_replicate_2. lia.
Qed.

(** X15.  On a well-formed role index, [sum_by_entity] returns one cell for
    each row of the entity; the cell of a row is the zero to which, role after
    role in the order given, the value of the last person holding that role
    in that row has been added.  A role held by nobody in the row adds
    nothing, and of several persons holding the same role in the same row
    only the last one counts. *)
Theorem sum_by_entity_rows {A B : Type} (iadd : B → A → B) (zero : B)
    (persons_count : nat) (ent : entity) (array : list A) (roles : option (list Z)) :
  role_index_ok persons_count ent →
  is_persons_entity ent = false →
  length array = persons_count →
  ∃ t,
    sum_by_entity iadd zero persons_count ent array roles = Some t ∧
    length t = count ent ∧
    ∀ g, 0 <= g < Z.of_nat (count ent) →
      t !! Z.to_nat g =
      Some (foldl (λ acc role,
                     match last_member ent g role with
                     | Some p => match array !! p with Some a => iadd acc a | None => acc end
                     | None => acc
                     end)
                  zero
                  match roles with Some rs => rs | None => range (roles_count ent) end).
Proof. apply accumulate_by_roles_rows. Qed.

Lemma sum_by_entity_rows_witness :
  let ent := Entity 2 3 false [0; 0; 1; 1; 1] [0; 1; 1; 0; 1] in
  ∃ t,
    sum_by_entity Z.add 0 5 ent [1; 2; 3; 4; 5] None = Some t ∧
    length t = count ent ∧
    ∀ g, 0 <= g < Z.of_nat (count ent) →
      t !! Z.to_nat g =
      Some (foldl (λ acc role,
                     match last_member ent g role with
                     | Some p =>
                         match [1; 2; 3; 4; 5] !! p with Some a => acc + a | None => acc end
                     | None => acc
                     end)
                  0 (range (roles_count ent))).
Proof.
  apply (sum_by_entity_rows Z.add 0 5
           (Entity 2 3 false [0; 0; 1; 1; 1] [0; 1; 1; 0; 1]) [1; 2; 3; 4; 5] None).
  - unfold role_index_ok. simpl. split; [reflexivity|]. split; [reflexivity|].
    repeat constructor; lia.
  - reflexivity.
  - reflexivity.
Defined.

Lemma foldl_orb_last (ent : entity) (array : list bool) (g : Z) (roles : list Z) :
  ∀ acc,
  foldl (λ acc role,
           match last_member ent g role with
           | Some p => match array !! p with Some a => acc || a | None => acc end
           | None => acc
           end) acc roles = true
  ↔ acc = true ∨
    ∃ role p, role ∈ roles ∧ last_member ent g role = Some p ∧ array !! p = Some true.
Proof.
  induction roles as [|role roles IH]; intros acc; simpl.
  - split; [by left|]. intros [H|(r & p & Hr & _)]; [done|]. by apply elem_of_nil in Hr.
  - rewrite IH. split.
    + intros [H|(r & p & Hr & Hlm & Ha)].
      * destruct (last_member ent g role) as [p|] eqn:Elm; [|by left].
        destruct (array !! p) as [a|] eqn:Ea; [|by left].
        apply orb_true_iff in H as [->| ->]; [by left|].
        right. exists role, p. split; [left|done].
      * right. exists r, p. split; [by right|done].
    + intros [->|(r & p & Hr & Hlm & Ha)].
      * left. destruct (last_member ent g role) as [p|]; [|done].
        by destruct (array !! p).
      * apply elem_of_cons in Hr as [->|Hr].
        -- left. rewrite Hlm, Ha. apply orb_true_r.
        -- right. exists r, p. done.
Qed.

(** X16.  On a well-formed role index and a boolean array, [any_by_roles]
    marks a row of the entity exactly when, for one of the roles, the last
    person holding that role in that row has a true cell. *)
Theorem any_by_roles_rows (persons_count : nat) (ent : entity) (array : list bool)
    (roles : option (list Z)) :
  role_index_ok persons_count ent →
  is_persons_entity ent = false →
  length array = persons_count →
  ∃ t,
    any_by_roles orb persons_count ent array roles = Some t ∧
    length t = count ent ∧
    ∀ g, 0 <= g < Z.of_nat (count ent) →
      (t !! Z.to_nat g = Some true ↔
       ∃ role p,
         role ∈ match roles with Some rs => rs | None => range (roles_count ent) end ∧
         last_member ent g role = Some p ∧ array !! p = Some true) ∧
      is_Some (t !! Z.to_nat g).
Proof.
  intros Hok Hpe Harr.
  destruct (accumulate_by_roles_rows orb false persons_count ent array roles
              Hok Hpe Harr) as (t & Ht & Hlen & Hg).
  exists t. split; [exact Ht|]. split; [exact Hlen|].
  intros g Hgr. rewrite (Hg g Hgr). split; [|eauto]. split.
  - intros [= H]. apply foldl_orb_last in H as [H|H]; done.
  - intros H. f_equal. apply foldl_orb_last. by right.
Qed.

Lemma any_by_roles_rows_witness :
  let ent := Entity 2 3 false [0; 0; 1; 1; 1] [0; 1; 1; 0; 1] in
  let array := [false; true; true; false; false] in
  ∃ t,
    any_by_roles orb 5 ent array (Some [1]) = Some t ∧
    length t = count ent ∧
    ∀ g, 0 <= g < Z.of_nat (count ent) →
      (t !! Z.to_nat g = Some true ↔
       ∃ role p, role ∈ [1] ∧ last_member ent g role = Some p ∧ array !! p = Some true) ∧
      is_Some (t !! Z.to_nat g).
Proof.
  apply (any_by_roles_rows 5 (Entity 2 3 false [0; 0; 1; 1; 1] [0; 1; 1; 0; 1])
           [false; true; true; false; false] (Some [1])).
  - unfold role_index_ok. simpl. split; [reflexivity|]. split; [reflexivity|].
    repeat constructor; lia.
  - reflexivity.
  - reflexivity.
Defined.

(** * Properties of the class methods of formulas.py *)

(** ** [extract_variables_name] *)

Lemma mentions_spec x l : mentions x l = true ↔ x ∈ l.
Proof.
  unfold mentions. induction l as [|y l IH]; simpl.
  - split; [done|]. by intros ?%elem_of_nil.
  - rewrite orb_true_iff, IH, elem_of_cons, String.eqb_eq. done.
Qed.

Lemma remove_first_filter x l :
  NoDup l → remove_first x l = filter (λ v, v ≠ x) l.
Proof.
  induction 1 as [|y l Hy Hl IH]; simpl; [done|].
  destruct (String.eqb_spec x y) as [->|Hne].
  - rewrite filter_cons_False by (intros H; by apply H).
    symmetry. clear IH Hl. induction l as [|z l IH]; [done|].
    apply not_elem_of_cons in Hy as [Hz Hy].
    rewrite filter_cons_True by done. f_equal. by apply IH.
  - rewrite filter_cons_True by done. by rewrite IH.
Qed.

Lemma strip_name x l :
  NoDup l →
  (if mentions x l then remove_first x l else l) = filter (λ v, v ≠ x) l.
Proof.
  intros Hl. destruct (mentions x l) eqn:E.
  - by apply remove_first_filter.
  - assert (Hx : x ∉ l) by (rewrite <-mentions_spec, E; done).
    clear E Hl. induction l as [|z l IH]; [done|].
    apply not_elem_of_cons in Hx as [Hz Hx].
    rewrite filter_cons_True by done. f_equal. by apply IH.
Qed.

Lemma extract_variables_name_spec (sig : signature)
    (cls cls' : simple_formula_class) :
  NoDup (co_varnames sig) →
  extract_variables_name sig cls = Some cls' →
  let positional :=
    take (co_argcount sig - length (defaults sig)) (co_varnames sig) in
  variables_name cls'
  = filter (λ v, v ∉ ["_defaultP"; "_P"; "period"; "self"]) positional ∧
  (requires_reference_legislation cls' = true ↔
   "_defaultP" ∈ positional ∨ requires_reference_legislation cls = true) ∧
  (requires_legislation cls' = true ↔
   "_P" ∈ positional ∨ requires_legislation cls = true) ∧
  (requires_period cls' = true ↔
   "period" ∈ positional ∨ requires_period cls = true) ∧
  (requires_self cls' = true ↔
   ("self" ∈ positional ∧ ismethod sig = false) ∨ requires_self cls = true).
Proof.
  intros Hnd H positional. unfold extract_variables_name in H.
  fold positional in H.
  assert (Hp : NoDup positional).
  { exact (sublist_NoDup _ _ Hnd (sublist_take _ _)). }
  apply bind_Some in H as (accessors & _ & H). simplify_eq. simpl.
  rewrite (strip_name "_defaultP") by done.
  rewrite (strip_name "_P") by (by apply NoDup_filter).
  rewrite (strip_name "period") by (by repeat apply NoDup_filter).
  rewrite (strip_name "self") by (by repeat apply NoDup_filter).
  assert (Hin : ∀ (x y : string) l, x ≠ y →
            mentions x (filter (λ v, v ≠ y) l) = mentions x l).
  { intros x y l Hxy. apply eq_true_iff_eq.
    rewrite !mentions_spec, list_elem_of_filter. naive_solver. }
  rewrite !Hin by done.
  split; [|split; [|split; [|split]]].
  - rewrite !list_filter_filter. apply list_filter_iff. intros v.
    rewrite !not_elem_of_cons. pose proof (not_elem_of_nil v). clear Hin Hp. tauto.
  - destruct (mentions "_defaultP" positional) eqn:E.
    + apply mentions_spec in E. naive_solver.
    + split; [by right|]. intros [Hm|?]; [|done].
      apply mentions_spec in Hm. congruence.
  - destruct (mentions "_P" positional) eqn:E.
    + apply mentions_spec in E. naive_solver.
    + split; [by right|]. intros [Hm|?]; [|done].
      apply mentions_spec in Hm. congruence.
  - destruct (mentions "period" positional) eqn:E.
    + apply mentions_spec in E. naive_solver.
    + split; [by right|]. intros [Hm|?]; [|done].
      apply mentions_spec in Hm. congruence.
  - destruct (mentions "self" positional) eqn:E; simpl.
    + apply mentions_spec in E. destruct (ismethod sig); simpl; naive_solver.
    + split; [by right|]. intros [[Hm _]|?]; [|done].
      apply mentions_spec in Hm. congruence.
Qed.

(** X17.  For a function whose variable names are all different, as Python
    has them, [extract_variables_name] leaves in [variables_name] the
    parameters without a default value other than [_defaultP], [_P],
    [period] and [self], in their order; each [requires_] flag is raised
    exactly when its name is among these parameters -- [requires_self] only
    for a function that is not a bound method -- and is otherwise kept. *)
Theorem extract_variables_name_parameters (sig : signature)
    (cls cls' : simple_formula_class) :
  NoDup (co_varnames sig) →
  extract_variables_name sig cls = Some cls' →
  let positional :=
    take (co_argcount sig - length (defaults sig)) (co_varnames sig) in
  variables_name cls'
  = filter (λ v, v ∉ ["_defaultP"; "_P"; "period"; "self"]) positional ∧
  (requires_reference_legislation cls' = true ↔
   "_defaultP" ∈ positional ∨ requires_reference_legislation cls = true) ∧
  (requires_legislation cls' = true ↔
   "_P" ∈ positional ∨ requires_legislation cls = true) ∧
  (requires_period cls' = true ↔
   "period" ∈ positional ∨ requires_period cls = true) ∧
  (requires_self cls' = true ↔
   ("self" ∈ positional ∧ ismethod sig = false) ∨ requires_self cls = true).
Proof. apply extract_variables_name_spec. Qed.


Lemma extract_variables_name_parameters_witness :
  let sig :=
    Signature ["self"; "salaire"; "period"; "_P"; "taux"; "montant"] 5
      [AccessorDefault "impot.taux"] false in
  let cls := blank_class (λ _, ReturnsNone) "year" id in
  let cls' := default cls (extract_variables_name sig cls) in
  let positional :=
    take (co_argcount sig - length (defaults sig)) (co_varnames sig) in
  variables_name cls'
  = filter (λ v, v ∉ ["_defaultP"; "_P"; "period"; "self"]) positional ∧
  (requires_reference_legislation cls' = true ↔
   "_defaultP" ∈ positional ∨ requires_reference_legislation cls = true) ∧
  (requires_legislation cls' = true ↔
   "_P" ∈ positional ∨ requires_legislation cls = true) ∧
  (requires_period cls' = true ↔
   "period" ∈ positional ∨ requires_period cls = true) ∧
  (requires_self cls' = true ↔
   ("self" ∈ positional ∧ ismethod sig = false) ∨ requires_self cls = true).
Proof.
  apply (extract_variables_name_parameters
           (Signature ["self"; "salaire"; "period"; "_P"; "taux"; "montant"] 5
              [AccessorDefault "impot.taux"] false)
           (blank_class (λ _, ReturnsNone) "year" id)).
  - simpl. repeat (apply NoDup_cons_2; [set_solver|]). apply NoDup_nil_2.
  - reflexivity.
Defined.

Lemma accessors_of_names names : ∀ ds l,
  accessors_of names ds = Some l → length names = length ds → l.*1 = names.
Proof.
  induction names as [|name names IH]; intros [|d ds] l H Hl; simpl in *;
    simplify_eq; try done.
  destruct d as [path|]; [|done].
  destruct (accessors_of names ds) as [rest|] eqn:E; [|done].
  simpl in H. simplify_eq. simpl. f_equal. apply (IH ds); [done|lia].
Qed.

(** X18.  For a class prepared by [extract_variables_name] from the blank
    [SimpleFormula], the parameters [compute] requires -- the set its
    assertion compares the arguments with -- are the parameters of the
    function, without [self] when the function is a bound method that takes
    it without a default. *)
Theorem extract_variables_name_required (sig : signature)
    (f : list (string * argument) → function_result) (unit : string)
    (output : Period → Period) (cls' : simple_formula_class) :
  NoDup (co_varnames sig) →
  (length (defaults sig) ≤ co_argcount sig ≤ length (co_varnames sig))%nat →
  extract_variables_name sig (blank_class f unit output) = Some cls' →
  required_parameters cls'
  = list_to_set (take (co_argcount sig) (co_varnames sig))
    ∖ (if ismethod sig
          && mentions "self"
               (take (co_argcount sig - length (defaults sig)) (co_varnames sig))
       then {["self"]} else ∅).
Proof.
  intros Hnd Hlen H.
  destruct (extract_variables_name_spec sig _ cls' Hnd H)
    as (Hv & Hd & HP & Hper & Hself).
  simpl in Hd, HP, Hper, Hself.
  set (n := (co_argcount sig - length (defaults sig))%nat) in *.
  assert (Hsplit : take (co_argcount sig) (co_varnames sig)
                   = take n (co_varnames sig)
                     ++ drop n (take (co_argcount sig) (co_varnames sig))).
  { rewrite <-(take_drop n (take (co_argcount sig) (co_varnames sig))) at 1.
    f_equal. rewrite take_take. f_equal. lia. }
  assert (Hacc : list_to_set (C := gset string)
                   (default [] (legislation_accessor_by_name cls')).*1
                 = list_to_set (drop n (take (co_argcount sig) (co_varnames sig)))).
  { unfold extract_variables_name in H. fold n in H.
    apply bind_Some in H as (accessors & Ha & H). simplify_eq. simpl.
    destruct (defaults sig) as [|d ds] eqn:Ed.
    - simpl in Ha. simplify_eq. simpl.
      rewrite drop_ge; [done|]. rewrite length_take. simpl in n. lia.
    - apply fmap_Some in Ha as (l & Ha & ->). simpl.
      f_equal. eapply accessors_of_names; [exact Ha|].
      rewrite length_drop, length_take. simpl in *. lia. }
  assert (Hnd' : NoDup (take (co_argcount sig) (co_varnames sig))).
  { exact (sublist_NoDup _ _ Hnd (sublist_take _ _)). }
  rewrite Hsplit in Hnd'. apply NoDup_app in Hnd' as (_ & Hdisj & _).
  rewrite Hsplit, list_to_set_app_L. unfold required_parameters. rewrite Hacc, Hv.
  apply set_eq. intros v.
  rewrite !elem_of_union, elem_of_difference, elem_of_union,
    !elem_of_list_to_set, list_elem_of_filter, !not_elem_of_cons.
  pose proof (not_elem_of_nil v) as Hnil.
  assert (HfD : v ∈ (if requires_reference_legislation cls'
                     then {["_defaultP"]} else ∅ : gset string)
                ↔ v = "_defaultP" ∧ "_defaultP" ∈ take n (co_varnames sig)).
  { destruct (requires_reference_legislation cls'); set_solver. }
  assert (HfP : v ∈ (if requires_legislation cls' then {["_P"]} else ∅ : gset string)
                ↔ v = "_P" ∧ "_P" ∈ take n (co_varnames sig)).
  { destruct (requires_legislation cls'); set_solver. }
  assert (Hfp : v ∈ (if requires_period cls' then {["period"]} else ∅ : gset string)
                ↔ v = "period" ∧ "period" ∈ take n (co_varnames sig)).
  { destruct (requires_period cls'); set_solver. }
  assert (Hfs : v ∈ (if requires_self cls' then {["self"]} else ∅ : gset string)
                ↔ v = "self" ∧ "self" ∈ take n (co_varnames sig)
                  ∧ ismethod sig = false).
  { destruct (requires_self cls'); set_solver. }
  rewrite HfD, HfP, Hfp, Hfs.
  assert (Hm : v ∈ (if ismethod sig && mentions "self" (take n (co_varnames sig))
                    then {["self"]} else ∅ : gset string)
               ↔ v = "self" ∧ ismethod sig = true
                 ∧ "self" ∈ take n (co_varnames sig)).
  { rewrite <-mentions_spec.
    destruct (ismethod sig), (mentions "self" (take n (co_varnames sig)));
      set_solver. }
  rewrite Hm. clear HfD HfP Hfp Hfs Hm Hd HP Hper Hself Hacc Hv Hsplit H.
  specialize (Hdisj v).
  assert (Hss : ∀ x : string, v = x →
            (v ∈ take n (co_varnames sig) ↔ x ∈ take n (co_varnames sig)))
    by (by intros x ->).
  pose proof (Hss "_defaultP") as HsD. pose proof (Hss "_P") as HsP.
  pose proof (Hss "period") as Hsp. pose proof (Hss "self") as Hss'.
  clear Hss.
  destruct (decide (v = "_defaultP")) as [e|].
  { assert (v ≠ "_P" ∧ v ≠ "period" ∧ v ≠ "self") as (? & ? & ?) by (by subst).
    tauto. }
  destruct (decide (v = "_P")) as [e|].
  { assert (v ≠ "period" ∧ v ≠ "self") as (? & ?) by (by subst). tauto. }
  destruct (decide (v = "period")) as [e|].
  { assert (v ≠ "self") by (by subst). tauto. }
  assert (false ≠ true) by done. assert (true ≠ false) by done.
  assert (true = true) by done. assert (false = false) by done.
  destruct (decide (v = "self")); destruct (ismethod sig); tauto.
Qed.

Lemma extract_variables_name_required_witness :
  let sig :=
    Signature ["self"; "salaire"; "period"; "_P"; "taux"; "montant"] 5
      [AccessorDefault "impot.taux"] false in
  let cls' :=
    default (blank_class (λ _, ReturnsNone) "year" id)
      (extract_variables_name sig (blank_class (λ _, ReturnsNone) "year" id)) in
  required_parameters cls'
  = list_to_set (take (co_argcount sig) (co_varnames sig))
    ∖ (if ismethod sig
          && mentions "self"
               (take (co_argcount sig - length (defaults sig)) (co_varnames sig))
       then {["self"]} else ∅).
Proof.
  apply (extract_variables_name_required
           (Signature ["self"; "salaire"; "period"; "_P"; "taux"; "montant"] 5
              [AccessorDefault "impot.taux"] false)
           (λ _, ReturnsNone) "year" id).
  - simpl. repeat (apply NoDup_cons_2; [set_solver|]). apply NoDup_nil_2.
  - simpl. lia.
  - reflexivity.
Defined.

(** ** The dated functions of a class *)

Section DatedFacts.
Context {F : Type}.
Implicit Types (x y : @dated_class F) (l : list (@dated_class F)).

Lemma insert_dated_perm x l : insert_dated x l ≡ₚ x :: l.
Proof.
  induction l as [|y l IH]; simpl; [done|].
  destruct (x.1.2 <=? y.1.2); [done|]. rewrite IH. apply Permutation_swap.
Qed.

Lemma sort_dated_perm l : sort_dated l ≡ₚ l.
Proof.
  induction l as [|x l IH]; simpl; [done|].
  rewrite insert_dated_perm. by rewrite IH.
Qed.

Lemma ascending_dated_cons x y l :
  x.1.2 <= y.1.2 → ascending_dated (y :: l) → ascending_dated (x :: y :: l).
Proof.
  intros Hxy Hl [|i] a b Ha Hb; simpl in *; simplify_eq; [done|].
  by apply (Hl i).
Qed.

Lemma ascending_dated_tail x l : ascending_dated (x :: l) → ascending_dated l.
Proof. intros H i a b Ha Hb. by apply (H (S i)). Qed.

Lemma insert_dated_ascending x l :
  ascending_dated l → ascending_dated (insert_dated x l).
Proof.
  induction l as [|y l IH]; intros Hl; simpl.
  - intros [|i] a b Ha Hb; simpl in *; simplify_eq.
  - destruct (Z.leb_spec (x.1.2) (y.1.2)) as [Hle|Hlt].
    + by apply ascending_dated_cons.
    + specialize (IH (ascending_dated_tail _ _ Hl)).
      destruct l as [|z l]; simpl in *.
      * apply ascending_dated_cons; [lia|]. intros [|i] a b Ha Hb; simpl in *; simplify_eq.
      * destruct (Z.leb_spec (x.1.2) (z.1.2)).
        -- apply ascending_dated_cons; [lia|done].
        -- apply ascending_dated_cons; [|done]. by apply (Hl 0%nat).
Qed.

Lemma sort_dated_ascending l : ascending_dated (sort_dated l).
Proof.
  induction l as [|x l IH]; simpl.
  - intros i a b Ha. by rewrite lookup_nil in Ha.
  - by apply insert_dated_ascending.
Qed.

Lemma collect_dated_elem_of (attributes : list (attribute F)) : ∀ l,
  collect_dated attributes = Some l →
  ∀ f start stop, (f, start, stop) ∈ l ↔ DatedFunction f start stop ∈ attributes.
Proof.
  induction attributes as [|a attributes IH]; intros l H f start stop; simpl in H.
  - simplify_eq. split; by intros ?%elem_of_nil.
  - destruct a as [f0 start0 stop0|].
    + apply bind_Some in H as (_ & _ & H). apply bind_Some in H as (l0 & Hl0 & H).
      simplify_eq. rewrite !elem_of_cons, (IH l0 Hl0). naive_solver.
    + rewrite elem_of_cons, (IH l H). naive_solver.
Qed.

Lemma close_dated_spec : ∀ l l',
  close_dated l = Some l' →
  Forall2 (λ x y, y.1 = x.1 ∧ (is_Some x.2 → y.2 = x.2)) l l' ∧
  ∀ i x y, l' !! i = Some x → l' !! S i = Some y →
    ∃ stop, x.2 = Some stop ∧ stop < y.1.2.
Proof.
  induction l as [|[[f start] stop] l IH]; intros l' H; simpl in H.
  - simplify_eq. split; [constructor|]. intros i x y Hx. by rewrite lookup_nil in Hx.
  - destruct l as [|[[f1 start1] stop1] l].
    + simplify_eq. split; [by repeat constructor|].
      intros [|i] x y Hx Hy; simpl in *; simplify_eq.
    + apply bind_Some in H as (e & He & H). apply bind_Some in H as (rest & Hrest & H).
      simplify_eq. destruct (IH rest Hrest) as (Hall & Hnext).
      split.
      * constructor; [|done]. split; [done|]. intros [e0 He0]. simpl in He0.
        subst stop. simpl in *. destruct (e0 <? start1); by simplify_eq.
      * intros [|i] x y Hx Hy; simpl in *; simplify_eq.
        -- apply Forall2_cons_inv_l in Hall as (y' & rest' & (Hy1 & _) & _ & ->).
           simpl in Hy. simplify_eq. exists e. split; [done|]. rewrite Hy1. simpl.
           destruct stop as [e0|]; simpl in He.
           ++ destruct (Z.ltb_spec e0 start1); by simplify_eq.
           ++ simplify_eq. unfold Periods.offset_day. lia.
        -- by apply (Hnext i).
Qed.

Lemma dated_formulas_class_spec (attributes : list (attribute F)) l :
  dated_formulas_class attributes = Some l →
  (∀ f start stop, (f, start, stop) ∈ l →
     ∃ stop0, DatedFunction f start stop0 ∈ attributes ∧
              (is_Some stop0 → stop = stop0)) ∧
  (∀ i f start stop f' start' stop',
     l !! i = Some (f, start, stop) → l !! S i = Some (f', start', stop') →
     start <= start' ∧ ∃ e, stop = Some e ∧ e < start').
Proof.
  unfold dated_formulas_class. intros H.
  apply bind_Some in H as (l0 & Hl0 & H).
  destruct (close_dated_spec _ _ H) as (Hall & Hnext).
  split.
  - intros f start stop Hin.
    apply list_elem_of_lookup_1 in Hin as [i Hi].
    destruct (Forall2_lookup_r _ _ _ _ _ Hall Hi) as ([[f0 start0] stop0] & Hx & Hfs & Hst).
    simpl in *. simplify_eq. exists stop0. split; [|done].
    apply (collect_dated_elem_of _ _ Hl0).
    rewrite <-(sort_dated_perm l0). by eapply list_elem_of_lookup_2.
  - intros i f start stop f' start' stop' Hi HSi. split.
    + destruct (Forall2_lookup_r _ _ _ _ _ Hall Hi) as (x & Hx & Hfs & _).
      destruct (Forall2_lookup_r _ _ _ _ _ Hall HSi) as (y & Hy & Hfs' & _).
      pose proof (sort_dated_ascending l0 i x y Hx Hy) as Hle.
      simpl in *. destruct x as [[? ?] ?], y as [[? ?] ?]. simpl in *. by simplify_eq.
    + destruct (Hnext i _ _ Hi HSi) as (e & He & Hlt). simpl in *. eauto.
Qed.

End DatedFacts.

(** X19.  When the metaclass accepts the dated functions of a class,
    [dated_formulas_class] holds only functions declared in the class body,
    each with its own start and, when it has one, its own stop; the entries
    are in the order of their starts, and every entry but the last has a
    stop that lies before the start of the next entry. *)
Theorem dated_formulas_class_ordered {F : Type} (attributes : list (attribute F))
    (l : list (@dated_class F)) :
  dated_formulas_class attributes = Some l →
  (∀ f start stop, (f, start, stop) ∈ l →
     ∃ stop0, DatedFunction f start stop0 ∈ attributes ∧
              (is_Some stop0 → stop = stop0)) ∧
  (∀ i f start stop f' start' stop',
     l !! i = Some (f, start, stop) → l !! S i = Some (f', start', stop') →
     start <= start' ∧ ∃ e, stop = Some e ∧ e < start').
Proof. apply dated_formulas_class_spec. Qed.

Lemma dated_formulas_class_ordered_witness :
  let attributes :=
    [DatedFunction "f2010" 300 None; Undated; DatedFunction "f2000" 100 (Some 199);
     DatedFunction "f2005" 200 None] in
  let l := [("f2000", 100, Some 199); ("f2005", 200, Some 299); ("f2010", 300, None)] in
  (∀ f start stop, (f, start, stop) ∈ l →
     ∃ stop0, DatedFunction f start stop0 ∈ attributes ∧
              (is_Some stop0 → stop = stop0)) ∧
  (∀ i f start stop f' start' stop',
     l !! i = Some (f, start, stop) → l !! S i = Some (f', start', stop') →
     start <= start' ∧ ∃ e, stop = Some e ∧ e < start').
Proof.
  apply (dated_formulas_class_ordered
           [DatedFunction "f2010"%string 300 None; Undated;
            DatedFunction "f2000"%string 100 (Some 199);
            DatedFunction "f2005"%string 200 None]).
  reflexivity.
Defined.

(** ** [set_dependencies] *)

Lemma registers_refl name m : registers name m m.
Proof. intros k. by left. Qed.

Lemma registers_trans name m1 m2 m3 :
  registers name m1 m2 → registers name m2 m3 → registers name m1 m3.
Proof.
  intros H12 H23 k. destruct (H12 k) as [E12|(c & Hc & E12)],
    (H23 k) as [E23|(c' & Hc' & E23)].
  - left. congruence.
  - right. exists c'. split; congruence.
  - right. exists c. split; congruence.
  - right. exists c. split; [done|]. rewrite E23. rewrite E12 in Hc'. simplify_eq.
    simpl. do 2 f_equal. set_solver.
Qed.

Lemma add_consumer_registers name m v m' :
  add_consumer name m v = Some m' → registers name m m'.
Proof.
  unfold add_consumer. intros H. apply bind_Some in H as (c & Hc & H). simplify_eq.
  intros k. destruct (decide (k = clean_variable_name v)) as [->|Hne].
  - right. exists c. by rewrite lookup_insert_eq.
  - left. by rewrite lookup_insert_ne.
Qed.

Lemma foldl_add_consumer_None name vars :
  foldl (λ acc variable_name, m ← acc; add_consumer name m variable_name)
        None vars = None.
Proof. induction vars as [|v vars IH]; simpl; [done|]. exact IH. Qed.

Lemma foldl_add_consumer_cons name v vars m :
  foldl (λ acc variable_name, m ← acc; add_consumer name m variable_name)
        (Some m) (v :: vars)
  = match m !! clean_variable_name v with
    | Some c =>
        foldl (λ acc variable_name, m ← acc; add_consumer name m variable_name)
              (Some (<[clean_variable_name v := Some (default ∅ c ∪ {[name]})]> m))
              vars
    | None => None
    end.
Proof.
  cbn [foldl]. change (Some m ≫= λ m0, add_consumer name m0 v)
    with (add_consumer name m v).
  destruct (m !! clean_variable_name v) as [c|] eqn:Ec.
  - replace (add_consumer name m v)
      with (Some (<[clean_variable_name v := Some (default ∅ c ∪ {[name]})]> m));
      [done|].
    unfold add_consumer. by rewrite Ec.
  - replace (add_consumer name m v) with (@None consumers_by_name).
    + apply foldl_add_consumer_None.
    + unfold add_consumer. by rewrite Ec.
Qed.

Lemma foldl_add_consumer_spec name vars : ∀ m,
  (is_Some (foldl (λ acc variable_name, m ← acc; add_consumer name m variable_name)
              (Some m) vars)
   ↔ ∀ v, v ∈ vars → is_Some (m !! clean_variable_name v)) ∧
  ∀ m',
    foldl (λ acc variable_name, m ← acc; add_consumer name m variable_name)
          (Some m) vars = Some m' →
    ∀ k, m' !! k =
         if decide (k ∈ clean_variable_name <$> vars)
         then consumers ← m !! k; Some (Some (default ∅ consumers ∪ {[name]}))
         else m !! k.
Proof.
  induction vars as [|v vars IH]; intros m.
  - split.
    + split; [by intros _ v ?%elem_of_nil|simpl; eauto].
    + intros m' [= <-] k. destruct (decide _) as [?%elem_of_nil|]; done.
  - rewrite foldl_add_consumer_cons, fmap_cons.
    destruct (m !! clean_variable_name v) as [c|] eqn:Ec.
    + destruct (IH (<[clean_variable_name v := Some (default ∅ c ∪ {[name]})]> m))
        as [Hsome Hval].
      split.
      * etrans; [exact Hsome|]. split.
        -- intros H w [->|Hw]%elem_of_cons; [by rewrite Ec|].
           destruct (H w Hw) as [x Hx].
           destruct (decide (clean_variable_name w = clean_variable_name v)) as [e|ne].
           ++ rewrite e, Ec. eauto.
           ++ rewrite lookup_insert_ne in Hx by done. eauto.
        -- intros H w Hw.
           destruct (decide (clean_variable_name w = clean_variable_name v)) as [e|ne].
           ++ rewrite e, lookup_insert_eq. eauto.
           ++ rewrite lookup_insert_ne by done. apply H. by right.
      * intros m' Hm' k. rewrite (Hval m' Hm' k).
        destruct (decide (k = clean_variable_name v)) as [->|Hne].
        -- rewrite lookup_insert_eq, Ec.
           destruct (decide (_ ∈ _ :: _)) as [_|Hout]; [|by destruct Hout; left].
           destruct (decide (_ ∈ _)); [|done].
           simpl. do 2 f_equal. set_solver.
        -- rewrite lookup_insert_ne by done.
           destruct (decide (k ∈ clean_variable_name <$> vars)) as [Hin|Hout].
           ++ destruct (decide (_ ∈ _ :: _)) as [_|Hout]; [done|].
              destruct Hout. by right.
           ++ destruct (decide (_ ∈ _ :: _)) as [[?|?]%elem_of_cons|_]; done.
    + split.
      * split; [by intros [? ?]|]. intros H.
        destruct (H v) as [x Hx]; [left|]. congruence.
      * done.
Qed.

(** X20.  [SimpleFormula.set_dependencies] goes through exactly when every
    variable of the formula, its suffix [_holder] dropped, names a column of
    [column_by_name]; it then adds the name of the column at hand to the
    consumers of each of these columns and leaves every other column as it
    was. *)
Theorem set_dependencies_simple (id : nat) (cls : simple_formula_class)
    (column_name : string) (column_by_name : consumers_by_name) :
  (is_Some (set_dependencies (SimpleFormula id cls) column_name column_by_name)
   ↔ ∀ v, v ∈ variables_name cls →
          is_Some (column_by_name !! clean_variable_name v)) ∧
  ∀ m',
    set_dependencies (SimpleFormula id cls) column_name column_by_name = Some m' →
    ∀ k, m' !! k =
         if decide (k ∈ clean_variable_name <$> variables_name cls)
         then consumers ← column_by_name !! k;
              Some (Some (default ∅ consumers ∪ {[column_name]}))
         else column_by_name !! k.
Proof. apply foldl_add_consumer_spec. Qed.

Lemma set_dependencies_registers name : ∀ f m m',
  set_dependencies f name m = Some m' → registers name m m'.
Proof.
  fix IH 1. intros [id cls|id l|id l|id l] m m' H; simpl in H.
  - destruct (foldl_add_consumer_spec name (variables_name cls) m) as [_ Hval].
    intros k. rewrite (Hval m' H k).
    destruct (decide (k ∈ _)); [|by left].
    destruct (m !! k) as [c|]; [|by left]. right. by exists c.
  - revert m H. induction l as [|f' l IHl]; intros m H.
    + simplify_eq. apply registers_refl.
    + apply bind_Some in H as (m1 & H1 & H).
      eapply registers_trans; [exact (IH f' m m1 H1)|exact (IHl m1 H)].
  - revert m H. induction l as [|[[f' a] b] l IHl]; intros m H.
    + simplify_eq. apply registers_refl.
    + apply bind_Some in H as (m1 & H1 & H).
      eapply registers_trans; [exact (IH f' m m1 H1)|exact (IHl m1 H)].
  - revert m H. induction l as [|[a f'] l IHl]; intros m H.
    + simplify_eq. apply registers_refl.
    + apply bind_Some in H as (m1 & H1 & H).
      eapply registers_trans; [exact (IH f' m m1 H1)|exact (IHl m1 H)].
Qed.

(** X21.  Whatever the class -- simple, alternative, dated or select -- a
    [set_dependencies] that goes through adds no column and removes none,
    and leaves the consumers of each column as they were or with the name of
    the column at hand added: no other name is registered and no consumer is
    lost. *)
Theorem set_dependencies_only_registers (f : formula) (column_name : string)
    (column_by_name m' : consumers_by_name) :
  set_dependencies f column_name column_by_name = Some m' →
  dom m' = dom column_by_name ∧
  ∀ k consumers, column_by_name !! k = Some consumers →
    m' !! k = Some consumers ∨
    m' !! k = Some (Some (default ∅ consumers ∪ {[column_name]})).
Proof.
  intros H%set_dependencies_registers. split.
  - apply set_eq. intros k. rewrite !elem_of_dom.
    destruct (H k) as [->|(c & Hc & ->)]; [done|]. rewrite Hc. split; eauto.
  - intros k c Hc. destruct (H k) as [E|(c' & Hc' & E)].
    + left. congruence.
    + right. rewrite E. congruence.
Qed.

Lemma set_dependencies_only_registers_witness :
  let f :=
    AlternativeFormula 0
      [SimpleFormula 1 (daily_of ["salaire"; "age_holder"] (λ _, ReturnsNone));
       SimpleFormula 2 (daily_of ["age"] (λ _, ReturnsNone))] in
  let column_by_name : consumers_by_name :=
    {["salaire" := None; "age" := Some {["rsa"]}; "loyer" := None]} in
  let m' := default ∅ (set_dependencies f "impot" column_by_name) in
  dom m' = dom column_by_name ∧
  ∀ k consumers, column_by_name !! k = Some consumers →
    m' !! k = Some consumers ∨
    m' !! k = Some (Some (default ∅ consumers ∪ {["impot"]})).
Proof.
  apply (set_dependencies_only_registers
           (AlternativeFormula 0
              [SimpleFormula 1 (daily_of ["salaire"; "age_holder"] (λ _, ReturnsNone));
               SimpleFormula 2 (daily_of ["age"] (λ _, ReturnsNone))])
           "impot"
           {["salaire" := None; "age" := Some {["rsa"]}; "loyer" := None]}).
  vm_compute. reflexivity.
Defined.

(** * Further properties of the [compute] methods *)

Section EngineMore.

Variable stop_instant : Period → instant.
Variable intersection : Period → option instant → option instant → option Period.
Variable astype : dtype → ndarray → ndarray.
Variable sim : simulation.

(** The prologue sends the method back only in lazy mode, for a formula that
    is marked. *)
Lemma check_requested_back h self lazy period r s p key r' s' :
  check_requested h self lazy period r s = Ok (p, key, true) r' s' →
  lazy = true ∧ period = Some p ∧ self ∈ requested r (period_key h p).
Proof.
  intros H. destruct period as [p0|]; [|done].
  unfold check_requested, bind, get_tracking, put_tracking, assert_, ret, raise in H.
  destruct (r !! _) as [set|] eqn:Hr.
  - destruct lazy.
    + simplify_eq. split; [done|]. split; [done|].
      unfold requested, period_key. rewrite Hr.
      change (default ∅ (Some set)) with set.
      match goal with
      | Hb : bool_decide (self ∈ set) = true |- _ =>
          exact (proj1 (bool_decide_eq_true _) Hb)
      end.
    + destruct (bool_decide _); simplify_eq.
  - simplify_eq.
Qed.

(** What the loop of [DatedFormula.compute] hands over: nothing when no
    dated formula was computed, with the dict and the state untouched;
    otherwise the dated holder, the dict and the state that the [compute] of
    one dated formula of the list left, called on an intersection of the
    period with the dates of that formula -- returned from inside the loop
    when the holder has an array, after the loop when it has none. *)
Lemma try_dated_spec (rec : formula → bool → option Period → M DatedHolder)
    lazy period stop dated_formulas :
  ∀ r s tried r' s',
  try_dated intersection rec lazy period stop dated_formulas None r s
    = Ok tried r' s' →
  match tried with
  | inr None => r' = r ∧ s' = s
  | inl dh | inr (Some dh) =>
      ∃ f start_instant stop_instant' output_period,
        (f, start_instant, stop_instant') ∈ dated_formulas ∧
        intersection period (Some start_instant) (Some stop_instant')
          = Some output_period ∧
        rec f lazy (Some output_period) r s = Ok dh r' s' ∧
        match tried with
        | inl _ => is_Some (arrays s' !! (dh_holder dh, dh_period dh))
        | inr _ => arrays s' !! (dh_holder dh, dh_period dh) = None
        end
  end.
Proof.
  induction dated_formulas as [|[[f start_instant] stop_instant'] l IH];
    intros r s tried r' s' H; simpl in H.
  - by invert_ok.
  - destruct (start_instant >? stop); [by invert_ok|].
    destruct (intersection period _ _) as [output_period|] eqn:Ei.
    + apply bind_Ok in H as (dh0 & r0 & s0 & Hrec & H).
      apply bind_Ok in H as (a & ? & ? & (-> & -> & ->)%get_array_Ok & H).
      destruct (arrays s0 !! _) as [a|] eqn:Ea; invert_ok.
      * exists f, start_instant, stop_instant', output_period.
        split; [left|]. split; [done|]. split; [done|]. rewrite Ea. eauto.
      * exists f, start_instant, stop_instant', output_period.
        split; [left|]. split; [done|]. split; [done|]. exact Ea.
    + specialize (IH _ _ _ _ _ H).
      destruct tried as [dh|[dh|]]; [| |done];
        destruct IH as (f0 & a0 & b0 & op & Hin & Hop & Hrec & Harr);
        exists f0, a0, b0, op; (split; [by right|done]).
Qed.

Lemma DatedFormula_compute_array
    (rec : formula → bool → option Period → M DatedHolder)
    name id dated_formulas lazy period r s dh r' s' :
  DatedFormula_compute stop_instant intersection sim rec name id dated_formulas
    lazy period r s = Ok dh r' s' →
  (is_Some (arrays s' !! (dh_holder dh, dh_period dh)) ∧
   ∃ h p, holder_by_name sim !! name = Some h ∧ period = Some p ∧
     ((∃ f start_instant stop_instant' output_period r0 r1,
         (f, start_instant, stop_instant') ∈ dated_formulas ∧
         intersection p (Some start_instant) (Some stop_instant')
           = Some output_period ∧
         rec f lazy (Some output_period) r0 s = Ok dh r1 s')
      ∨
      (∃ s0,
         arrays s' = <[(dh_holder dh, dh_period dh) :=
                        filled (entity_count h) (column_dtype h) (column_default h)]>
                     (arrays s0) ∧
         calls s' = calls s0 ∧
         ((dh = at_period h name (Some p) ∧ s0 = s) ∨
          (∃ f start_instant stop_instant' output_period r0 r1,
             (f, start_instant, stop_instant') ∈ dated_formulas ∧
             intersection p (Some start_instant) (Some stop_instant')
               = Some output_period ∧
             rec f lazy (Some output_period) r0 s = Ok dh r1 s0 ∧
             arrays s0 !! (dh_holder dh, dh_period dh) = None)))))
  ∨
  (lazy = true ∧
   ∃ h p, holder_by_name sim !! name = Some h ∧ period = Some p ∧
          (name, id) ∈ requested r (period_key h p)).
Proof.
  intros H. unfold DatedFormula_compute in H.
  apply bind_Ok in H as (h & ? & ? & (Hh & -> & ->)%get_holder_Ok & H).
  apply bind_Ok in H as ([[p0 key] back] & r0 & s0 & Hc & H).
  destruct back.
  - right. apply check_requested_back in Hc as (-> & -> & Hin).
    split; [done|]. by exists h, p0.
  - left.
    pose proof (check_requested_state _ _ _ _ _ _ _ _ _ Hc) as ->.
    apply check_requested_Ok in Hc as (-> & -> & _ & _).
    apply bind_Ok in H as ([] & r1 & s1 & [_ ->]%add_requested_Ok & H).
    apply bind_Ok in H as (tried & r2 & s2 & Htry & H).
    apply try_dated_spec in Htry.
    destruct tried as [dh0|dated_holder].
    + destruct Htry as (f & a & b & op & Hin & Hop & Hrec & Harr).
      apply bind_Ok in H as ([] & ? & ? & [_ ->]%remove_requested_Ok & H).
      invert_ok. split; [done|]. exists h, p0. split; [done|]. split; [done|].
      left. by exists f, a, b, op, r1, r2.
    + apply bind_Ok in H as ([] & r3 & s3 & Hset & H).
      apply bind_Ok in H as ([] & ? & ? & [_ ->]%remove_requested_Ok & H).
      unfold set_array, bind, get_state, put_state in Hset.
      injection Hset as <- <-. invert_ok. simpl.
      split; [rewrite lookup_insert_eq; eauto|].
      exists h, p0. split; [done|]. split; [done|]. right.
      exists s2. split; [done|]. split; [done|].
      destruct dated_holder as [dh0|].
      * right. destruct Htry as (f & a & b & op & Hin & Hop & Hrec & Harr).
        by exists f, a, b, op, r1, r2.
      * left. destruct Htry as [_ ->]. done.
Qed.

(** X22.  A [DatedFormula.compute] that returns hands back a dated holder
    that has an array, unless it was called in lazy mode for a formula
    already in progress.  Either the holder, and the arrays and call log
    with it, are those the [compute] of one dated formula of the list left,
    called on an intersection of the period with the dates of that formula;
    or the array of the holder is the one filled with the default of the
    column, of the dtype of the column and with one cell for each row of the
    entity, stored over the arrays left by the dated formula that gave no
    array, or over the arrays at entry, under the period asked for, when no
    dated formula was computed. *)
Theorem DatedFormula_leaves_array (fuel : nat) (name : string) (id : nat)
    (dated_formulas : list (formula * instant * instant)) (lazy : bool)
    (period : option Period) (r : tracking) (s : state) (dh : DatedHolder)
    (r' : tracking) (s' : state) :
  Formulas.compute stop_instant intersection astype sim fuel name
    (DatedFormula id dated_formulas) lazy period r s = Ok dh r' s' →
  (is_Some (arrays s' !! (dh_holder dh, dh_period dh)) ∧
   ∃ h p, holder_by_name sim !! name = Some h ∧ period = Some p ∧
     ((∃ f start_instant stop_instant' output_period r0 r1,
         (f, start_instant, stop_instant') ∈ dated_formulas ∧
         intersection p (Some start_instant) (Some stop_instant')
           = Some output_period ∧
         Formulas.compute stop_instant intersection astype sim (pred fuel) name
           f lazy (Some output_period) r0 s = Ok dh r1 s')
      ∨
      (∃ s0,
         arrays s' = <[(dh_holder dh, dh_period dh) :=
                        filled (entity_count h) (column_dtype h) (column_default h)]>
                     (arrays s0) ∧
         calls s' = calls s0 ∧
         ((dh = at_period h name (Some p) ∧ s0 = s) ∨
          (∃ f start_instant stop_instant' output_period r0 r1,
             (f, start_instant, stop_instant') ∈ dated_formulas ∧
             intersection p (Some start_instant) (Some stop_instant')
               = Some output_period ∧
             Formulas.compute stop_instant intersection astype sim (pred fuel) name
               f lazy (Some output_period) r0 s = Ok dh r1 s0 ∧
             arrays s0 !! (dh_holder dh, dh_period dh) = None)))))
  ∨
  (lazy = true ∧
   ∃ h p, holder_by_name sim !! name = Some h ∧ period = Some p ∧
          (name, id) ∈ requested r (period_key h p)).
Proof.
  destruct fuel as [|fuel]; [done|]. simpl. apply DatedFormula_compute_array.
Qed.

End EngineMore.

Lemma DatedFormula_leaves_array_witness :
  let sim := simulation_of dated_none_formula in
  let dated_formulas :=
    [(SimpleFormula 1 (daily (λ _, ReturnsNone)),
      instant_of_ymd 2014 1 1, instant_of_ymd 2014 12 31)] in
  let dh := mkDatedHolder "a" (Some the_day) in
  let s' :=
    State {[("a"%string, Some the_day) := filled 2 Float (Num 0)]}
          [(("a"%string, 1%nat), [])] in
  Formulas.compute day_stop_instant whole_period retag sim 2 "a"
    (DatedFormula 0 dated_formulas) true (Some the_day) ∅ empty_state
  = Ok dh {[Some the_day := ∅]} s' ∧
  ((is_Some (arrays s' !! (dh_holder dh, dh_period dh)) ∧
    ∃ h p, holder_by_name sim !! "a" = Some h ∧ Some the_day = Some p ∧
      ((∃ f start_instant stop_instant' output_period r0 r1,
          (f, start_instant, stop_instant') ∈ dated_formulas ∧
          whole_period p (Some start_instant) (Some stop_instant')
            = Some output_period ∧
          Formulas.compute day_stop_instant whole_period retag sim (pred 2) "a"
            f true (Some output_period) r0 empty_state = Ok dh r1 s')
       ∨
       (∃ s0,
          arrays s' = <[(dh_holder dh, dh_period dh) :=
                         filled (entity_count h) (column_dtype h) (column_default h)]>
                      (arrays s0) ∧
          calls s' = calls s0 ∧
          ((dh = at_period h "a" (Some p) ∧ s0 = empty_state) ∨
           (∃ f start_instant stop_instant' output_period r0 r1,
              (f, start_instant, stop_instant') ∈ dated_formulas ∧
              whole_period p (Some start_instant) (Some stop_instant')
                = Some output_period ∧
              Formulas.compute day_stop_instant whole_period retag sim (pred 2) "a"
                f true (Some output_period) r0 empty_state = Ok dh r1 s0 ∧
              arrays s0 !! (dh_holder dh, dh_period dh) = None)))))
   ∨
   (true = true ∧
    ∃ h p, holder_by_name sim !! "a" = Some h ∧ Some the_day = Some p ∧
           ("a", 0%nat) ∈ requested (∅ : tracking) (period_key h p))).
Proof.
  assert (H : Formulas.compute day_stop_instant whole_period retag
                (simulation_of dated_none_formula) 2 "a" dated_none_formula true
                (Some the_day) ∅ empty_state
              = Ok (mkDatedHolder "a" (Some the_day)) {[Some the_day := ∅]}
                  (State {[("a"%string, Some the_day) := filled 2 Float (Num 0)]}
                         [(("a"%string, 1%nat), [])]))
    by (vm_compute; reflexivity).
  split; [exact H|].
  exact (DatedFormula_leaves_array day_stop_instant whole_period retag
           (simulation_of dated_none_formula) 2 "a" 0 _ true (Some the_day)
           ∅ empty_state _ _ _ H).
Defined.
